(** * pixchart: the particle loader, the collapse/expand animation and the
      scene's setters

    A shallow embedding of the module that exports [pixChart], of the module
    that exports [loadParticles], and of the configuration part of
    [src/scene.js].

    Conventions of the embedding.
    - A JavaScript number is a value of [num]: a rational (the value of a
      finite double), one of the two infinities, or NaN ([undefined]
      behaves as NaN wherever the code computes or compares with it).  The
      results of [+], [-], [*] and [/] are rounded to the nearest double,
      ties to even, with overflow to an infinity ([binary64]); what is
      stored in the [Float32Array] of the particle attributes is rounded to
      the nearest single ([binary32]).  The two zeros are not told apart:
      the code never divides by a zero and never looks at the sign of one.
    - Integers that count pixels or index arrays are of type [Z]; they stay
      far below [2 ^ 53], where doubles are exact on integers.
    - Closure variables become fields of a record that is passed along.
    - Calls into the host (timers, animation frames, WebGL calls, callbacks
      handed in by the client) are recorded as a list of effects, in the
      order the code issues them; an exception that leaves a function is
      the last of its effects. *)

From Stdlib Require Import ZArith QArith Qround Qpower Qreduction.
From Stdlib Require Import Lia Lqa Ascii String.
From stdpp Require Import base option list gmap strings.

Local Open Scope Z_scope.

(** ** JavaScript numbers *)

Inductive num : Type :=
| NaN
| NegInf
| Fin (q : Q)
| PosInf.

Definition Qltb (x y : Q) : bool :=
  match Qcompare x y with Lt => true | _ => false end.

(** [a < b] *)
Definition num_lt (a b : num) : bool :=
  match a, b with
  | NaN, _ | _, NaN => false
  | NegInf, NegInf => false
  | NegInf, _ => true
  | Fin _, NegInf => false
  | Fin x, Fin y => Qltb x y
  | Fin _, PosInf => true
  | PosInf, _ => false
  end.

(** [a > b] *)
Definition num_gt (a b : num) : bool := num_lt b a.

(** [a <= b] *)
Definition num_leb (a b : num) : bool :=
  match a, b with
  | NaN, _ | _, NaN => false
  | NegInf, _ => true
  | Fin _, NegInf => false
  | Fin x, Fin y => Qle_bool x y
  | Fin _, PosInf => true
  | PosInf, PosInf => true
  | PosInf, _ => false
  end.

Definition num_neg (a : num) : num :=
  match a with
  | NaN => NaN
  | NegInf => PosInf
  | Fin x => Fin (- x)
  | PosInf => NegInf
  end.

(** *** Rounding to a binary format *)

(** The nearest integer, a half going to the even one. *)
Definition rne (q : Q) : Z :=
  let f := Qfloor q in
  match Qcompare (q - inject_Z f) (1 # 2) with
  | Lt => f
  | Gt => f + 1
  | Eq => if Z.even f then f else f + 1
  end.

Definition pow2 (e : Z) : Q := (2 ^ e)%Q.

(** The binary logarithm of a positive rational, rounded down. *)
Definition ilog2 (q : Q) : Z :=
  let d := Z.log2 (Qnum q) - Z.log2 (Zpos (Qden q)) in
  if Qle_bool (pow2 d) q then d else d - 1.

Section Format.

(** A format has [prec] bits of significand, [2 ^ emin] as its smallest
    positive number and [2 ^ emax] as the bound of its finite numbers. *)
Variables prec emin emax : Z.

(** The exponent of the unit in the last place at [q]. *)
Definition ulp_exp (q : Q) : Z := Z.max (ilog2 q + 1 - prec) emin.

(** The nearest multiple of that unit, for a positive [q]. *)
Definition nearest (q : Q) : Q :=
  inject_Z (rne (q / pow2 (ulp_exp q))) * pow2 (ulp_exp q).

Definition overflow (r : Q) : num :=
  if Qle_bool (pow2 emax) r then PosInf else Fin (Qred r).

(** Round to nearest, ties to even; the result is in lowest terms. *)
Definition round_to (q : Q) : num :=
  match Qcompare q 0 with
  | Eq => Fin 0
  | Gt => overflow (nearest q)
  | Lt => num_neg (overflow (nearest (- q)))
  end.

End Format.

(** The doubles, and the singles of a [Float32Array]. *)
Definition binary64 : Q -> num := round_to 53 (-1074) 1024.
Definition binary32 : Q -> num := round_to 24 (-149) 128.

Arguments binary64 : simpl never.
Arguments binary32 : simpl never.

(** The rationals that are doubles, written in lowest terms. *)
Definition double (q : Q) : Prop := binary64 q = Fin q.

(** What a store into a [Float32Array] keeps of a number
    ([Math.fround]). *)
Definition fround (a : num) : num :=
  match a with
  | Fin q => binary32 q
  | _ => a
  end.

(** *** Arithmetic *)

(** [a + b] *)
Definition num_add (a b : num) : num :=
  match a, b with
  | NaN, _ | _, NaN => NaN
  | NegInf, PosInf | PosInf, NegInf => NaN
  | NegInf, _ | _, NegInf => NegInf
  | PosInf, _ | _, PosInf => PosInf
  | Fin x, Fin y => binary64 (x + y)
  end.

(** [a - b] *)
Definition num_sub (a b : num) : num := num_add a (num_neg b).

(** [a / b]; a zero is taken as [+0] *)
Definition num_div (a b : num) : num :=
  match a, b with
  | NaN, _ | _, NaN => NaN
  | (NegInf | PosInf), (NegInf | PosInf) => NaN
  | NegInf, Fin y => if Qltb y 0 then PosInf else NegInf
  | PosInf, Fin y => if Qltb y 0 then NegInf else PosInf
  | Fin _, (NegInf | PosInf) => Fin 0
  | Fin x, Fin y =>
      if Qeq_bool y 0 then
        if Qeq_bool x 0 then NaN else if Qltb x 0 then NegInf else PosInf
      else binary64 (x / y)
  end.

(** [Math.max(a, b)] *)
Definition num_max (a b : num) : num :=
  match a, b with
  | NaN, _ | _, NaN => NaN
  | _, _ => if num_lt a b then b else a
  end.

(** truthiness of a number: [0] and [NaN] are falsy *)
Definition num_truthy (a : num) : bool :=
  match a with
  | NaN => false
  | Fin x => negb (Qeq_bool x 0)
  | _ => true
  end.

(** order on the finite part, as a proposition *)
Definition num_le (a b : num) : Prop :=
  match a, b with
  | Fin x, Fin y => (x <= y)%Q
  | _, _ => False
  end.

Definition num_finite (a : num) : Prop :=
  match a with Fin _ => True | _ => False end.

(** the sign of a number, as the comparison with [0] *)
Definition num_sign (a : num) : comparison :=
  match a with
  | NaN => Eq
  | NegInf => Lt
  | Fin x => Qcompare x 0
  | PosInf => Gt
  end.

(** [a * b] *)
Definition num_mul (a b : num) : num :=
  match a, b with
  | NaN, _ | _, NaN => NaN
  | Fin x, Fin y => binary64 (x * y)
  | _, _ =>
      match num_sign a, num_sign b with
      | Eq, _ | _, Eq => NaN
      | Lt, Lt | Gt, Gt => PosInf
      | _, _ => NegInf
      end
  end.

(** [a === b] on numbers *)
Definition num_eqb (a b : num) : bool :=
  match a, b with
  | NegInf, NegInf | PosInf, PosInf => true
  | Fin x, Fin y => Qeq_bool x y
  | _, _ => false
  end.

(** [Math.round(a)]: the nearest integer, a half rounded up *)
Definition Math_round (a : num) : num :=
  match a with
  | Fin x => Fin (inject_Z (Qfloor (x + (1 # 2))))
  | _ => a
  end.

(** An integer as a number (exact up to [2 ^ 53]). *)
Definition num_of_Z (z : Z) : num := Fin (inject_Z z).

(** Reading [a[i]] from an array: [undefined] outside of it. *)
Definition zlookup {A : Type} (l : list A) (i : Z) : option A :=
  if i <? 0 then None else l !! Z.to_nat i.

(** The position a number denotes in an array of length [len], when it
    denotes one: an integer within [0, len). *)
Definition array_index (len : nat) (i : num) : option nat :=
  match i with
  | Fin q =>
      let z := Qfloor q in
      if Qeq_bool q (inject_Z z) && (0 <=? z) && (z <? Z.of_nat len)
      then Some (Z.to_nat z) else None
  | _ => None
  end.

(** ** The particle loader: [loadParticles] *)

Module LoadParticles.

(** The image as the loader sees it: its size, and the RGBA bytes that
    [getImageData] returns for the canvas the image was drawn on. *)
Record Image : Type := {
  width : Z;
  height : Z;
  data : list Z
}.

(** The [options] object of [loadParticles]; [onProgress] is the callback
    of the caller and shows up as an effect. *)
Record Options : Type := {
  isCancelled : bool;
  framesCount : num
}.

(** One record of four numbers of [particleAttributes], as the
    [Float32Array] holds them: singles.  The second one is
    [currentYValue - 1]: NaN when the bucket read was outside of the
    array. *)
Record Particle : Type := {
  value : num;
  stackHeight : num;
  jitter : num;
  sourceIndex : num
}.

Definition zeroParticle : Particle :=
  {| value := Fin 0; stackHeight := Fin 0; jitter := Fin 0;
     sourceIndex := Fin 0 |}.

(** The value the promise resolves with (the canvas is left out). *)
Record Particles : Type := {
  res_minFrameSpan : num;
  res_maxFrameSpan : num;
  res_particleAttributes : list Particle;
  res_maxYValue : Z
}.

Inductive Effect : Type :=
| OnProgress (processedPixels : Z)     (* onProgress(idx/4) *)
| SetTimeout0                          (* setTimeout(processPixels, 0) *)
| Resolve (p : Particles).             (* actualResolve({...}) *)

(** The variables of one call of [loadParticles], the cancellation flag of
    its options object, the number of samples drawn from the module's
    random generator, and what is outstanding: the timer, the promise. *)
Record Loader : Type := {
  cancelled : bool;
  initIntervals : Z;
  n : Z;
  bucketsCount : Z;
  maxYValue : Z;
  pixels : list Z;
  idx : Z;
  minFrameSpan : num;
  maxFrameSpan : num;
  particleAttributes : list Particle;
  bucketColors : list Z;
  random : nat;
  timer : bool;
  resolved : option Particles
}.

Definition Uint32_modulus : Z := 2 ^ 32.

(** [bucketColors[bucketNumber] += 1], and the value of that expression,
    which is the sum: inside the array the sum is stored modulo [2^32];
    outside of it the read is [undefined], the sum NaN ([None]) and the
    store does nothing. *)
Definition incrementBucket (bucketColors : list Z) (bucketNumber : num)
  : list Z * option Z :=
  match array_index (length bucketColors) bucketNumber with
  | Some i =>
      match bucketColors !! i with
      | Some old =>
          (<[i := (old + 1) mod Uint32_modulus]> bucketColors,
           Some (old + 1))
      | None => (bucketColors, None)
      end
  | None => (bucketColors, None)
  end.

Section Engine.

(** [rgbToHsl(r, g, b)[2]] of [./colors], applied to what the pixel
    array holds at three positions. *)
Variable rgbToHsl_l : option Z -> option Z -> option Z -> num.

(** The results of [random.gaussian()] that this loader is handed, in
    the order of its calls.  The generator is the one the module creates
    with seed 42; all loaders of the module draw from it, so that which
    samples one of them is handed depends on the calls the others make in
    between. *)
Variable gaussian : nat -> Q.

Definition getValue (r g b : option Z) : num := rgbToHsl_l r g b.

(** The bucket of a value: [Math.round(v * bucketsCount)], moved one down
    when it equals [bucketsCount]. *)
Definition bucketNumber (v : num) (bucketsCount : Z) : num :=
  let bucketNumber := Math_round (num_mul v (num_of_Z bucketsCount)) in
  if num_eqb bucketNumber (num_of_Z bucketsCount)
  then num_sub bucketNumber (Fin 1)
  else bucketNumber.

(** The body of the [while] loop of [processPixels]: one pixel. *)
Definition processPixel (L : Loader) : Loader :=
  let pixelsCount := 4 * n L in
  let invIndex := pixelsCount - idx L - 4 in
  let r := zlookup (pixels L) (invIndex + 0) in
  let g := zlookup (pixels L) (invIndex + 1) in
  let b := zlookup (pixels L) (invIndex + 2) in
  let v := getValue r g b in
  let bucketNumber := bucketNumber v (bucketsCount L) in
  let '(bucketColors', currentYValue) :=
    incrementBucket (bucketColors L) bucketNumber in
  let frameSpan := Fin (gaussian (random L)) in
  let particle :=
    {| value := fround v;
       stackHeight :=
         fround match currentYValue with
                | Some y => num_sub (num_of_Z y) (Fin 1)
                | None => NaN
                end;
       jitter := fround frameSpan;
       sourceIndex := fround (num_div (num_of_Z invIndex) (Fin 4)) |} in
  {| cancelled := cancelled L;
     initIntervals := initIntervals L;
     n := n L;
     bucketsCount := bucketsCount L;
     maxYValue :=
       match currentYValue with
       | Some y => if y >? maxYValue L then y else maxYValue L
       | None => maxYValue L
       end;
     pixels := pixels L;
     idx := idx L + 4;
     minFrameSpan :=
       if num_lt frameSpan (minFrameSpan L) then frameSpan
       else minFrameSpan L;
     maxFrameSpan :=
       if num_gt frameSpan (maxFrameSpan L) then frameSpan
       else maxFrameSpan L;
     particleAttributes :=
       match zlookup (particleAttributes L) (idx L / 4) with
       | Some _ => <[Z.to_nat (idx L / 4) := particle]> (particleAttributes L)
       | None => particleAttributes L
       end;
     bucketColors := bucketColors';
     random := S (random L);
     timer := timer L;
     resolved := resolved L |}.

Definition set_timer (b : bool) (L : Loader) : Loader :=
  {| cancelled := cancelled L; initIntervals := initIntervals L;
     n := n L; bucketsCount := bucketsCount L; maxYValue := maxYValue L;
     pixels := pixels L; idx := idx L; minFrameSpan := minFrameSpan L;
     maxFrameSpan := maxFrameSpan L;
     particleAttributes := particleAttributes L;
     bucketColors := bucketColors L; random := random L;
     timer := b; resolved := resolved L |}.

Definition set_cancelled (b : bool) (L : Loader) : Loader :=
  {| cancelled := b; initIntervals := initIntervals L;
     n := n L; bucketsCount := bucketsCount L; maxYValue := maxYValue L;
     pixels := pixels L; idx := idx L; minFrameSpan := minFrameSpan L;
     maxFrameSpan := maxFrameSpan L;
     particleAttributes := particleAttributes L;
     bucketColors := bucketColors L; random := random L;
     timer := timer L; resolved := resolved L |}.

Definition scheduleWork (L : Loader) : Loader * list Effect :=
  if cancelled L then (L, [])
  else
    let initIntervals' := initIntervals L + 1 in
    let L' :=
      {| cancelled := cancelled L; initIntervals := initIntervals';
         n := n L; bucketsCount := bucketsCount L;
         maxYValue := maxYValue L;
         pixels := pixels L; idx := idx L; minFrameSpan := minFrameSpan L;
         maxFrameSpan := maxFrameSpan L;
         particleAttributes := particleAttributes L;
         bucketColors := bucketColors L; random := random L;
         timer := true; resolved := resolved L |} in
    (L',
     (if initIntervals' mod 10 =? 0 then [OnProgress (idx L / 4)] else [])
       ++ [SetTimeout0]).

(** What [actualResolve] is called with. *)
Definition particlesOf (L : Loader) : Particles :=
  {| res_minFrameSpan := minFrameSpan L;
     res_maxFrameSpan := maxFrameSpan L;
     res_particleAttributes := particleAttributes L;
     res_maxYValue := maxYValue L |}.

(** A promise is settled once: a later call of its resolver does nothing. *)
Definition actualResolve (L : Loader) : Loader * list Effect :=
  match resolved L with
  | Some _ => (L, [])
  | None =>
      ({| cancelled := cancelled L; initIntervals := initIntervals L;
          n := n L; bucketsCount := bucketsCount L;
          maxYValue := maxYValue L;
          pixels := pixels L; idx := idx L;
          minFrameSpan := minFrameSpan L;
          maxFrameSpan := maxFrameSpan L;
          particleAttributes := particleAttributes L;
          bucketColors := bucketColors L; random := random L;
          timer := timer L; resolved := Some (particlesOf L) |},
       [Resolve (particlesOf L)])
  end.

(** [processPixels].  The clock of the host decides where a batch ends:
    [budget] is the number of pixels after which [performance.now() - start]
    is still at most 12, so that the test after pixel [budget + 1] is the
    first one to succeed. *)
Fixpoint processPixels (budget : nat) (L : Loader) : Loader * list Effect :=
  if idx L <? 4 * n L then
    let L := processPixel L in
    match budget with
    | O => scheduleWork L
    | S budget => processPixels budget L
    end
  else actualResolve L.

(** [loadParticles(image, options)], up to the [return] of the promise.
    The host's [getImageData] throws when the width or the height it is
    asked for is 0. *)
Definition loadParticles (image : Image) (options : option Options)
    (random0 : nat) : string + Loader * list Effect :=
  match options with
  | None => inl "Options required"%string
  | Some options =>
      let n := width image * height image in
      let bucketsCount := n in
      if (width image =? 0) || (height image =? 0)
      then inl "IndexSizeError"%string
      else
      inr (scheduleWork
             {| cancelled := isCancelled options;
                initIntervals := 0;
                n := n;
                bucketsCount := bucketsCount;
                maxYValue := 0;
                pixels := data image;
                idx := 0;
                minFrameSpan := PosInf;
                maxFrameSpan := NegInf;
                particleAttributes := replicate (Z.to_nat n) zeroParticle;
                bucketColors := replicate (Z.to_nat bucketsCount) 0;
                random := random0;
                timer := false;
                resolved := None |})
  end.

(** What happens to a loader between two turns of the host's loop: its
    timer fires, or the owner of the options object sets the flag on it
    (the [dispose] of the chart does). *)
Inductive Event : Type :=
| TimerFires (budget : nat)
| Cancel.

Definition step (e : Event) (L : Loader) : Loader * list Effect :=
  match e with
  | TimerFires budget =>
      if timer L then processPixels budget (set_timer false L) else (L, [])
  | Cancel => (set_cancelled true L, [])
  end.

Fixpoint run (es : list Event) (L : Loader) : Loader * list Effect :=
  match es with
  | [] => (L, [])
  | e :: es =>
      let '(L1, out1) := step e L in
      let '(L2, out2) := run es L1 in
      (L2, out1 ++ out2)
  end.

(** The whole image in one go, without timers: the loop body applied to
    each of the [k] remaining pixels. *)
Fixpoint processAll (k : nat) (L : Loader) : Loader :=
  match k with
  | O => L
  | S k => processAll k (processPixel L)
  end.

End Engine.

(** Modelled from the spec: [rgbToHsl] of [./colors] is not among the
    sources; the spec describes the value as the lightness channel of the
    HSL form of the pixel, normalised to [0, 1].  For channel bytes that is
    [(max + min) / 2 / 255]. *)
Definition lightness (r g b : option Z) : num :=
  match r, g, b with
  | Some r, Some g, Some b =>
      num_div
        (num_div (num_of_Z (Z.max r (Z.max g b) + Z.min r (Z.min g b)))
                 (Fin 2))
        (Fin 255)
  | _, _, _ => NaN
  end.

End LoadParticles.

(** ** The animation: [pixChart] *)

Module PixChart.

Inductive AnimationState : Type :=
| ANIMATION_COLLAPSE   (* 1 *)
| ANIMATION_EXPAND.    (* 2 *)

Definition state_eqb (a b : AnimationState) : bool :=
  match a, b with
  | ANIMATION_COLLAPSE, ANIMATION_COLLAPSE => true
  | ANIMATION_EXPAND, ANIMATION_EXPAND => true
  | _, _ => false
  end.

Record Canvas : Type := {
  clientWidth : Z;
  clientHeight : Z;
  webgl : bool            (* [getContext] returns a context *)
}.

(** The [options] object a client hands to [pixChart].  A field the client
    did not set is [None]; a callback is represented by its presence. *)
Record Options : Type := {
  canvas : option Canvas;
  colorGroupBy : option string;
  scaleImage : option bool;
  bucketCount : option num;
  collapsed : option bool;
  maxPixels : option num;
  framesCount_option : option num;
  cycleComplete : bool;
  progress_callback : bool
}.

Inductive ProgressStep : Type :=
| step_image | step_pixels | step_done | step_error.

Record Progress : Type := {
  total : Z;
  current : Z;
  step : ProgressStep
}.

(** What the code asks of the host and of its client. *)
Inductive Effect : Type :=
| RequestAnimationFrame                  (* requestAnimationFrame(animate) *)
| SetTimeout (ms : Z)                    (* setTimeout(.., ms) of a pause *)
| CancelAnimationFrame
| ClearTimeout
| CycleComplete                          (* options.cycleComplete() *)
| NotifyProgress (p : Progress)          (* options.progress(progress) *)
| Draw (frame minSpan maxSpan : num) (st : AnimationState)
| ReleaseResources
| CreateTexture                          (* glUtils.createTexture(gl, ..) *)
| LoadParticles (image : LoadParticles.Image)
                (settings : LoadParticles.Options).

(** The closure variables of [pixChart].  [nextAnimationFrame] and
    [pendingTimeout] hold a handle or [0]: here whether one is outstanding. *)
Record Chart : Type := {
  initialState : AnimationState;
  state : AnimationState;
  nextAnimationFrame : bool;
  pendingTimeout : bool;
  disposed : bool;
  framesCount : num;
  currentFrameNumber : num;
  particleLoaderSettings : LoadParticles.Options;
  progress : Progress;
  minFrameSpan : num;
  maxFrameSpan : num;
  frameChangeRate : num
}.

Definition set_state (s : AnimationState) (c : Chart) : Chart :=
  {| initialState := initialState c; state := s;
     nextAnimationFrame := nextAnimationFrame c;
     pendingTimeout := pendingTimeout c; disposed := disposed c;
     framesCount := framesCount c;
     currentFrameNumber := currentFrameNumber c;
     particleLoaderSettings := particleLoaderSettings c;
     progress := progress c; minFrameSpan := minFrameSpan c;
     maxFrameSpan := maxFrameSpan c; frameChangeRate := frameChangeRate c |}.

Definition set_nextAnimationFrame (b : bool) (c : Chart) : Chart :=
  {| initialState := initialState c; state := state c;
     nextAnimationFrame := b; pendingTimeout := pendingTimeout c;
     disposed := disposed c; framesCount := framesCount c;
     currentFrameNumber := currentFrameNumber c;
     particleLoaderSettings := particleLoaderSettings c;
     progress := progress c; minFrameSpan := minFrameSpan c;
     maxFrameSpan := maxFrameSpan c; frameChangeRate := frameChangeRate c |}.

Definition set_pendingTimeout (b : bool) (c : Chart) : Chart :=
  {| initialState := initialState c; state := state c;
     nextAnimationFrame := nextAnimationFrame c; pendingTimeout := b;
     disposed := disposed c; framesCount := framesCount c;
     currentFrameNumber := currentFrameNumber c;
     particleLoaderSettings := particleLoaderSettings c;
     progress := progress c; minFrameSpan := minFrameSpan c;
     maxFrameSpan := maxFrameSpan c; frameChangeRate := frameChangeRate c |}.

Definition set_currentFrameNumber (f : num) (c : Chart) : Chart :=
  {| initialState := initialState c; state := state c;
     nextAnimationFrame := nextAnimationFrame c;
     pendingTimeout := pendingTimeout c; disposed := disposed c;
     framesCount := framesCount c; currentFrameNumber := f;
     particleLoaderSettings := particleLoaderSettings c;
     progress := progress c; minFrameSpan := minFrameSpan c;
     maxFrameSpan := maxFrameSpan c; frameChangeRate := frameChangeRate c |}.

Definition set_progress (p : Progress) (c : Chart) : Chart :=
  {| initialState := initialState c; state := state c;
     nextAnimationFrame := nextAnimationFrame c;
     pendingTimeout := pendingTimeout c; disposed := disposed c;
     framesCount := framesCount c;
     currentFrameNumber := currentFrameNumber c;
     particleLoaderSettings := particleLoaderSettings c; progress := p;
     minFrameSpan := minFrameSpan c; maxFrameSpan := maxFrameSpan c;
     frameChangeRate := frameChangeRate c |}.

(** [pixChart(imageLink, options)] up to the start of the pipeline: the two
    checks that throw, and the initial value of every variable.  The three
    span variables are declared without a value. *)
Definition pixChart (options : Options) : string + Chart :=
  match canvas options with
  | None => inl "Canvas is required"%string
  | Some cnv =>
      if negb (webgl cnv) then inl "WebGL is not available"%string
      else
        let initialState := ANIMATION_COLLAPSE in
        let state := initialState in
        let framesCount :=
          match framesCount_option options with
          | Some f => if num_truthy f then f else Fin 120
          | None => Fin 120
          end in
        inr {| initialState := initialState; state := state;
               nextAnimationFrame := false; pendingTimeout := false;
               disposed := false; framesCount := framesCount;
               currentFrameNumber :=
                 if state_eqb state ANIMATION_COLLAPSE then Fin 0
                 else framesCount;
               particleLoaderSettings :=
                 {| LoadParticles.isCancelled := false;
                    LoadParticles.framesCount := framesCount |};
               progress :=
                 {| total := 0; current := 0; step := step_image |};
               minFrameSpan := NaN; maxFrameSpan := NaN;
               frameChangeRate := NaN |}
  end.

Definition notifyProgress (options : Options) (c : Chart) : list Effect :=
  if progress_callback options then [NotifyProgress (progress c)] else [].

Definition reportImageStatsProgress (options : Options)
    (processedPixels : Z) (c : Chart) : Chart * list Effect :=
  let c :=
    set_progress {| total := total (progress c); current := processedPixels;
                    step := step (progress c) |} c in
  (c, notifyProgress options c).

(** The first half of [updateProgressAndLoadParticles]: up to the call of
    [loadParticles]. *)
Definition updateProgressAndLoadParticles (options : Options)
    (image : LoadParticles.Image) (c : Chart) : Chart * list Effect :=
  let c :=
    set_progress {| total := LoadParticles.width image
                             * LoadParticles.height image;
                    current := current (progress c);
                    step := step_pixels |} c in
  (c, notifyProgress options c
        ++ [LoadParticles image (particleLoaderSettings c)]).

(** Its second half: the callback on the particles.  The texture is
    made here, whether the chart is disposed or not. *)
Definition particlesLoaded (options : Options) (c : Chart)
  : Chart * list Effect :=
  let c :=
    set_progress {| total := total (progress c);
                    current := current (progress c);
                    step := step_done |} c in
  (c, notifyProgress options c ++ [CreateTexture]).

(** The [catch] at the end of [startAnimationPipeline]: it is reached when
    [loadImage] rejects and when a later step of the chain throws. *)
Definition pipelineFailed (options : Options) (c : Chart)
  : Chart * list Effect :=
  let c :=
    set_progress {| total := total (progress c);
                    current := current (progress c);
                    step := step_error |} c in
  (c, notifyProgress options c).


(** The head of the chain of [setMaxPixels]: the same steps, ending in
    [initWebGLPrimitives] with [keepCurrentFrame], and no [catch]: a
    rejection stays unhandled. *)
Definition maxPixelsImageSettled (options : Options)
    (loaded : string + LoadParticles.Image) (c : Chart)
  : Chart * list Effect :=
  match loaded with
  | inr image => updateProgressAndLoadParticles options image c
  | inl _ => (c, [])
  end.

Definition setFramesCount (newCount : num) (c : Chart) : Chart :=
  let framesCount' := num_max newCount (Fin 1) in
  {| initialState := initialState c; state := state c;
     nextAnimationFrame := nextAnimationFrame c;
     pendingTimeout := pendingTimeout c; disposed := disposed c;
     framesCount := framesCount';
     currentFrameNumber := currentFrameNumber c;
     particleLoaderSettings := particleLoaderSettings c;
     progress := progress c; minFrameSpan := minFrameSpan c;
     maxFrameSpan := maxFrameSpan c;
     frameChangeRate :=
       num_div (num_sub (maxFrameSpan c) (minFrameSpan c)) framesCount' |}.

Definition setInitialFrameNumber (c : Chart) : Chart :=
  set_currentFrameNumber (minFrameSpan c) c.

(** The part of [initWebGLPrimitives] that touches the animation variables:
    the spans of the loaded particles are stored, the rate is recomputed and,
    unless the caller keeps the current frame, the frame number is reset.
    The buffer and texture uploads end in one draw. *)
Definition initWebGLPrimitives (particles : LoadParticles.Particles)
    (keepCurrentFrame : bool) (c : Chart) : Chart * list Effect :=
  if disposed c then (c, [])
  else
    let minSpan := LoadParticles.res_minFrameSpan particles in
    let maxSpan := LoadParticles.res_maxFrameSpan particles in
    let c1 :=
      {| initialState := initialState c; state := state c;
         nextAnimationFrame := nextAnimationFrame c;
         pendingTimeout := pendingTimeout c; disposed := disposed c;
         framesCount := framesCount c;
         currentFrameNumber := currentFrameNumber c;
         particleLoaderSettings := particleLoaderSettings c;
         progress := progress c; minFrameSpan := minSpan;
         maxFrameSpan := maxSpan;
         frameChangeRate :=
           num_div (num_sub maxSpan minSpan) (framesCount c) |} in
    let c2 := if keepCurrentFrame then c1 else setInitialFrameNumber c1 in
    (c2, [ReleaseResources;
          Draw (currentFrameNumber c2) (minFrameSpan c2) (maxFrameSpan c2)
               (state c2)]).

Definition drawCurrentFrame (c : Chart) : list Effect :=
  [Draw (currentFrameNumber c) (minFrameSpan c) (maxFrameSpan c) (state c)].

Definition startExpandCollapseCycle (c : Chart) : Chart * list Effect :=
  if disposed c then (c, [])
  else if nextAnimationFrame c || pendingTimeout c then (c, [])
  else (set_pendingTimeout true c, [SetTimeout 1000]).

Definition completeState (options : Options) (c : Chart)
  : Chart * list Effect :=
  let c := setInitialFrameNumber c in
  if state_eqb (state c) (initialState c) then
    (c, if cycleComplete options then [CycleComplete] else [])
  else
    (set_pendingTimeout true c, [SetTimeout 1000]).

Definition scheduleNextFrame (options : Options) (c : Chart)
  : Chart * list Effect :=
  match state c with
  | ANIMATION_COLLAPSE =>
      if num_lt (currentFrameNumber c) (maxFrameSpan c) then
        let c := set_currentFrameNumber
                   (num_add (currentFrameNumber c) (frameChangeRate c)) c in
        (set_nextAnimationFrame true c, [RequestAnimationFrame])
      else
        completeState options (set_state ANIMATION_EXPAND c)
  | ANIMATION_EXPAND =>
      if num_lt (currentFrameNumber c) (maxFrameSpan c) then
        let c := set_currentFrameNumber
                   (num_add (currentFrameNumber c) (frameChangeRate c)) c in
        let c :=
          if num_lt (currentFrameNumber c) (maxFrameSpan c) then
            set_currentFrameNumber
              (num_add (currentFrameNumber c) (frameChangeRate c)) c
          else c in
        (set_nextAnimationFrame true c, [RequestAnimationFrame])
      else
        completeState options (set_state ANIMATION_COLLAPSE c)
  end.

(** One tick: the callback of [requestAnimationFrame]. *)
Definition animate (options : Options) (c : Chart) : Chart * list Effect :=
  let c := set_nextAnimationFrame false c in
  let d := drawCurrentFrame c in
  let '(c, e) := scheduleNextFrame options c in
  (c, d ++ e).

(** The callback of the two pause timers. *)
Definition pauseElapsed (c : Chart) : Chart * list Effect :=
  (set_nextAnimationFrame true (set_pendingTimeout false c),
   [RequestAnimationFrame]).

(** [dispose] also sets [isCancelled] on the settings object, which a
    loader that is still running shares with the chart. *)
Definition dispose (c : Chart) : Chart * list Effect :=
  ({| initialState := initialState c; state := state c;
      nextAnimationFrame := false; pendingTimeout := false;
      disposed := true; framesCount := framesCount c;
      currentFrameNumber := currentFrameNumber c;
      particleLoaderSettings :=
        {| LoadParticles.isCancelled := true;
           LoadParticles.framesCount :=
             LoadParticles.framesCount (particleLoaderSettings c) |};
      progress := progress c; minFrameSpan := minFrameSpan c;
      maxFrameSpan := maxFrameSpan c;
      frameChangeRate := frameChangeRate c |},
   [CancelAnimationFrame; ClearTimeout; ReleaseResources]).

(** What can happen to a chart between two turns of the host's loop. *)
Inductive Event : Type :=
| Frame                   (* the requested animation frame arrives *)
| Timeout                 (* the pause timer fires *)
| RestartCycle.           (* the client calls [api.restartCycle] *)

Definition handle (options : Options) (e : Event) (c : Chart)
  : Chart * list Effect :=
  match e with
  | Frame => if nextAnimationFrame c then animate options c else (c, [])
  | Timeout => if pendingTimeout c then pauseElapsed c else (c, [])
  | RestartCycle => startExpandCollapseCycle c
  end.

Fixpoint run (options : Options) (es : list Event) (c : Chart)
  : Chart * list Effect :=
  match es with
  | [] => (c, [])
  | e :: es =>
      let '(c1, out1) := handle options e c in
      let '(c2, out2) := run options es c1 in
      (c2, out1 ++ out2)
  end.

End PixChart.

(** ** The two pipelines: a chart and its loader together *)

Module Pipeline.
Import PixChart.

Section Pipeline.

Variable rgbToHsl_l : option Z -> option Z -> option Z -> num.
Variable gaussian : nat -> Q.
Variable options : Options.

(** What a running loader does reaches its chart: [onProgress] is
    [reportImageStatsProgress], and the promise is followed by the rest of
    the chain: that of [startAnimationPipeline], or that of [setMaxPixels]
    ([again]), which keeps the current frame and does not start the
    cycle. *)
Definition loaderEffect (again : bool) (e : LoadParticles.Effect)
    (c : Chart) : Chart * list Effect :=
  match e with
  | LoadParticles.OnProgress processedPixels =>
      reportImageStatsProgress options processedPixels c
  | LoadParticles.SetTimeout0 => (c, [])
  | LoadParticles.Resolve particles =>
      let '(c, e1) := particlesLoaded options c in
      let '(c, e2) := initWebGLPrimitives particles again c in
      let '(c, e3) :=
        if again then (c, []) else startExpandCollapseCycle c in
      (c, e1 ++ e2 ++ e3)
  end.

Fixpoint loaderEffects (again : bool) (out : list LoadParticles.Effect)
    (c : Chart) : Chart * list Effect :=
  match out with
  | [] => (c, [])
  | e :: out =>
      let '(c1, e1) := loaderEffect again e c in
      let '(c2, e2) := loaderEffects again out c1 in
      (c2, e1 ++ e2)
  end.

(** A pipeline from the moment [loadImage] has given the image, with the
    timers of the loader firing after [budgets].  When [loadParticles]
    throws, the chain of [startAnimationPipeline] ends in its [catch];
    that of [setMaxPixels] has none. *)
Definition pipeline (again : bool) (image : LoadParticles.Image)
    (random0 : nat) (budgets : list nat) (c : Chart)
  : Chart * list Effect :=
  let '(c1, e1) := updateProgressAndLoadParticles options image c in
  match LoadParticles.loadParticles image
          (Some (particleLoaderSettings c1)) random0 with
  | inl _ =>
      if again then (c1, e1)
      else let '(c2, e2) := pipelineFailed options c1 in (c2, e1 ++ e2)
  | inr (L, out0) =>
      let out :=
        snd (LoadParticles.run rgbToHsl_l gaussian
               (LoadParticles.TimerFires <$> budgets) L) in
      let '(c2, e2) := loaderEffects again (out0 ++ out) c1 in
      (c2, e1 ++ e2)
  end.

Definition startAnimationPipeline := pipeline false.

(** [setMaxPixels(maxPixels)], from the same moment. *)
Definition setMaxPixels := pipeline true.

End Pipeline.

End Pipeline.

(** ** The scene: [src/scene.js] *)

Module Scene.

Definition DEFAULT_ANIMATION_DURATION : num := Fin 2.
Definition DEFAULT_BUCKET_COUNT : num := Fin 510.
Definition PAUSE_BETWEEN_CYCLES : Z := 1000.

(** A value of the query string. *)
Inductive QsValue : Type :=
| QsNumber (x : num)
| QsString (x : string).

(** What the timer whose id is in [pendingTimeout] will run; [task_done]
    when that timer has run already and left its id behind. *)
Inductive Task : Type :=
| task_processNextInQueue
| task_createPixChart (imageLink : option string)
| task_done.

(** The chart the scene holds: the link and the options it was made with. *)
Record ChartHandle : Type := {
  imageLink : option string;
  chartOptions : PixChart.Options
}.

(** The calls the scene makes on its chart and on the host. *)
Inductive Call : Type :=
| chart_setFramesCount (framesCount : num)
| chart_setMaxPixels (maxPixels : num)
| chart_restartCycle
| chart_dispose
| pixChart_new (imageLink : option string) (options : PixChart.Options)
| setTimeout (task : Task) (ms : Z)
| clearTimeout
| throwTypeError (what : string)       (* an uncaught TypeError *)
| progressText (text : string)         (* progressElement.innerText = .. *)
| progressStyleText (text : string)    (* progressElement.style.innerText *)
| progressOpacity (opacity : string).  (* progressElement.style.opacity *)

(** The [state] object, the variables of [initScene] and the query
    string [qs]. *)
Record State : Type := {
  canvas : PixChart.Canvas;
  image : option string;
  duration : num;
  bucketCount : num;
  maxPixels : num;
  currentColorGroupBy : string;
  initialImageState : string;
  paused : bool;
  isFirstRun : bool;
  currentPixChart : option ChartHandle;
  queue : list (option string);
  lastIndex : Z;
  pendingTimeout : option Task;
  qs : gmap string QsValue
}.

Definition set_lastIndex (i : Z) (s : State) : State :=
  {| canvas := canvas s; image := image s; duration := duration s;
     bucketCount := bucketCount s; maxPixels := maxPixels s;
     currentColorGroupBy := currentColorGroupBy s;
     initialImageState := initialImageState s; paused := paused s;
     isFirstRun := isFirstRun s; currentPixChart := currentPixChart s;
     queue := queue s; lastIndex := i; pendingTimeout := pendingTimeout s;
     qs := qs s |}.

Definition set_pendingTimeout (t : option Task) (s : State) : State :=
  {| canvas := canvas s; image := image s; duration := duration s;
     bucketCount := bucketCount s; maxPixels := maxPixels s;
     currentColorGroupBy := currentColorGroupBy s;
     initialImageState := initialImageState s; paused := paused s;
     isFirstRun := isFirstRun s; currentPixChart := currentPixChart s;
     queue := queue s; lastIndex := lastIndex s; pendingTimeout := t;
     qs := qs s |}.

Definition set_currentPixChart (h : option ChartHandle) (s : State) : State :=
  {| canvas := canvas s; image := image s; duration := duration s;
     bucketCount := bucketCount s; maxPixels := maxPixels s;
     currentColorGroupBy := currentColorGroupBy s;
     initialImageState := initialImageState s; paused := paused s;
     isFirstRun := isFirstRun s; currentPixChart := h; queue := queue s;
     lastIndex := lastIndex s; pendingTimeout := pendingTimeout s;
     qs := qs s |}.

Definition toFrames (seconds : num) : num := num_mul seconds (Fin 60).

Definition isNaN (x : num) : bool :=
  match x with NaN => true | _ => false end.

Definition getSafeInitialState (plainInput : option string) : string :=
  match plainInput with
  | Some "expanded"%string => "expanded"
  | _ => "collapsed"
  end.

(** The options [createPixChart] builds from the state. *)
Definition pixChartOptions (s : State) : PixChart.Options :=
  {| PixChart.canvas := Some (canvas s);
     PixChart.colorGroupBy := Some (currentColorGroupBy s);
     PixChart.scaleImage := Some true;
     PixChart.bucketCount := Some (bucketCount s);
     PixChart.collapsed :=
       Some (bool_decide (initialImageState s = "collapsed"%string));
     PixChart.maxPixels := Some (maxPixels s);
     PixChart.framesCount_option := Some (toFrames (duration s));
     PixChart.cycleComplete := false;
     PixChart.progress_callback := false |}.

(** [createPixChart(imageLink)].  The canvas of the scene is one with
    WebGL, so that [pixChart] returns.  The object it returns has no
    method [on]: the first of the three calls of it throws, after the
    chart is assigned. *)
Definition createPixChart (imageLink : option string) (s : State)
  : State * list Call :=
  let options := pixChartOptions s in
  (set_currentPixChart
     (Some {| imageLink := imageLink; chartOptions := options |}) s,
   [progressText "Loading image..."; progressOpacity "1";
    pixChart_new imageLink options;
    throwTypeError "currentPixChart.on is not a function"]).

Definition setImage (imageLink : option string) (forceDispose : bool)
    (s : State) : State * list Call :=
  match currentPixChart s with
  | Some chart =>
      if bool_decide (imageLink = Scene.imageLink chart) && negb forceDispose
      then (s, [chart_restartCycle])
      else
        let cleared :=
          match pendingTimeout s with
          | Some _ => [clearTimeout]
          | None => []
          end in
        (set_pendingTimeout (Some (task_createPixChart imageLink)) s,
         cleared ++ [chart_dispose;
                     setTimeout (task_createPixChart imageLink) 250])
  | None => createPixChart imageLink s
  end.

Definition processNextInQueue (forceDispose : bool) (s : State)
  : State * list Call :=
  let cleared :=
    match pendingTimeout s with
    | Some _ => [clearTimeout]
    | None => []
    end in
  let s := set_pendingTimeout None s in
  let img := mjoin (zlookup (queue s) (lastIndex s)) in
  let lastIndex' := lastIndex s + 1 in
  let s :=
    set_lastIndex
      (if lastIndex' >=? Z.of_nat (length (queue s)) then 0 else lastIndex')
      s in
  let '(s, calls) := setImage img forceDispose s in
  (s, cleared ++ calls).

Definition restartCurrentAnimation (s : State) : State * list Call :=
  match queue s with
  | [] => (s, [])
  | _ =>
      let lastIndex' := lastIndex s - 1 in
      let s :=
        set_lastIndex
          (if lastIndex' <? 0 then Z.of_nat (length (queue s)) - 1
           else lastIndex')
          s in
      processNextInQueue true s
  end.

Section Host.

(** [Number.parseInt(x, 10)] and [Number.parseFloat(x)] of the host. *)
Variable parseInt10 : string -> num.
Variable parseFloat : string -> num.

Definition getSafeBucketCount (plainInput : string) : num :=
  let parsedValue := parseInt10 plainInput in
  if isNaN parsedValue || num_lt parsedValue (Fin 1)
  then DEFAULT_BUCKET_COUNT
  else parsedValue.

Definition setAnimationDuration (newCount : string) (s : State)
  : State * list Call :=
  let seconds := parseFloat newCount in
  if isNaN seconds then (s, [])
  else
    let s :=
      {| canvas := canvas s; image := image s; duration := seconds;
         bucketCount := bucketCount s; maxPixels := maxPixels s;
         currentColorGroupBy := currentColorGroupBy s;
         initialImageState := initialImageState s; paused := paused s;
         isFirstRun := isFirstRun s; currentPixChart := currentPixChart s;
         queue := queue s; lastIndex := lastIndex s;
         pendingTimeout := pendingTimeout s;
         qs := <["d"%string := QsNumber seconds]> (qs s) |} in
    (s,
     match currentPixChart s with
     | Some _ => [chart_setFramesCount (toFrames seconds)]
     | None => []
     end).

Definition setBucketCount (newCount : string) (s : State)
  : State * list Call :=
  let bucketCount := parseInt10 newCount in
  if isNaN bucketCount || num_lt bucketCount (Fin 1) then (s, [])
  else
    let s :=
      {| canvas := canvas s; image := image s; duration := duration s;
         bucketCount := bucketCount; maxPixels := maxPixels s;
         currentColorGroupBy := currentColorGroupBy s;
         initialImageState := initialImageState s; paused := paused s;
         isFirstRun := isFirstRun s; currentPixChart := currentPixChart s;
         queue := queue s; lastIndex := lastIndex s;
         pendingTimeout := pendingTimeout s;
         qs := <["bc"%string := QsNumber bucketCount]> (qs s) |} in
    match currentPixChart s with
    | Some _ => restartCurrentAnimation s
    | None => (s, [])
    end.

Definition setMaxPixels (newCount : string) (s : State)
  : State * list Call :=
  let maxPixels := parseInt10 newCount in
  if isNaN maxPixels then (s, [])
  else
    let s :=
      {| canvas := canvas s; image := image s; duration := duration s;
         bucketCount := bucketCount s; maxPixels := maxPixels;
         currentColorGroupBy := currentColorGroupBy s;
         initialImageState := initialImageState s; paused := paused s;
         isFirstRun := isFirstRun s; currentPixChart := currentPixChart s;
         queue := queue s; lastIndex := lastIndex s;
         pendingTimeout := pendingTimeout s; qs := qs s |} in
    (s,
     match currentPixChart s with
     | Some _ => [progressStyleText "Updating particles...";
                  progressOpacity "1"; chart_setMaxPixels maxPixels]
     | None => []
     end).

End Host.

(** A reading of decimal integers, as an instance of the host's
    [parseInt(x, 10)] on plain digit strings: an optional minus sign, then
    digits up to the first other character, the integer they write being
    rounded to a double; NaN without a digit. *)
Definition digit (a : Ascii.ascii) : option Z :=
  let k := Z.of_nat (Ascii.nat_of_ascii a) in
  if (48 <=? k) && (k <=? 57) then Some (k - 48) else None.

Fixpoint digits (acc : option Z) (x : string) : option Z :=
  match x with
  | EmptyString => acc
  | String a rest =>
      match digit a with
      | Some d => digits (Some (10 * default 0 acc + d)) rest
      | None => acc
      end
  end.

Definition decimal (x : string) : num :=
  match x with
  | String "-"%char rest =>
      match digits None rest with
      | Some z => binary64 (inject_Z (- z))
      | None => NaN
      end
  | _ =>
      match digits None x with
      | Some z => binary64 (inject_Z z)
      | None => NaN
      end
  end.

End Scene.

(** * Properties *)

(** ** Comparisons of numbers *)

Lemma Qltb_lt (x y : Q) : Qltb x y = true <-> (x < y)%Q.
Proof.
  unfold Qltb. rewrite Qlt_alt.
  destruct (x ?= y)%Q; split; intros H; congruence.
Qed.

Lemma Qltb_ge (x y : Q) : Qltb x y = false <-> (y <= x)%Q.
Proof.
  unfold Qltb. destruct (x ?= y)%Q eqn:E.
  - apply Qeq_alt in E. split; [intros _; lra | reflexivity].
  - apply Qlt_alt in E. split; [discriminate | intros H; lra].
  - apply Qgt_alt in E. split; [intros _; lra | reflexivity].
Qed.

(** ** Rounding *)

Module Rounding.

(** *** The nearest integer *)

Lemma rne_floor (q : Q) : Qfloor q <= rne q <= Qfloor q + 1.
Proof.
  unfold rne. destruct (Qcompare _ _); [destruct (Z.even _)| |]; lia.
Qed.

Lemma rne_Z (z : Z) : rne (inject_Z z) = z.
Proof.
  unfold rne. rewrite Qfloor_Z.
  assert (E : (inject_Z z - inject_Z z ?= 1 # 2)%Q = Lt).
  { apply Qlt_alt. ring_simplify (inject_Z z - inject_Z z)%Q. reflexivity. }
  rewrite E. reflexivity.
Qed.

Lemma rne_mono (q1 q2 : Q) : (q1 <= q2)%Q -> rne q1 <= rne q2.
Proof.
  intros H. pose proof (Qfloor_resp_le _ _ H) as Hf.
  pose proof (rne_floor q1) as B1. pose proof (rne_floor q2) as B2.
  destruct (Z.eq_dec (Qfloor q1) (Qfloor q2)) as [E|E]; [|lia].
  unfold rne in *. rewrite E in *.
  destruct (Qcompare_spec (q1 - inject_Z (Qfloor q2)) (1 # 2)) as [C1|C1|C1];
    destruct (Qcompare_spec (q2 - inject_Z (Qfloor q2)) (1 # 2)) as [C2|C2|C2];
    try destruct (Z.even (Qfloor q2)); try lia; exfalso; lra.
Qed.

Lemma rne_le_Z (q : Q) (z : Z) : (q <= inject_Z z)%Q -> rne q <= z.
Proof. intros H. rewrite <- (rne_Z z). apply rne_mono, H. Qed.

Lemma rne_ge_Z (q : Q) (z : Z) : (inject_Z z <= q)%Q -> z <= rne q.
Proof. intros H. rewrite <- (rne_Z z). apply rne_mono, H. Qed.

Lemma rne_compat (q1 q2 : Q) : (q1 == q2)%Q -> rne q1 = rne q2.
Proof.
  intros H. apply Z.le_antisymm; apply rne_mono; rewrite H; apply Qle_refl.
Qed.

(** *** Powers of two and the binary logarithm *)

Lemma pow2_pos e : (0 < pow2 e)%Q.
Proof. apply Qpower_0_lt. reflexivity. Qed.

Lemma pow2_plus a b : (pow2 (a + b) == pow2 a * pow2 b)%Q.
Proof. apply Qpower_plus. discriminate. Qed.

Lemma pow2_le a b : a <= b -> (pow2 a <= pow2 b)%Q.
Proof. intros H. apply Qpower_le_compat_l; [exact H|]. discriminate. Qed.

Lemma pow2_lt a b : a < b -> (pow2 a < pow2 b)%Q.
Proof. intros H. apply Qpower_lt_compat_l; [exact H|]. reflexivity. Qed.

Lemma pow2_Z e : 0 <= e -> (pow2 e == inject_Z (2 ^ e))%Q.
Proof. intros H. unfold pow2. rewrite Zpower_Qpower by exact H. reflexivity. Qed.

Lemma pow2_lt_inv a b : (pow2 a < pow2 b)%Q -> a < b.
Proof.
  intros H. destruct (Z.lt_ge_cases a b) as [L|L]; [exact L|].
  apply pow2_le in L. lra.
Qed.

Lemma ilog2_spec (q : Q) :
  (0 < q)%Q -> (pow2 (ilog2 q) <= q)%Q /\ (q < pow2 (ilog2 q + 1))%Q.
Proof.
  intros Hq. destruct q as [a b]. unfold ilog2. cbn [Qnum Qden].
  assert (Ha : 0 < a) by (unfold Qlt in Hq; simpl in Hq; lia).
  destruct (Z.log2_spec a Ha) as [A1 A2].
  destruct (Z.log2_spec (Zpos b) ltac:(lia)) as [B1 B2].
  pose proof (Z.log2_nonneg a) as La. pose proof (Z.log2_nonneg (Zpos b)) as Lb.
  set (la := Z.log2 a) in *. set (lb := Z.log2 (Zpos b)) in *.
  assert (Eq : (a # b == inject_Z a / inject_Z (Zpos b))%Q)
    by (rewrite Qmake_Qdiv; reflexivity).
  assert (Hb : (0 < inject_Z (Zpos b))%Q) by reflexivity.
  assert (QA1 : (pow2 la <= inject_Z a)%Q)
    by (rewrite pow2_Z by lia; rewrite <- Zle_Qle; exact A1).
  assert (QA2 : (inject_Z a < pow2 (la + 1))%Q).
  { rewrite pow2_Z by lia. rewrite <- Zlt_Qlt.
    replace (la + 1) with (Z.succ la) by lia. exact A2. }
  assert (QB1 : (pow2 lb <= inject_Z (Zpos b))%Q)
    by (rewrite pow2_Z by lia; rewrite <- Zle_Qle; exact B1).
  assert (QB2 : (inject_Z (Zpos b) < pow2 (lb + 1))%Q).
  { rewrite pow2_Z by lia. rewrite <- Zlt_Qlt.
    replace (lb + 1) with (Z.succ lb) by lia. exact B2. }
  assert (Hmul : ((a # b) * inject_Z (Zpos b) == inject_Z a)%Q).
  { rewrite Eq. field. discriminate. }
  pose proof (pow2_pos lb) as Plb. pose proof (pow2_pos (lb + 1)) as Plb1.
  (* upper bound: q < 2^(la - lb + 1) *)
  assert (U : (a # b < pow2 (la - lb + 1))%Q).
  { apply Qmult_lt_r with (z := pow2 lb); [exact Plb|].
    rewrite <- pow2_plus. replace (la - lb + 1 + lb) with (la + 1) by lia.
    apply Qle_lt_trans with (y := ((a # b) * inject_Z (Zpos b))%Q).
    - apply Qmult_le_l; [exact Hq|exact QB1].
    - rewrite Hmul. exact QA2. }
  (* lower bound: 2^(la - lb - 1) <= q *)
  assert (Lw : (pow2 (la - lb - 1) <= a # b)%Q).
  { apply Qmult_le_r with (z := pow2 (lb + 1)); [exact Plb1|].
    rewrite <- pow2_plus. replace (la - lb - 1 + (lb + 1)) with la by lia.
    apply Qle_trans with (y := inject_Z a); [exact QA1|].
    rewrite <- Hmul. apply Qmult_le_l; [exact Hq|]. apply Qlt_le_weak, QB2. }
  destruct (Qle_bool (pow2 (la - lb)) (a # b)) eqn:E.
  - apply Qle_bool_iff in E. split; [exact E|exact U].
  - split; [exact Lw|].
    replace (la - lb - 1 + 1) with (la - lb) by lia.
    apply Qnot_le_lt. intros C. apply Qle_bool_iff in C. congruence.
Qed.

Lemma ilog2_unique (q : Q) (k : Z) :
  (pow2 k <= q)%Q -> (q < pow2 (k + 1))%Q -> ilog2 q = k.
Proof.
  intros H1 H2.
  assert (Hq : (0 < q)%Q) by (pose proof (pow2_pos k); lra).
  destruct (ilog2_spec q Hq) as [S1 S2].
  assert (ilog2 q < k + 1) by (apply pow2_lt_inv; lra).
  assert (k < ilog2 q + 1) by (apply pow2_lt_inv; lra).
  lia.
Qed.

Lemma ilog2_mono (q1 q2 : Q) :
  (0 < q1)%Q -> (q1 <= q2)%Q -> ilog2 q1 <= ilog2 q2.
Proof.
  intros H0 H.
  destruct (ilog2_spec q1 H0) as [A1 A2].
  destruct (ilog2_spec q2 ltac:(lra)) as [B1 B2].
  assert (ilog2 q1 < ilog2 q2 + 1) by (apply pow2_lt_inv; lra).
  lia.
Qed.

(** *** Rounding to a format *)

Section Format.

Variables prec emin emax : Z.
Hypothesis prec_pos : 1 <= prec.

Lemma ilog2_compat (q1 q2 : Q) :
  (0 < q1)%Q -> (q1 == q2)%Q -> ilog2 q1 = ilog2 q2.
Proof.
  intros H0 H. destruct (ilog2_spec q1 H0) as [A1 A2].
  symmetry. apply ilog2_unique; rewrite <- H; assumption.
Qed.

Lemma nearest_compat (q1 q2 : Q) :
  (0 < q1)%Q -> (q1 == q2)%Q -> ((nearest prec emin) q1 == (nearest prec emin) q2)%Q.
Proof.
  intros H0 H. unfold nearest, ulp_exp.
  rewrite (ilog2_compat q1 q2 H0 H).
  rewrite (rne_compat (q1 / _) (q2 / pow2 (Z.max (ilog2 q2 + 1 - prec) emin))).
  - reflexivity.
  - rewrite H. reflexivity.
Qed.

Lemma Qdiv_pow2_le (q r : Q) (e : Z) :
  (q <= r * pow2 e)%Q -> (q / pow2 e <= r)%Q.
Proof.
  intros H. apply Qle_shift_div_r; [apply pow2_pos|exact H].
Qed.

Lemma Qdiv_pow2_ge (q r : Q) (e : Z) :
  (r * pow2 e <= q)%Q -> (r <= q / pow2 e)%Q.
Proof.
  intros H. apply Qle_shift_div_l; [apply pow2_pos|exact H].
Qed.

Lemma nearest_nonneg (q : Q) : (0 < q)%Q -> (0 <= (nearest prec emin) q)%Q.
Proof.
  intros H. unfold nearest.
  apply Qmult_le_0_compat; [|apply Qlt_le_weak, pow2_pos].
  change 0%Q with (inject_Z 0). rewrite <- Zle_Qle.
  apply rne_ge_Z. apply Qdiv_pow2_ge.
  change (inject_Z 0) with 0%Q. rewrite Qmult_0_l. apply Qlt_le_weak, H.
Qed.

(** The scaled significand is at most [2 ^ prec], and at least
    [2 ^ (prec - 1)] above the smallest exponent. *)
Lemma significand_le (q : Q) :
  (0 < q)%Q -> rne (q / pow2 ((ulp_exp prec emin) q)) <= 2 ^ prec.
Proof.
  intros H. apply rne_le_Z. apply Qdiv_pow2_le.
  rewrite <- pow2_Z by lia. rewrite <- pow2_plus.
  destruct (ilog2_spec q H) as [_ S2].
  apply Qlt_le_weak. eapply Qlt_le_trans; [exact S2|].
  apply pow2_le. unfold ulp_exp. lia.
Qed.

Lemma significand_ge (q : Q) :
  (0 < q)%Q -> emin < (ulp_exp prec emin) q -> 2 ^ (prec - 1) <= rne (q / pow2 ((ulp_exp prec emin) q)).
Proof.
  intros H He. apply rne_ge_Z. apply Qdiv_pow2_ge.
  rewrite <- pow2_Z by lia. rewrite <- pow2_plus.
  destruct (ilog2_spec q H) as [S1 _].
  eapply Qle_trans; [|exact S1].
  apply pow2_le. unfold ulp_exp in *. lia.
Qed.

Lemma nearest_mono (q1 q2 : Q) :
  (0 < q1)%Q -> (q1 <= q2)%Q -> ((nearest prec emin) q1 <= (nearest prec emin) q2)%Q.
Proof.
  intros H0 H. assert (H2 : (0 < q2)%Q) by lra.
  pose proof (ilog2_mono q1 q2 H0 H) as Hl.
  assert (He : (ulp_exp prec emin) q1 <= (ulp_exp prec emin) q2) by (unfold ulp_exp; lia).
  destruct (Z.eq_dec ((ulp_exp prec emin) q1) ((ulp_exp prec emin) q2)) as [E|E].
  - unfold nearest. rewrite E.
    apply Qmult_le_compat_r; [|apply Qlt_le_weak, pow2_pos].
    rewrite <- Zle_Qle. apply rne_mono.
    apply Qmult_le_compat_r; [exact H|].
    apply Qlt_le_weak, Qinv_lt_0_compat, pow2_pos.
  - assert (E2 : (ulp_exp prec emin) q2 = ilog2 q2 + 1 - prec) by (unfold ulp_exp in *; lia).
    assert (Hl' : ilog2 q1 + 1 <= ilog2 q2) by (unfold ulp_exp in *; lia).
    set (B := pow2 (ilog2 q2)).
    apply Qle_trans with (y := B).
    + (* (nearest prec emin) q1 <= B *)
      unfold nearest.
      assert (Hd : 0 <= ilog2 q2 - (ulp_exp prec emin) q1) by lia.
      assert (EB : (B == inject_Z (2 ^ (ilog2 q2 - (ulp_exp prec emin) q1))
                        * pow2 ((ulp_exp prec emin) q1))%Q).
      { unfold B. rewrite <- pow2_Z by exact Hd. rewrite <- pow2_plus.
        replace (ilog2 q2 - (ulp_exp prec emin) q1 + (ulp_exp prec emin) q1) with (ilog2 q2) by lia.
        reflexivity. }
      rewrite EB.
      apply Qmult_le_compat_r; [|apply Qlt_le_weak, pow2_pos].
      rewrite <- Zle_Qle. apply rne_le_Z. apply Qdiv_pow2_le.
      rewrite <- EB. unfold B.
      destruct (ilog2_spec q1 H0) as [_ S2].
      apply Qlt_le_weak. eapply Qlt_le_trans; [exact S2|].
      apply pow2_le. exact Hl'.
    + (* B <= (nearest prec emin) q2 *)
      unfold nearest.
      assert (EB : (B == inject_Z (2 ^ (prec - 1)) * pow2 ((ulp_exp prec emin) q2))%Q).
      { unfold B. rewrite <- pow2_Z by lia. rewrite <- pow2_plus.
        replace (prec - 1 + (ulp_exp prec emin) q2) with (ilog2 q2) by lia.
        reflexivity. }
      rewrite EB.
      apply Qmult_le_compat_r; [|apply Qlt_le_weak, pow2_pos].
      rewrite <- Zle_Qle. apply significand_ge; [exact H2|].
      unfold ulp_exp in *. lia.
Qed.

(** A positive multiple of the unit in the last place of its own binade is
    left as it is. *)
Lemma nearest_exact (q : Q) (m : Z) :
  (0 < q)%Q -> (q == inject_Z m * pow2 ((ulp_exp prec emin) q))%Q -> ((nearest prec emin) q == q)%Q.
Proof.
  intros H0 H. unfold nearest.
  rewrite (rne_compat _ (inject_Z m)).
  - rewrite rne_Z. symmetry. exact H.
  - rewrite H at 1. field. apply Qnot_eq_sym, Qlt_not_eq, pow2_pos.
Qed.

Lemma ilog2_scaled (m e : Z) :
  0 < m -> ilog2 (inject_Z m * pow2 e) = Z.log2 m + e.
Proof.
  intros Hm. destruct (Z.log2_spec m Hm) as [A1 A2].
  pose proof (Z.log2_nonneg m) as L.
  apply ilog2_unique.
  - rewrite pow2_plus.
    apply Qmult_le_compat_r; [|apply Qlt_le_weak, pow2_pos].
    rewrite pow2_Z by lia. rewrite <- Zle_Qle. exact A1.
  - replace (Z.log2 m + e + 1) with (Z.log2 m + 1 + e) by lia.
    rewrite pow2_plus.
    apply Qmult_lt_compat_r; [apply pow2_pos|].
    rewrite pow2_Z by lia. rewrite <- Zlt_Qlt.
    replace (Z.log2 m + 1) with (Z.succ (Z.log2 m)) by lia. exact A2.
Qed.

Lemma nearest_idem (q : Q) :
  (0 < q)%Q -> (0 < (nearest prec emin) q)%Q -> ((nearest prec emin) ((nearest prec emin) q) == (nearest prec emin) q)%Q.
Proof.
  intros H0 Hr.
  pose proof (significand_le q H0) as Hle.
  set (e := (ulp_exp prec emin) q) in *. set (m := rne (q / pow2 e)) in *.
  assert (Er : ((nearest prec emin) q == inject_Z m * pow2 e)%Q) by reflexivity.
  assert (Hm : 0 < m).
  { destruct (Z.lt_ge_cases 0 m) as [L|L]; [exact L|]. exfalso.
    assert ((inject_Z m <= 0)%Q) by (change 0%Q with (inject_Z 0);
                                     rewrite <- Zle_Qle; exact L).
    pose proof (pow2_pos e). rewrite Er in Hr. nra. }
  assert (El : ilog2 ((nearest prec emin) q) = Z.log2 m + e).
  { rewrite (ilog2_compat _ _ Hr Er). apply ilog2_scaled. exact Hm. }
  assert (He : emin <= e) by (unfold e, ulp_exp; lia).
  destruct (Z.eq_dec m (2 ^ prec)) as [Emax|Emax].
  - (* rounded up to the next power of two *)
    assert (Elog : Z.log2 m = prec) by (rewrite Emax; apply Z.log2_pow2; lia).
    apply (nearest_exact _ (2 ^ (prec - 1)) Hr).
    unfold ulp_exp. rewrite El, Elog.
    replace (Z.max (prec + e + 1 - prec) emin) with (1 + e) by lia.
    rewrite Er, Emax, <- !pow2_Z by lia. rewrite <- !pow2_plus.
    replace (prec - 1 + (1 + e)) with (prec + e) by lia. reflexivity.
  - assert (Hlog : Z.log2 m < prec).
    { apply Z.log2_lt_pow2; [exact Hm|]. lia. }
    apply (nearest_exact _ m Hr).
    assert (Ee : (ulp_exp prec emin) ((nearest prec emin) q) = e).
    { unfold ulp_exp at 1. rewrite El.
      destruct (Z.eq_dec e emin) as [->|Hne]; [lia|].
      assert (Hge : 2 ^ (prec - 1) <= m)
        by (apply significand_ge; [exact H0|fold e; lia]).
      assert (prec - 1 <= Z.log2 m).
      { apply Z.log2_le_pow2; [exact Hm|exact Hge]. }
      lia. }
    rewrite Ee. exact Er.
Qed.


Lemma num_leb_refl (a : num) : a <> NaN -> num_leb a a = true.
Proof.
  destruct a; simpl; try congruence; intros _.
  apply Qle_bool_iff, Qle_refl.
Qed.

Lemma num_leb_trans (a b c : num) :
  num_leb a b = true -> num_leb b c = true -> num_leb a c = true.
Proof.
  destruct a, b, c; simpl; try congruence.
  rewrite !Qle_bool_iff. apply Qle_trans.
Qed.

Lemma num_leb_Fin (x y : Q) : num_leb (Fin x) (Fin y) = true <-> (x <= y)%Q.
Proof. apply Qle_bool_iff. Qed.

Lemma num_leb_neg (a b : num) :
  num_leb a b = true -> num_leb (num_neg b) (num_neg a) = true.
Proof.
  destruct a, b; simpl; try congruence.
  rewrite !Qle_bool_iff. intros H. lra.
Qed.

Lemma Qred_Z (z : Z) : Qred (inject_Z z) = inject_Z z.
Proof.
  unfold Qred, inject_Z. cbn [Qnum Qden].
  pose proof (Z.ggcd_gcd z 1) as G. pose proof (Z.ggcd_correct_divisors z 1) as D.
  destruct (Z.ggcd z 1) as [g [a b]]. cbn [fst snd] in *.
  rewrite Z.gcd_1_r in G. subst g. destruct D as [-> Hb].
  assert (b = 1) as -> by lia. f_equal. lia.
Qed.

Lemma overflow_mono (r1 r2 : Q) :
  (r1 <= r2)%Q -> num_leb ((overflow emax) r1) ((overflow emax) r2) = true.
Proof.
  intros H. unfold overflow.
  destruct (Qle_bool (pow2 emax) r1) eqn:E1;
    destruct (Qle_bool (pow2 emax) r2) eqn:E2; simpl; try reflexivity.
  - apply Qle_bool_iff in E1.
    assert (C : Qle_bool (pow2 emax) r2 = true) by (apply Qle_bool_iff; lra).
    congruence.
  - apply Qle_bool_iff. rewrite !Qred_correct. exact H.
Qed.

Lemma overflow_nonneg (r : Q) :
  (0 <= r)%Q -> num_leb (Fin 0) ((overflow emax) r) = true.
Proof.
  intros H. unfold overflow. destruct (Qle_bool _ _); [reflexivity|].
  apply Qle_bool_iff. rewrite Qred_correct. exact H.
Qed.

Lemma overflow_compat (r1 r2 : Q) :
  (r1 == r2)%Q -> (overflow emax) r1 = (overflow emax) r2.
Proof.
  intros H. unfold overflow.
  assert (E : Qle_bool (pow2 emax) r1 = Qle_bool (pow2 emax) r2).
  { destruct (Qle_bool (pow2 emax) r1) eqn:E1,
             (Qle_bool (pow2 emax) r2) eqn:E2; try reflexivity; exfalso.
    - apply Qle_bool_iff in E1. rewrite H in E1.
      apply Qle_bool_iff in E1. congruence.
    - apply Qle_bool_iff in E2. rewrite <- H in E2.
      apply Qle_bool_iff in E2. congruence. }
  rewrite E. destruct (Qle_bool (pow2 emax) r2); [reflexivity|].
  f_equal. apply Qred_complete, H.
Qed.

Lemma round_to_pos (q : Q) :
  (0 < q)%Q -> (round_to prec emin emax) q = (overflow emax) ((nearest prec emin) q).
Proof.
  intros H. unfold round_to.
  destruct (Qcompare_spec q 0) as [C|C|C]; try reflexivity; exfalso; lra.
Qed.

Lemma round_to_neg (q : Q) :
  (q < 0)%Q -> (round_to prec emin emax) q = num_neg ((overflow emax) ((nearest prec emin) (- q))).
Proof.
  intros H. unfold round_to.
  destruct (Qcompare_spec q 0) as [C|C|C]; try reflexivity; exfalso; lra.
Qed.

Lemma round_to_zero (q : Q) : (q == 0)%Q -> (round_to prec emin emax) q = Fin 0.
Proof.
  intros H. unfold round_to.
  destruct (Qcompare_spec q 0) as [C|C|C]; try reflexivity; exfalso; lra.
Qed.

Lemma round_to_compat (q1 q2 : Q) :
  (q1 == q2)%Q -> (round_to prec emin emax) q1 = (round_to prec emin emax) q2.
Proof.
  intros H.
  destruct (Qlt_le_dec 0 q1) as [P|P].
  - rewrite !round_to_pos by lra. apply overflow_compat.
    apply nearest_compat; assumption.
  - destruct (Qlt_le_dec q1 0) as [N|N].
    + rewrite !round_to_neg by lra. f_equal. apply overflow_compat.
      apply nearest_compat; lra.
    + rewrite !round_to_zero by lra. reflexivity.
Qed.

Lemma round_to_opp (q : Q) : (round_to prec emin emax) (- q) = num_neg ((round_to prec emin emax) q).
Proof.
  destruct (Qlt_le_dec 0 q) as [P|P].
  - rewrite (round_to_neg (- q)) by lra. rewrite (round_to_pos q P).
    f_equal. apply overflow_compat. apply nearest_compat; lra.
  - destruct (Qlt_le_dec q 0) as [N|N].
    + rewrite (round_to_pos (- q)) by lra. rewrite (round_to_neg q N).
      destruct ((overflow emax) ((nearest prec emin) (- q))); reflexivity || (simpl; f_equal).
      destruct q0 as [a b]. unfold Qopp. simpl. rewrite Z.opp_involutive.
      reflexivity.
    + rewrite !round_to_zero by lra. reflexivity.
Qed.

Lemma round_to_nonneg (q : Q) :
  (0 <= q)%Q -> num_leb (Fin 0) ((round_to prec emin emax) q) = true.
Proof.
  intros H. destruct (Qlt_le_dec 0 q) as [P|P].
  - rewrite round_to_pos by exact P. apply overflow_nonneg, nearest_nonneg, P.
  - rewrite round_to_zero by lra. reflexivity.
Qed.

Lemma round_to_nonpos (q : Q) :
  (q <= 0)%Q -> num_leb ((round_to prec emin emax) q) (Fin 0) = true.
Proof.
  intros H. replace ((round_to prec emin emax) q) with (num_neg ((round_to prec emin emax) (- q))).
  - change (Fin 0) with (num_neg (Fin 0)). apply num_leb_neg.
    apply round_to_nonneg. lra.
  - rewrite <- round_to_opp. apply round_to_compat. ring.
Qed.

(** Rounding is monotone. *)
Lemma round_to_mono (q1 q2 : Q) :
  (q1 <= q2)%Q -> num_leb ((round_to prec emin emax) q1) ((round_to prec emin emax) q2) = true.
Proof.
  intros H.
  destruct (Qlt_le_dec 0 q1) as [P1|P1].
  - rewrite !round_to_pos by lra. apply overflow_mono, nearest_mono; assumption.
  - destruct (Qlt_le_dec 0 q2) as [P2|P2].
    + apply num_leb_trans with (b := Fin 0);
        [apply round_to_nonpos, P1|apply round_to_nonneg; lra].
    + destruct (Qlt_le_dec q2 0) as [N2|N2].
      * rewrite !round_to_neg by lra. apply num_leb_neg.
        apply overflow_mono, nearest_mono; lra.
      * rewrite (round_to_zero q2) by lra. apply round_to_nonpos, P1.
Qed.

Lemma round_to_not_NaN (q : Q) : (round_to prec emin emax) q <> NaN.
Proof.
  unfold round_to, overflow.
  destruct (Qcompare q 0); try discriminate;
    destruct (Qle_bool _ _); discriminate.
Qed.

(** What rounding yields is left as it is by rounding. *)
Lemma round_to_idem (q r : Q) : (round_to prec emin emax) q = Fin r -> (round_to prec emin emax) r = Fin r.
Proof.
  assert (Hpos : forall q r, (0 < q)%Q -> (overflow emax) ((nearest prec emin) q) = Fin r ->
                             (round_to prec emin emax) r = Fin r).
  { clear q r. intros q r P H. unfold overflow in H.
    destruct (Qle_bool (pow2 emax) ((nearest prec emin) q)) eqn:E; [discriminate|].
    assert (Hr : r = Qred ((nearest prec emin) q)) by congruence. subst r. clear H.
    pose proof (nearest_nonneg q P) as Hn.
    pose proof (Qred_correct ((nearest prec emin) q)) as Ec.
    destruct (Qlt_le_dec 0 ((nearest prec emin) q)) as [R|R].
    - assert (R' : (0 < Qred ((nearest prec emin) q))%Q)
        by (change 0%Q with (Qred 0); apply Qred_lt; exact R).
      rewrite round_to_pos by exact R'.
      rewrite (overflow_compat _ ((nearest prec emin) q)).
      + unfold overflow. rewrite E. reflexivity.
      + rewrite (nearest_compat (Qred ((nearest prec emin) q)) ((nearest prec emin) q) R' Ec).
        apply nearest_idem; assumption.
    - assert (Z0 : ((nearest prec emin) q == 0)%Q) by (apply Qle_antisym; assumption).
      assert (E0 : Qred ((nearest prec emin) q) = 0%Q)
        by (change 0%Q with (Qred 0); apply Qred_complete; exact Z0).
      rewrite E0. apply round_to_zero. reflexivity. }
  destruct (Qlt_le_dec 0 q) as [P|P].
  - rewrite round_to_pos by exact P. apply Hpos, P.
  - destruct (Qlt_le_dec q 0) as [N|N].
    + rewrite round_to_neg by exact N.
      destruct ((overflow emax) ((nearest prec emin) (- q))) as [| |x|] eqn:E; try discriminate.
      intros [= <-]. rewrite round_to_opp. rewrite (Hpos (- q)%Q x); [reflexivity| |exact E].
      lra.
    + rewrite round_to_zero by lra. intros [= <-]. apply round_to_zero. reflexivity.
Qed.

(** Integers of at most [prec] bits are left as they are. *)
Lemma round_to_Z (z : Z) :
  emin <= 0 -> prec < emax -> Z.abs z <= 2 ^ prec ->
  (round_to prec emin emax) (inject_Z z) = Fin (inject_Z z).
Proof.
  intros Hemin Hemax Hz.
  assert (Hpos : forall z, 0 < z -> z <= 2 ^ prec ->
                           (round_to prec emin emax) (inject_Z z) = Fin (inject_Z z)).
  { clear z Hz. intros z Hz Hle.
    assert (P : (0 < inject_Z z)%Q)
      by (change 0%Q with (inject_Z 0); rewrite <- Zlt_Qlt; exact Hz).
    rewrite round_to_pos by exact P.
    assert (El : ilog2 (inject_Z z) = Z.log2 z).
    { rewrite (ilog2_compat _ (inject_Z z * pow2 0) P).
      - rewrite ilog2_scaled by exact Hz. lia.
      - change (pow2 0) with 1%Q. ring. }
    assert (En : ((nearest prec emin) (inject_Z z) == inject_Z z)%Q).
    { destruct (Z.eq_dec z (2 ^ prec)) as [->|Hne].
      - apply (nearest_exact _ (2 ^ (prec - 1)) P).
        unfold ulp_exp. rewrite El, Z.log2_pow2 by lia.
        replace (Z.max (prec + 1 - prec) emin) with 1 by lia.
        rewrite <- !pow2_Z by lia. rewrite <- pow2_plus.
        replace (prec - 1 + 1) with prec by lia. reflexivity.
      - assert (Hlog : Z.log2 z < prec) by (apply Z.log2_lt_pow2; lia).
        set (e := (ulp_exp prec emin) (inject_Z z)).
        assert (He : e <= 0) by (unfold e, ulp_exp; rewrite El; lia).
        apply (nearest_exact _ (z * 2 ^ (- e)) P). fold e.
        rewrite inject_Z_mult, <- pow2_Z by lia.
        rewrite <- Qmult_assoc, <- pow2_plus.
        replace (- e + e) with 0 by lia. change (pow2 0) with 1%Q. ring. }
    rewrite (overflow_compat _ (inject_Z z) En). unfold overflow.
    assert (E : Qle_bool (pow2 emax) (inject_Z z) = false).
    { destruct (Qle_bool _ _) eqn:E; [|reflexivity]. exfalso.
      apply Qle_bool_iff in E.
      assert (L : (pow2 prec < pow2 emax)%Q) by (apply pow2_lt; exact Hemax).
      rewrite pow2_Z in L by lia.
      assert (L2 : (inject_Z z <= inject_Z (2 ^ prec))%Q)
        by (rewrite <- Zle_Qle; exact Hle).
      lra. }
    rewrite E, Qred_Z. reflexivity. }
  destruct (Z.lt_trichotomy z 0) as [N|[->|P]].
  - replace (inject_Z z) with (- inject_Z (- z))%Q.
    + rewrite round_to_opp, Hpos by lia. reflexivity.
    + unfold Qopp, inject_Z. simpl. rewrite Z.opp_involutive. reflexivity.
  - apply round_to_zero. reflexivity.
  - apply Hpos; lia.
Qed.

End Format.

(** *** Doubles and singles *)

Lemma binary64_mono (q1 q2 : Q) :
  (q1 <= q2)%Q -> num_leb (binary64 q1) (binary64 q2) = true.
Proof. apply round_to_mono. lia. Qed.

Lemma binary32_mono (q1 q2 : Q) :
  (q1 <= q2)%Q -> num_leb (binary32 q1) (binary32 q2) = true.
Proof. apply round_to_mono. lia. Qed.

Lemma binary64_compat (q1 q2 : Q) :
  (q1 == q2)%Q -> binary64 q1 = binary64 q2.
Proof. apply round_to_compat. Qed.

Lemma binary32_compat (q1 q2 : Q) :
  (q1 == q2)%Q -> binary32 q1 = binary32 q2.
Proof. apply round_to_compat. Qed.

Lemma binary64_double (q r : Q) : binary64 q = Fin r -> double r.
Proof. apply round_to_idem. lia. Qed.

Lemma binary64_nonneg (q : Q) :
  (0 <= q)%Q -> num_leb (Fin 0) (binary64 q) = true.
Proof. apply round_to_nonneg. Qed.

Lemma binary64_not_NaN (q : Q) : binary64 q <> NaN.
Proof. apply round_to_not_NaN. Qed.

Lemma binary32_not_NaN (q : Q) : binary32 q <> NaN.
Proof. apply round_to_not_NaN. Qed.

Lemma binary64_Z (z : Z) :
  Z.abs z <= 2 ^ 53 -> binary64 (inject_Z z) = Fin (inject_Z z).
Proof. apply round_to_Z; lia. Qed.

Lemma binary32_Z (z : Z) :
  Z.abs z <= 2 ^ 24 -> binary32 (inject_Z z) = Fin (inject_Z z).
Proof. apply round_to_Z; lia. Qed.

(** A double is the result of every computation that comes to its
    value. *)
Lemma double_exact (q r : Q) : double r -> (q == r)%Q -> binary64 q = Fin r.
Proof. intros Hr H. rewrite (binary64_compat q r H). exact Hr. Qed.

Lemma fround_mono (a b : num) :
  num_leb a b = true -> num_leb (fround a) (fround b) = true.
Proof.
  destruct a as [| |x|], b as [| |y|]; simpl; try congruence.
  - intros _. destruct (binary32 y) eqn:E; try reflexivity.
    exfalso. exact (binary32_not_NaN y E).
  - intros H. apply binary32_mono. apply Qle_bool_iff. exact H.
  - intros _. destruct (binary32 x) eqn:E; try reflexivity.
    exfalso. exact (binary32_not_NaN x E).
Qed.

End Rounding.

(** ** The animation *)

Module PixChartFacts.
Import PixChart.

Definition other (s : AnimationState) : AnimationState :=
  match s with
  | ANIMATION_COLLAPSE => ANIMATION_EXPAND
  | ANIMATION_EXPAND => ANIMATION_COLLAPSE
  end.

(** A canvas with WebGL, and options that set every callback, say
    [collapsed: false] and ask for one and a half frames per phase (a
    duration of 0.025 seconds at 60 frames per second). *)
Definition someCanvas : Canvas :=
  {| clientWidth := 640; clientHeight := 480; webgl := true |}.

Definition someOptions : Options :=
  {| canvas := Some someCanvas; colorGroupBy := None; scaleImage := None;
     bucketCount := Some (Fin 2); collapsed := Some false;
     maxPixels := None; framesCount_option := Some (Fin (3 # 2));
     cycleComplete := true; progress_callback := true |}.

Definition someParticles : LoadParticles.Particles :=
  {| LoadParticles.res_minFrameSpan := Fin 0;
     LoadParticles.res_maxFrameSpan := Fin 3;
     LoadParticles.res_particleAttributes := [];
     LoadParticles.res_maxYValue := 1 |}.

(** The chart of [someOptions] once [someParticles] are loaded. *)
Definition someChart : Chart :=
  {| initialState := ANIMATION_COLLAPSE; state := ANIMATION_COLLAPSE;
     nextAnimationFrame := false; pendingTimeout := false;
     disposed := false; framesCount := Fin (3 # 2);
     currentFrameNumber := Fin 0;
     particleLoaderSettings :=
       {| LoadParticles.isCancelled := false;
          LoadParticles.framesCount := Fin (3 # 2) |};
     progress := {| total := 0; current := 0; step := step_image |};
     minFrameSpan := Fin 0; maxFrameSpan := Fin 3;
     frameChangeRate := Fin 2 |}.

Lemma someChart_made :
  exists c, pixChart someOptions = inr c /\
            fst (initWebGLPrimitives someParticles false c) = someChart.
Proof. eexists. split; [reflexivity|]. vm_compute. reflexivity. Qed.

(** The frame number lies between the lower span and the sum of the
    upper span and the rate, as the code computes that sum. *)
Definition within (c : Chart) : Prop :=
  exists mn mx : Q,
    minFrameSpan c = Fin mn /\ maxFrameSpan c = Fin mx /\
    double mn /\ (mn <= mx)%Q /\
    num_leb (Fin 0) (frameChangeRate c) = true /\
    num_leb (Fin mn) (currentFrameNumber c) = true /\
    num_leb (currentFrameNumber c)
      (num_add (Fin mx) (frameChangeRate c)) = true.

Lemma initialState_pixChart options c :
  pixChart options = inr c -> initialState c = ANIMATION_COLLAPSE.
Proof.
  unfold pixChart. destruct (canvas options) as [cnv|]; [|discriminate].
  destruct (negb (webgl cnv)); [discriminate|].
  intros [= <-]. reflexivity.
Qed.

Lemma initialState_handle options e c :
  initialState (fst (handle options e c)) = initialState c.
Proof.
  destruct e; simpl.
  - destruct (nextAnimationFrame c); [|reflexivity].
    unfold animate, scheduleNextFrame, completeState. simpl.
    destruct (state c); simpl;
      repeat match goal with
             | |- context [if ?b then _ else _] => destruct b; simpl
             end; reflexivity.
  - destruct (pendingTimeout c); reflexivity.
  - unfold startExpandCollapseCycle.
    destruct (disposed c); [reflexivity|].
    destruct (nextAnimationFrame c || pendingTimeout c); reflexivity.
Qed.

Lemma Qeq_bool_pos (x : Q) : (0 < x)%Q -> Qeq_bool x 0 = false.
Proof.
  intros H. destruct (Qeq_bool x 0) eqn:E; [|reflexivity].
  apply Qeq_bool_iff in E. lra.
Qed.

Lemma Qdiv_nonneg (a b : Q) : (0 <= a)%Q -> (0 < b)%Q -> (0 <= a / b)%Q.
Proof.
  intros Ha Hb. apply Qle_shift_div_l; [exact Hb|]. lra.
Qed.

(** One addition of the rate to a frame number below the upper span. *)
Lemma advance_within (mn mx f : Q) (rate : num) :
  double mn -> (mn <= f)%Q -> (f < mx)%Q ->
  num_leb (Fin 0) rate = true ->
  num_leb (Fin mn) (num_add (Fin f) rate) = true /\
  num_leb (num_add (Fin f) rate) (num_add (Fin mx) rate) = true.
Proof.
  intros Hd Hlo Hhi Hr.
  destruct rate as [| |r|]; simpl in Hr; try discriminate.
  - apply Qle_bool_iff in Hr. cbn [num_add]. split.
    + rewrite <- Hd. apply Rounding.binary64_mono. lra.
    + apply Rounding.binary64_mono. lra.
  - split; reflexivity.
Qed.

(** The lower span is not above that sum. *)
Lemma reset_within (mn mx : Q) (rate : num) :
  double mn -> (mn <= mx)%Q -> num_leb (Fin 0) rate = true ->
  num_leb (Fin mn) (num_add (Fin mx) rate) = true.
Proof.
  intros Hd Hle Hr.
  destruct rate as [| |r|]; simpl in Hr; try discriminate.
  - apply Qle_bool_iff in Hr. cbn [num_add].
    rewrite <- Hd. apply Rounding.binary64_mono. lra.
  - reflexivity.
Qed.

Lemma below_upper (mn mx : Q) (f : num) :
  num_leb (Fin mn) f = true -> num_lt f (Fin mx) = true ->
  exists f0 : Q, f = Fin f0 /\ (mn <= f0)%Q /\ (f0 < mx)%Q.
Proof.
  destruct f as [| |f0|]; simpl; try discriminate.
  intros H1 H2. exists f0. split; [reflexivity|].
  split; [apply Qle_bool_iff, H1|apply Qltb_lt, H2].
Qed.

Lemma within_scheduleNextFrame options c :
  within c -> within (fst (scheduleNextFrame options c)).
Proof.
  intros (mn & mx & Hmn & Hmx & Hd & Hle & Hr & Hlo & Hhi).
  destruct c as [i0 st naf pt dis fc cur pls pr mi ma rate].
  cbn [minFrameSpan maxFrameSpan frameChangeRate currentFrameNumber] in *.
  subst mi ma.
  assert (Hstep : forall s a p g,
    num_leb (Fin mn) g = true ->
    num_leb g (num_add (Fin mx) rate) = true ->
    within (Build_Chart i0 s a p dis fc g pls pr (Fin mn) (Fin mx) rate)).
  { intros s a p g G1 G2. exists mn, mx.
    cbn [minFrameSpan maxFrameSpan frameChangeRate currentFrameNumber].
    repeat split; assumption. }
  assert (Hreset : forall s a p,
    within (Build_Chart i0 s a p dis fc (Fin mn) pls pr
              (Fin mn) (Fin mx) rate)).
  { intros s a p. apply Hstep.
    - apply Rounding.num_leb_refl. discriminate.
    - apply reset_within; assumption. }
  unfold scheduleNextFrame, completeState, setInitialFrameNumber.
  cbn [state currentFrameNumber maxFrameSpan minFrameSpan frameChangeRate
       set_currentFrameNumber set_nextAnimationFrame set_state
       set_pendingTimeout initialState fst].
  destruct st.
  - destruct (num_lt cur (Fin mx)) eqn:E.
    + destruct (below_upper mn mx cur Hlo E) as (f0 & -> & F1 & F2).
      destruct (advance_within mn mx f0 rate Hd F1 F2 Hr) as [A1 A2].
      cbn [fst]. apply Hstep; assumption.
    + destruct (state_eqb ANIMATION_EXPAND i0); cbn [fst]; apply Hreset.
  - destruct (num_lt cur (Fin mx)) eqn:E.
    + destruct (below_upper mn mx cur Hlo E) as (f0 & -> & F1 & F2).
      destruct (advance_within mn mx f0 rate Hd F1 F2 Hr) as [A1 A2].
      destruct (num_lt (num_add (Fin f0) rate) (Fin mx)) eqn:E2.
      * destruct (below_upper mn mx _ A1 E2) as (f1 & Ef1 & G1 & G2).
        rewrite Ef1.
        destruct (advance_within mn mx f1 rate Hd G1 G2 Hr) as [B1 B2].
        cbn [fst]. apply Hstep; assumption.
      * cbn [fst]. apply Hstep; assumption.
    + destruct (state_eqb ANIMATION_COLLAPSE i0); cbn [fst]; apply Hreset.
Qed.

Lemma within_handle options e c :
  within c -> within (fst (handle options e c)).
Proof.
  intros H. destruct e; simpl.
  - destruct (nextAnimationFrame c); [|exact H].
    unfold animate.
    pose proof (within_scheduleNextFrame options
                  (set_nextAnimationFrame false c)) as W.
    destruct (scheduleNextFrame options (set_nextAnimationFrame false c)).
    apply W. exact H.
  - destruct (pendingTimeout c); exact H.
  - unfold startExpandCollapseCycle.
    destruct (disposed c); [exact H|].
    destruct (nextAnimationFrame c || pendingTimeout c); exact H.
Qed.

Lemma within_run options es :
  forall c, within c -> within (fst (run options es c)).
Proof.
  induction es as [|e es IH]; intros c H; simpl; [exact H|].
  pose proof (within_handle options e c H) as H1.
  destruct (handle options e c) as [c1 out1]. simpl in H1.
  specialize (IH c1 H1).
  destruct (run options es c1) as [c2 out2]. exact IH.
Qed.

(** A chart in which the collapse phase has run to its end, and one in
    which the expand phase has. *)
Definition collapseDone : Chart :=
  set_currentFrameNumber (Fin 3) someChart.

Definition expandDone : Chart :=
  set_state ANIMATION_EXPAND collapseDone.

(** C1, as the claim states it, fails: at the end of the collapse phase (the
    phase that equals [initialState]) the client's [cycleComplete] is not
    called and a pause of 1000 ms is set; at the end of the expand phase it
    is called, and no pause is set. *)
Lemma cycle_complete_fires_after_expand_only :
  state collapseDone = initialState collapseDone /\
  num_lt (currentFrameNumber collapseDone) (maxFrameSpan collapseDone)
    = false /\
  cycleComplete someOptions = true /\
  snd (scheduleNextFrame someOptions collapseDone) = [SetTimeout 1000] /\
  state expandDone = ANIMATION_EXPAND /\
  snd (scheduleNextFrame someOptions expandDone) = [CycleComplete] /\
  pendingTimeout (fst (scheduleNextFrame someOptions expandDone)) = false.
Proof. repeat split. Qed.

(** C1, amended: when a phase ends (the frame number is no longer below the
    upper span) the frame number is reset to the lower span and the phase
    flips.  The end of the collapse phase sets the pause of 1000 ms and
    calls nothing; the end of the expand phase, which brings the machine
    back to its initial state, calls [cycleComplete] when the client gave
    one, and sets no timer and requests no frame.  So the call is made
    exactly at the transition from expand to collapse. *)
Theorem phase_completion options c :
  initialState c = ANIMATION_COLLAPSE ->
  num_lt (currentFrameNumber c) (maxFrameSpan c) = false ->
  let r := scheduleNextFrame options c in
  currentFrameNumber (fst r) = minFrameSpan c /\
  state (fst r) = other (state c) /\
  nextAnimationFrame (fst r) = nextAnimationFrame c /\
  match state c with
  | ANIMATION_COLLAPSE =>
      pendingTimeout (fst r) = true /\ snd r = [SetTimeout 1000]
  | ANIMATION_EXPAND =>
      pendingTimeout (fst r) = pendingTimeout c /\
      snd r = if cycleComplete options then [CycleComplete] else []
  end /\
  (CycleComplete ∈ snd r <->
   state c = ANIMATION_EXPAND /\ cycleComplete options = true).
Proof.
  intros Hinit Hlt.
  destruct c as [i0 st naf pt dis fc cur pls pr mi ma rate].
  simpl in *. subst i0.
  unfold scheduleNextFrame, completeState, setInitialFrameNumber. simpl.
  destruct st; simpl; rewrite Hlt; simpl.
  - do 3 (split; [reflexivity|]). split; [split; reflexivity|]. split.
    + intros H. apply list_elem_of_singleton in H. discriminate.
    + intros [H _]. discriminate.
  - do 3 (split; [reflexivity|]). split; [split; reflexivity|].
    destruct (cycleComplete options); split.
    + intros _. split; reflexivity.
    + intros _. apply list_elem_of_singleton. reflexivity.
    + intros H. inversion H.
    + intros [_ H]. discriminate.
Qed.

Lemma phase_completion_witness :
  currentFrameNumber (fst (scheduleNextFrame someOptions expandDone))
    = Fin 0 /\
  snd (scheduleNextFrame someOptions expandDone) = [CycleComplete].
Proof.
  pose proof (phase_completion someOptions expandDone eq_refl eq_refl)
    as (H1 & _ & _ & (_ & H2) & _).
  split; [exact H1 | exact H2].
Defined.




(** C3, as the claim states it, fails: with one and a half frames per phase
    the second tick of the collapse phase leaves the frame number above the
    upper span while the phase is still collapse and the next frame is
    requested.  All the numbers of this run are doubles that the code
    computes without rounding. *)
Lemma frame_number_overshoots :
  minFrameSpan someChart = Fin 0 /\ maxFrameSpan someChart = Fin 3 /\
  currentFrameNumber someChart = minFrameSpan someChart /\
  state (fst (run someOptions [RestartCycle; Timeout; Frame; Frame]
                someChart)) = ANIMATION_COLLAPSE /\
  nextAnimationFrame
    (fst (run someOptions [RestartCycle; Timeout; Frame; Frame]
            someChart)) = true /\
  num_lt (Fin 3)
    (currentFrameNumber
       (fst (run someOptions [RestartCycle; Timeout; Frame; Frame]
               someChart))) = true.
Proof. vm_compute. repeat split. Qed.

(** C3, amended: once the particles are loaded (spans that are finite
    doubles, the lower one not above the upper one) into a chart with a
    positive, finite number of frames, the frame number starts at the
    lower span and, whatever frames, pauses and restarts follow, it stays
    at or above the lower span and at or below the sum of the upper span
    and the rate, as the code computes that sum in doubles: it can
    overshoot the upper span by one step of the rate, rounding included;
    at the end of every phase it is reset to the lower span. *)
Theorem frame_number_range options particles c es (mn mx k : Q) :
  LoadParticles.res_minFrameSpan particles = Fin mn ->
  LoadParticles.res_maxFrameSpan particles = Fin mx ->
  double mn -> (mn <= mx)%Q ->
  framesCount c = Fin k -> (0 < k)%Q ->
  disposed c = false ->
  let c1 := fst (initWebGLPrimitives particles false c) in
  currentFrameNumber c1 = minFrameSpan c1 /\
  within (fst (run options es c1)) /\
  (forall c2,
     num_lt (currentFrameNumber c2) (maxFrameSpan c2) = false ->
     currentFrameNumber (fst (scheduleNextFrame options c2))
       = minFrameSpan c2).
Proof.
  intros Hmn Hmx Hd Hle Hk Hpos Hdis c1.
  assert (Hc1 : currentFrameNumber c1 = minFrameSpan c1).
  { subst c1. unfold initWebGLPrimitives. rewrite Hdis. reflexivity. }
  split; [exact Hc1|]. split.
  - apply within_run. subst c1. unfold initWebGLPrimitives.
    rewrite Hdis. cbn [fst]. rewrite Hmn, Hmx, Hk.
    exists mn, mx.
    cbn [minFrameSpan maxFrameSpan frameChangeRate currentFrameNumber
         setInitialFrameNumber set_currentFrameNumber].
    assert (Hrate : num_leb (Fin 0)
                      (num_div (num_sub (Fin mx) (Fin mn)) (Fin k)) = true).
    { unfold num_sub, num_neg, num_add.
      pose proof (Rounding.binary64_nonneg (mx + - mn) ltac:(lra)) as Hs.
      destruct (binary64 (mx + - mn)) as [| |d|]; simpl in Hs;
        try discriminate.
      - apply Qle_bool_iff in Hs. unfold num_div.
        rewrite (Qeq_bool_pos k Hpos).
        apply Rounding.binary64_nonneg, Qdiv_nonneg; assumption.
      - unfold num_div.
        assert (E : Qltb k 0 = false) by (apply Qltb_ge; lra).
        rewrite E. reflexivity. }
    repeat split; try assumption.
    + apply Rounding.num_leb_refl. discriminate.
    + apply reset_within; assumption.
  - intros c2 Hlt.
    destruct c2 as [i0 st naf pt dis fc cur pls pr mi ma rate].
    unfold scheduleNextFrame, completeState, setInitialFrameNumber.
    simpl in *. rewrite Hlt.
    destruct st; simpl; destruct i0; reflexivity.
Qed.

Lemma frame_number_range_witness :
  within
    (fst (run someOptions [RestartCycle; Timeout; Frame; Frame]
            (fst (initWebGLPrimitives someParticles false
                    (set_currentFrameNumber (Fin 1) someChart))))).
Proof.
  refine (proj1 (proj2
    (frame_number_range someOptions someParticles
       (set_currentFrameNumber (Fin 1) someChart)
       [RestartCycle; Timeout; Frame; Frame] 0 3 (3 # 2)
       eq_refl eq_refl _ _ eq_refl _ eq_refl))).
  - vm_compute. reflexivity.
  - unfold Qle; simpl; lia.
  - unfold Qlt; simpl; lia.
Defined.

(** X20: as [pixChart] is written, a chart starts in the collapse phase,
    which is also its [initialState], whatever its options; its frame
    number is 0 when the chart is made and is set to the lower span of the
    particles when they are loaded, before the first tick. *)
Theorem initial_phase_is_collapse options c particles :
  pixChart options = inr c ->
  initialState c = ANIMATION_COLLAPSE /\
  state c = ANIMATION_COLLAPSE /\
  currentFrameNumber c = Fin 0 /\
  let c1 := fst (initWebGLPrimitives particles false c) in
  state c1 = ANIMATION_COLLAPSE /\
  currentFrameNumber c1 = LoadParticles.res_minFrameSpan particles.
Proof.
  unfold pixChart. destruct (canvas options) as [cnv|]; [|discriminate].
  destruct (negb (webgl cnv)); [discriminate|].
  intros [= <-]. repeat split.
Qed.

Lemma initial_phase_is_collapse_witness :
  currentFrameNumber (fst (initWebGLPrimitives someParticles false
    {| initialState := ANIMATION_COLLAPSE; state := ANIMATION_COLLAPSE;
       nextAnimationFrame := false; pendingTimeout := false;
       disposed := false; framesCount := Fin (3 # 2);
       currentFrameNumber := Fin 0;
       particleLoaderSettings :=
         {| LoadParticles.isCancelled := false;
            LoadParticles.framesCount := Fin (3 # 2) |};
       progress := {| total := 0; current := 0; step := step_image |};
       minFrameSpan := NaN; maxFrameSpan := NaN;
       frameChangeRate := NaN |})) = Fin 0.
Proof.
  exact (proj2 (proj2 (proj2 (proj2
    (initial_phase_is_collapse someOptions _ someParticles eq_refl))))).
Defined.

End PixChartFacts.

(** ** The particle loader *)

Module LoadParticlesFacts.
Import LoadParticles.

Definition in_unit (v : num) : Prop :=
  exists q : Q, v = Fin q /\ (0 <= q)%Q /\ (q <= 1)%Q.

Definition byte (z : Z) : Prop := 0 <= z <= 255.

(** The images [getImageData] can produce: four bytes per pixel, and fewer
    pixels than a 32-bit counter can count. *)
Definition wf_image (image : Image) : Prop :=
  0 <= width image /\ 0 <= height image /\
  Z.of_nat (length (data image)) = 4 * (width image * height image) /\
  Forall byte (data image) /\
  width image * height image < Uint32_modulus.

Definition sum (l : list Z) : Z := foldr Z.add 0 l.

Definition maximum (l : list Z) : Z := foldr Z.max 0 l.

(** The occupancy of the bucket a number denotes. *)
Definition occupancy (bucketColors : list Z) (bucket : num) : option Z :=
  array_index (length bucketColors) bucket ≫= fun i => bucketColors !! i.

Lemma round_bounds (x : Q) (k : Z) :
  (0 <= x)%Q -> (x <= inject_Z k)%Q ->
  0 <= Qfloor (x + (1 # 2)) <= k.
Proof.
  intros H0 H1.
  pose proof (Qfloor_le (x + (1 # 2))) as Hlo.
  pose proof (Qlt_floor (x + (1 # 2))) as Hhi.
  rewrite inject_Z_plus in Hhi. change (inject_Z 1) with 1%Q in Hhi.
  split.
  - assert (H : (inject_Z (-1) < inject_Z (Qfloor (x + (1 # 2))))%Q).
    { change (inject_Z (-1)) with (-1 # 1)%Q. lra. }
    rewrite <- Zlt_Qlt in H. lia.
  - assert (H : (inject_Z (Qfloor (x + (1 # 2))) < inject_Z (k + 1))%Q).
    { rewrite inject_Z_plus. change (inject_Z 1) with 1%Q. lra. }
    rewrite <- Zlt_Qlt in H. lia.
Qed.

(** Two computations on integers that doubles carry out exactly. *)
Lemma pred_exact (z : Z) :
  Z.abs z <= 2 ^ 53 -> num_sub (num_of_Z (z + 1)) (Fin 1) = num_of_Z z.
Proof.
  intros H. unfold num_sub, num_of_Z, num_neg, num_add.
  apply Rounding.double_exact; [apply Rounding.binary64_Z, H|].
  rewrite inject_Z_plus. change (inject_Z 1) with 1%Q. ring.
Qed.

Lemma quarter_exact (z : Z) :
  Z.abs z <= 2 ^ 53 -> num_div (num_of_Z (4 * z)) (Fin 4) = num_of_Z z.
Proof.
  intros H. unfold num_div, num_of_Z.
  change (Qeq_bool 4 0) with false. cbv iota.
  apply Rounding.double_exact; [apply Rounding.binary64_Z, H|].
  rewrite inject_Z_mult. change (inject_Z 4) with 4%Q. field.
Qed.

Lemma Qeq_bool_inject_Z (a b : Z) :
  Qeq_bool (inject_Z a) (inject_Z b) = (a =? b).
Proof.
  unfold Qeq_bool, inject_Z. simpl. rewrite !Z.mul_1_r. reflexivity.
Qed.

Lemma array_index_of_Z (len : nat) (z : Z) :
  0 <= z < Z.of_nat len ->
  array_index len (num_of_Z z) = Some (Z.to_nat z).
Proof.
  intros [H0 H1]. unfold array_index, num_of_Z.
  rewrite Qfloor_Z, Qeq_bool_inject_Z, Z.eqb_refl. simpl.
  destruct (Z.leb_spec 0 z); [|lia].
  destruct (Z.ltb_spec z (Z.of_nat len)); [|lia].
  reflexivity.
Qed.

(** The bucket of a value of the unit interval, as an integer. *)
Lemma bucketNumber_unit (v : num) (k : Z) :
  in_unit v -> 1 <= k -> k <= 2 ^ 53 ->
  exists z : Z, bucketNumber v k = num_of_Z z /\ 0 <= z < k.
Proof.
  intros (q & -> & H0 & H1) Hk Hk53.
  assert (HK : (1 <= inject_Z k)%Q).
  { change 1%Q with (inject_Z 1). rewrite <- Zle_Qle. exact Hk. }
  assert (Hq0 : (0 <= q * inject_Z k)%Q) by (apply Qmult_le_0_compat; lra).
  assert (Hq1 : (q * inject_Z k <= inject_Z k)%Q).
  { rewrite <- (Qmult_1_l (inject_Z k)) at 2.
    apply Qmult_le_compat_r; lra. }
  pose proof (Rounding.binary64_nonneg _ Hq0) as Plo.
  pose proof (Rounding.binary64_mono _ _ Hq1) as Phi.
  rewrite (Rounding.binary64_Z k) in Phi by lia.
  assert (Em : exists x, num_mul (Fin q) (num_of_Z k) = Fin x /\
                         (0 <= x)%Q /\ (x <= inject_Z k)%Q).
  { unfold num_mul, num_of_Z.
    destruct (binary64 (q * inject_Z k)) as [| |x|]; simpl in Plo, Phi;
      try discriminate.
    exists x. split; [reflexivity|].
    split; apply Qle_bool_iff; assumption. }
  destruct Em as (x & Em & Plo' & Phi').
  pose proof (round_bounds x k Plo' Phi') as Hb.
  unfold bucketNumber. rewrite Em. cbn [Math_round].
  remember (Qfloor (x + (1 # 2))) as z0 eqn:Ez0.
  unfold num_eqb, num_of_Z at 1. rewrite Qeq_bool_inject_Z.
  destruct (Z.eqb_spec z0 k) as [E|E].
  - exists (k - 1). split; [|lia]. rewrite E.
    replace k with (k - 1 + 1) at 1 by lia.
    apply (pred_exact (k - 1)). lia.
  - exists z0. split; [reflexivity|lia].
Qed.

(** *** Counters in a list *)

Lemma sum_insert (l : list Z) : forall (i : nat) (old x : Z),
  l !! i = Some old -> sum (<[i := x]> l) = sum l - old + x.
Proof.
  induction l as [|a l IH]; intros [|i] old x H; simpl in *;
    try discriminate.
  - injection H as ->. lia.
  - rewrite (IH i old x H). lia.
Qed.

Lemma sum_bound (l : list Z) : forall (i : nat) (x : Z),
  Forall (fun y => 0 <= y) l -> l !! i = Some x -> 0 <= x <= sum l.
Proof.
  induction l as [|a l IH]; intros [|i] x HF H; simpl in *;
    try discriminate; inversion_clear HF as [|? ? Ha Hl].
  - injection H as ->.
    assert (0 <= sum l).
    { clear IH. induction Hl; simpl; [lia|]. unfold sum in *. lia. }
    lia.
  - specialize (IH i x Hl H). lia.
Qed.

Lemma sum_replicate (k : nat) : sum (replicate k 0) = 0.
Proof. induction k as [|k IH]; simpl; [reflexivity|exact IH]. Qed.

Lemma maximum_replicate (k : nat) : maximum (replicate k 0) = 0.
Proof. induction k as [|k IH]; simpl; [reflexivity|]. rewrite IH. lia. Qed.

Lemma maximum_insert (l : list Z) : forall (i : nat) (old x : Z),
  l !! i = Some old -> old <= x ->
  maximum (<[i := x]> l) = Z.max (maximum l) x.
Proof.
  induction l as [|a l IH]; intros [|i] old x H Hle; simpl in *;
    try discriminate.
  - injection H as ->. lia.
  - rewrite (IH i old x H Hle). lia.
Qed.

Lemma maximum_ge (l : list Z) : forall (i : nat) (x : Z),
  l !! i = Some x -> x <= maximum l.
Proof.
  induction l as [|a l IH]; intros [|i] x H; simpl in *; try discriminate.
  - injection H as ->. lia.
  - specialize (IH i x H). lia.
Qed.

Lemma maximum_attained (l : list Z) :
  l <> [] -> Forall (fun y => 0 <= y) l ->
  exists i, l !! i = Some (maximum l).
Proof.
  induction l as [|a l IH]; intros Hne HF; [congruence|].
  inversion_clear HF as [|? ? Ha Hl]. simpl.
  destruct l as [|b l].
  - exists 0%nat. simpl. f_equal. lia.
  - destruct (IH ltac:(discriminate) Hl) as [i Hi].
    destruct (Z.le_gt_cases (maximum (b :: l)) a).
    + exists 0%nat. simpl. f_equal. simpl in *. lia.
    + exists (S i). simpl. simpl in Hi. rewrite Hi. f_equal. simpl in *.
      lia.
Qed.

Lemma zlookup_Some {A : Type} (l : list A) (i : Z) :
  0 <= i < Z.of_nat (length l) ->
  zlookup l i = l !! Z.to_nat i /\ is_Some (l !! Z.to_nat i).
Proof.
  intros [H0 H1]. unfold zlookup.
  destruct (Z.ltb_spec i 0); [lia|]. split; [reflexivity|].
  apply lookup_lt_is_Some. lia.
Qed.

(** *** Lower and upper span *)

Definition lower_shape (a : num) : Prop := a = PosInf \/ num_finite a.
Definition upper_shape (a : num) : Prop := a = NegInf \/ num_finite a.

Lemma lower_update (lo : num) (g : Q) :
  lower_shape lo ->
  let lo' := if num_lt (Fin g) lo then Fin g else lo in
  num_finite lo' /\ num_le lo' (Fin g) /\
  (forall x, num_le lo x -> num_le lo' x).
Proof.
  intros [->|H]; simpl.
  - repeat split; [lra | intros x []].
  - destruct lo as [| |l|]; simpl in H; try contradiction. simpl.
    destruct (Qltb g l) eqn:E; simpl.
    + apply Qltb_lt in E. repeat split; [lra|].
      intros [| |x|]; simpl; try contradiction. lra.
    + apply Qltb_ge in E. repeat split; [exact E|].
      intros x Hx. exact Hx.
Qed.

Lemma upper_update (hi : num) (g : Q) :
  upper_shape hi ->
  let hi' := if num_gt (Fin g) hi then Fin g else hi in
  num_finite hi' /\ num_le (Fin g) hi' /\
  (forall x, num_le x hi -> num_le x hi').
Proof.
  intros [->|H]; simpl.
  - repeat split; [lra | intros [| |x|] []].
  - destruct hi as [| |h|]; simpl in H; try contradiction.
    unfold num_gt. simpl.
    destruct (Qltb h g) eqn:E; simpl.
    + apply Qltb_lt in E. repeat split; [lra|].
      intros [| |x|]; simpl; try contradiction. lra.
    + apply Qltb_ge in E. repeat split; [exact E|].
      intros x Hx. exact Hx.
Qed.

(** The loader before its first [scheduleWork]. *)
Definition initial (image : Image) (options : Options) (random0 : nat)
  : Loader :=
  {| cancelled := isCancelled options;
     initIntervals := 0;
     n := width image * height image;
     bucketsCount := width image * height image;
     maxYValue := 0;
     pixels := data image;
     idx := 0;
     minFrameSpan := PosInf;
     maxFrameSpan := NegInf;
     particleAttributes :=
       replicate (Z.to_nat (width image * height image)) zeroParticle;
     bucketColors := replicate (Z.to_nat (width image * height image)) 0;
     random := random0;
     timer := false;
     resolved := None |}.

Lemma loadParticles_initial image options random0 :
  width image <> 0 -> height image <> 0 ->
  loadParticles image (Some options) random0
  = inr (scheduleWork (initial image options random0)).
Proof.
  intros Hw Hh. unfold loadParticles.
  destruct (Z.eqb_spec (width image) 0); [contradiction|].
  destruct (Z.eqb_spec (height image) 0); [contradiction|].
  reflexivity.
Qed.

Lemma loadParticles_started image options random0 L0 out0 :
  loadParticles image (Some options) random0 = inr (L0, out0) ->
  width image <> 0 /\ height image <> 0 /\
  L0 = fst (scheduleWork (initial image options random0)) /\
  out0 = snd (scheduleWork (initial image options random0)).
Proof.
  unfold loadParticles.
  destruct (Z.eqb_spec (width image) 0); [discriminate|].
  destruct (Z.eqb_spec (height image) 0); [discriminate|].
  cbn [orb]. intros H.
  change (inr (scheduleWork (initial image options random0))
          = (inr (L0, out0) : string + Loader * list Effect)) in H.
  injection H as H. rewrite H. repeat split; assumption.
Qed.

Lemma loadParticles_zero_sized image options random0 :
  width image = 0 \/ height image = 0 ->
  loadParticles image (Some options) random0 = inl "IndexSizeError"%string.
Proof.
  intros H. unfold loadParticles.
  destruct (Z.eqb_spec (width image) 0) as [|Hw]; [reflexivity|].
  destruct (Z.eqb_spec (height image) 0) as [|Hh]; [reflexivity|].
  destruct H; contradiction.
Qed.

(** A loader with its control variables (flag, interval count, timer,
    promise) put aside: what is left is the data the loop works on. *)
Definition data_of (L : Loader) : Loader :=
  {| cancelled := false; initIntervals := 0;
     n := n L; bucketsCount := bucketsCount L; maxYValue := maxYValue L;
     pixels := pixels L; idx := idx L; minFrameSpan := minFrameSpan L;
     maxFrameSpan := maxFrameSpan L;
     particleAttributes := particleAttributes L;
     bucketColors := bucketColors L; random := random L;
     timer := false; resolved := None |}.

Section Engine.

Variable rgbToHsl_l : option Z -> option Z -> option Z -> num.
Variable gaussian : nat -> Q.

Local Abbreviation processPixel := (processPixel rgbToHsl_l gaussian).
Local Abbreviation processPixels := (processPixels rgbToHsl_l gaussian).
Local Abbreviation processAll := (processAll rgbToHsl_l gaussian).
Local Abbreviation step := (step rgbToHsl_l gaussian).
Local Abbreviation run := (run rgbToHsl_l gaussian).

Lemma processPixel_data L :
  data_of (processPixel L) = processPixel (data_of L).
Proof.
  unfold LoadParticles.processPixel, data_of. simpl.
  destruct (incrementBucket _ _). reflexivity.
Qed.

Lemma processPixel_control L :
  cancelled (processPixel L) = cancelled L /\
  initIntervals (processPixel L) = initIntervals L /\
  timer (processPixel L) = timer L /\
  resolved (processPixel L) = resolved L.
Proof.
  unfold LoadParticles.processPixel.
  destruct (incrementBucket _ _). repeat split.
Qed.

Lemma processPixel_static L :
  n (processPixel L) = n L /\
  bucketsCount (processPixel L) = bucketsCount L /\
  pixels (processPixel L) = pixels L /\
  idx (processPixel L) = idx L + 4.
Proof.
  unfold LoadParticles.processPixel.
  destruct (incrementBucket _ _). repeat split.
Qed.

Lemma processAll_S k : forall L,
  processAll (S k) L = processPixel (processAll k L).
Proof.
  induction k as [|k IH]; intros L; [reflexivity|].
  change (processAll (S (S k)) L) with (processAll (S k) (processPixel L)).
  rewrite IH. reflexivity.
Qed.

Lemma processAll_data k : forall L,
  data_of (processAll k L) = processAll k (data_of L).
Proof.
  induction k as [|k IH]; intros L; [reflexivity|].
  simpl. rewrite IH, processPixel_data. reflexivity.
Qed.

Lemma processAll_static k : forall L,
  n (processAll k L) = n L /\
  bucketsCount (processAll k L) = bucketsCount L /\
  pixels (processAll k L) = pixels L /\
  idx (processAll k L) = idx L + 4 * Z.of_nat k.
Proof.
  induction k as [|k IH]; intros L.
  - simpl. repeat split. lia.
  - rewrite processAll_S.
    destruct (IH L) as (H1 & H2 & H3 & H4).
    destruct (processPixel_static (processAll k L)) as (G1 & G2 & G3 & G4).
    rewrite G1, G2, G3, G4, H1, H2, H3, H4. repeat split. lia.
Qed.

(** *** One pixel after the other *)

(** The colour library yields a value of the unit interval for the bytes
    of a pixel. *)
Definition values_in_unit : Prop :=
  forall r g b : Z, byte r -> byte g -> byte b ->
    in_unit (rgbToHsl_l (Some r) (Some g) (Some b)).

(** The value of pixel [i] of a pixel array, and its bucket among
    [count]. *)
Definition pixelValue (pixels : list Z) (i : Z) : num :=
  rgbToHsl_l (zlookup pixels (4 * i)) (zlookup pixels (4 * i + 1))
             (zlookup pixels (4 * i + 2)).

Definition bucketOf (pixels : list Z) (count : Z) (i : Z) : num :=
  bucketNumber (pixelValue pixels i) count.

(** What the buffer keeps of pixel [i], found [s] high in its bucket and
    given the sample [g]: four singles. *)
Definition stored (pixels : list Z) (i s : Z) (g : Q) : Particle :=
  {| value := fround (pixelValue pixels i);
     stackHeight := fround (num_of_Z s);
     jitter := fround (Fin g);
     sourceIndex := fround (num_of_Z i) |}.

(** What the claim asks of particle [j], against the buckets and spans of
    loader [L], which drew its first sample at [random0]. *)
Definition particle_ok (random0 : nat) (L : Loader) (j : nat)
    (p : Particle) : Prop :=
  exists s occ : Z,
    p = stored (pixels L) (n L - 1 - Z.of_nat j) s
               (gaussian (random0 + j)) /\
    occupancy (bucketColors L)
      (bucketOf (pixels L) (bucketsCount L) (n L - 1 - Z.of_nat j))
      = Some occ /\
    0 <= s < occ /\
    num_le (minFrameSpan L) (Fin (gaussian (random0 + j))) /\
    num_le (Fin (gaussian (random0 + j))) (maxFrameSpan L).

(** The state of the loop after [k] pixels. *)
Record layout_ok (random0 : nat) (L : Loader) (k : nat) : Prop := {
  ok_buckets : length (bucketColors L) = Z.to_nat (n L);
  ok_attributes : length (particleAttributes L) = Z.to_nat (n L);
  ok_nonneg : Forall (fun y => 0 <= y) (bucketColors L);
  ok_sum : sum (bucketColors L) = Z.of_nat k;
  ok_maximum : maxYValue L = maximum (bucketColors L);
  ok_lower : lower_shape (minFrameSpan L);
  ok_upper : upper_shape (maxFrameSpan L);
  ok_random : random L = (random0 + k)%nat;
  ok_particles :
    forall (j : nat) (p : Particle),
      (j < k)%nat -> particleAttributes L !! j = Some p ->
      particle_ok random0 L j p
}.

Lemma processPixel_fields L k :
  values_in_unit ->
  idx L = 4 * Z.of_nat k -> Z.of_nat k < n L -> n L < Uint32_modulus ->
  bucketsCount L = n L ->
  Z.of_nat (length (pixels L)) = 4 * n L -> Forall byte (pixels L) ->
  length (bucketColors L) = Z.to_nat (n L) ->
  length (particleAttributes L) = Z.to_nat (n L) ->
  Forall (fun y => 0 <= y) (bucketColors L) ->
  sum (bucketColors L) = Z.of_nat k ->
  exists z old : Z,
    bucketOf (pixels L) (bucketsCount L) (n L - 1 - Z.of_nat k)
      = num_of_Z z /\
    0 <= z < n L /\
    bucketColors L !! Z.to_nat z = Some old /\
    0 <= old <= Z.of_nat k /\
    bucketColors (processPixel L)
      = <[Z.to_nat z := old + 1]> (bucketColors L) /\
    maxYValue (processPixel L) = Z.max (maxYValue L) (old + 1) /\
    particleAttributes (processPixel L)
      = <[k := stored (pixels L) (n L - 1 - Z.of_nat k) old
                      (gaussian (random L))]>
          (particleAttributes L) /\
    minFrameSpan (processPixel L)
      = (if num_lt (Fin (gaussian (random L))) (minFrameSpan L)
         then Fin (gaussian (random L)) else minFrameSpan L) /\
    maxFrameSpan (processPixel L)
      = (if num_gt (Fin (gaussian (random L))) (maxFrameSpan L)
         then Fin (gaussian (random L)) else maxFrameSpan L) /\
    random (processPixel L) = S (random L).
Proof.
  intros Hv Hidx Hk H32 Hbc Hlen Hbytes Hlb Hla Hnn Hsum.
  set (i := n L - 1 - Z.of_nat k).
  assert (Einv : 4 * n L - idx L - 4 = 4 * i) by (subst i; lia).
  destruct (zlookup_Some (pixels L) (4 * i)) as [Er [r Hr]];
    [subst i; lia|].
  destruct (zlookup_Some (pixels L) (4 * i + 1)) as [Eg [g Hg]];
    [subst i; lia|].
  destruct (zlookup_Some (pixels L) (4 * i + 2)) as [Eb [b Hb]];
    [subst i; lia|].
  pose proof (Forall_lookup_1 _ _ _ _ Hbytes Hr) as Br.
  pose proof (Forall_lookup_1 _ _ _ _ Hbytes Hg) as Bg.
  pose proof (Forall_lookup_1 _ _ _ _ Hbytes Hb) as Bb.
  assert (Hunit : in_unit (pixelValue (pixels L) i)).
  { unfold pixelValue. rewrite Er, Eg, Eb, Hr, Hg, Hb.
    apply Hv; assumption. }
  assert (H53 : n L <= 2 ^ 53) by (unfold Uint32_modulus in H32; lia).
  destruct (bucketNumber_unit _ (bucketsCount L) Hunit) as (z & Ez & Hz);
    [lia|lia|].
  fold (bucketOf (pixels L) (bucketsCount L) i) in Ez.
  assert (Hzl : 0 <= z < Z.of_nat (length (bucketColors L)))
    by (rewrite Hlb; lia).
  pose proof (array_index_of_Z _ z Hzl) as Eidx.
  destruct (lookup_lt_is_Some_2 (bucketColors L) (Z.to_nat z)) as [old Hold];
    [lia|].
  pose proof (sum_bound _ _ _ Hnn Hold) as Hob. rewrite Hsum in Hob.
  assert (Emod : (old + 1) mod Uint32_modulus = old + 1)
    by (apply Z.mod_small; lia).
  assert (Ediv : idx L / 4 = Z.of_nat k).
  { rewrite Hidx, Z.mul_comm, Z.div_mul; lia. }
  assert (Eslot : zlookup (particleAttributes L) (Z.of_nat k)
                  = particleAttributes L !! k).
  { unfold zlookup. destruct (Z.ltb_spec (Z.of_nat k) 0); [lia|].
    rewrite Nat2Z.id. reflexivity. }
  destruct (lookup_lt_is_Some_2 (particleAttributes L) k) as [p0 Hp0];
    [lia|].
  exists z, old.
  unfold LoadParticles.processPixel, getValue.
  rewrite Einv.
  replace (4 * i + 0) with (4 * i) by lia.
  fold (pixelValue (pixels L) i).
  fold (bucketOf (pixels L) (bucketsCount L) i).
  unfold incrementBucket. rewrite Ez, Eidx, Hold, Emod.
  rewrite Ediv, Eslot, Hp0, Nat2Z.id.
  rewrite (pred_exact old)
    by (unfold Uint32_modulus in H32; lia).
  rewrite (quarter_exact i)
    by (unfold Uint32_modulus in H32; subst i; lia).
  cbn [bucketColors maxYValue particleAttributes minFrameSpan maxFrameSpan
       random].
  fold (stored (pixels L) i old (gaussian (random L))).
  split; [rewrite <- Ez; reflexivity|].
  repeat split; try assumption; try lia.
  destruct (Z.gtb_spec (old + 1) (maxYValue L)); lia.
Qed.

Lemma occupancy_insert (bs : list Z) (i : nat) (old : Z) (b : num)
    (occ : Z) :
  bs !! i = Some old -> occupancy bs b = Some occ ->
  exists occ', occupancy (<[i := old + 1]> bs) b = Some occ' /\ occ <= occ'.
Proof.
  intros Hold. unfold occupancy. rewrite length_insert.
  destruct (array_index (length bs) b) as [j|]; simpl; [|discriminate].
  intros Hj. destruct (decide (i = j)) as [->|Hne].
  - rewrite list_lookup_insert_eq by (apply lookup_lt_is_Some; eauto).
    exists (old + 1). split; [reflexivity|]. rewrite Hold in Hj.
    injection Hj as ->. lia.
  - rewrite list_lookup_insert_ne by exact Hne.
    exists occ. split; [exact Hj|lia].
Qed.

Lemma processPixel_ok random0 L k :
  values_in_unit ->
  idx L = 4 * Z.of_nat k -> Z.of_nat k < n L -> n L < Uint32_modulus ->
  bucketsCount L = n L ->
  Z.of_nat (length (pixels L)) = 4 * n L -> Forall byte (pixels L) ->
  layout_ok random0 L k -> layout_ok random0 (processPixel L) (S k).
Proof.
  intros Hv Hidx Hk H32 Hbc Hlen Hbytes Hok.
  destruct Hok as [Hlb Hla Hnn Hsum Hmax Hlo Hhi Hrand Hps].
  destruct (processPixel_fields L k Hv Hidx Hk H32 Hbc Hlen Hbytes
              Hlb Hla Hnn Hsum)
    as (z & old & Ez & Hz & Hold & Hob & Eb & Em & Ea & Elo & Ehi & Er).
  destruct (processPixel_static L) as (En & Ebc & Epx & _).
  destruct (lower_update (minFrameSpan L) (gaussian (random L)) Hlo)
    as (Lf & Lg & Lmono).
  destruct (upper_update (maxFrameSpan L) (gaussian (random L)) Hhi)
    as (Uf & Ug & Umono).
  rewrite <- Elo in Lf, Lg, Lmono. rewrite <- Ehi in Uf, Ug, Umono.
  split.
  - rewrite Eb, length_insert, En. exact Hlb.
  - rewrite Ea, length_insert, En. exact Hla.
  - rewrite Eb. apply Forall_insert; [exact Hnn|lia].
  - rewrite Eb, (sum_insert _ _ old _ Hold), Hsum. lia.
  - rewrite Eb, Em, (maximum_insert _ _ old _ Hold), Hmax by lia.
    reflexivity.
  - right. exact Lf.
  - right. exact Uf.
  - rewrite Er, Hrand. lia.
  - intros j p Hj Hp. rewrite Ea in Hp.
    unfold particle_ok. rewrite En, Ebc, Epx.
    destruct (decide (j = k)) as [->|Hne].
    + rewrite list_lookup_insert_eq in Hp by lia.
      injection Hp as <-. exists old, (old + 1).
      rewrite Hrand. split; [reflexivity|]. split.
      * rewrite Ez, Eb. unfold occupancy. rewrite length_insert.
        rewrite array_index_of_Z by lia. simpl.
        apply list_lookup_insert_eq. apply lookup_lt_is_Some. eauto.
      * split; [lia|]. rewrite <- Hrand. split; [exact Lg | exact Ug].
    + rewrite list_lookup_insert_ne in Hp by congruence.
      destruct (Hps j p ltac:(lia) Hp) as (s0 & occ & Hs & Ho & Hr & Hl & Hu).
      destruct (occupancy_insert _ _ old _ occ Hold Ho) as (occ' & Ho' & Hle).
      exists s0, occ'. rewrite Eb.
      repeat split; try assumption; try lia.
      * apply Lmono. exact Hl.
      * apply Umono. exact Hu.
Qed.

Lemma initial_ok image options random0 :
  0 <= width image * height image ->
  layout_ok random0 (initial image options random0) 0.
Proof.
  intros Hn. split; simpl.
  - apply length_replicate.
  - apply length_replicate.
  - apply Forall_replicate. lia.
  - apply sum_replicate.
  - symmetry. apply maximum_replicate.
  - left. reflexivity.
  - left. reflexivity.
  - lia.
  - intros j p Hj. lia.
Qed.

Lemma processAll_ok image options random0 :
  values_in_unit -> wf_image image ->
  forall k : nat,
    Z.of_nat k <= width image * height image ->
    layout_ok random0 (processAll k (initial image options random0)) k.
Proof.
  intros Hv (Hw & Hh & Hlen & Hbytes & H32) k.
  induction k as [|k IH]; intros Hk.
  - apply initial_ok. lia.
  - rewrite processAll_S.
    destruct (processAll_static k (initial image options random0))
      as (En & Ebc & Epx & Eidx).
    apply processPixel_ok; try assumption.
    + rewrite En. simpl. lia.
    + rewrite En. exact H32.
    + rewrite Ebc, En. reflexivity.
    + rewrite Epx, En. exact Hlen.
    + rewrite Epx. exact Hbytes.
    + apply IH. lia.
Qed.

(** Where a loader stands: its data are those of [k] pixels processed one
    after the other; a pending timer means the promise is not settled; and
    the promise is settled only with all pixels processed, with the data of
    that moment. *)
Definition progress_of (Li L : Loader) (k : nat) : Prop :=
  data_of L = processAll k (data_of Li) /\
  Z.of_nat k <= Z.max 0 (n Li) /\
  (timer L = true -> resolved L = None) /\
  (forall r, resolved L = Some r ->
     Z.of_nat k = Z.max 0 (n Li) /\ r = particlesOf L).

Definition reached (Li L : Loader) : Prop := exists k, progress_of Li L k.

Lemma progress_idx Li L k :
  idx Li = 0 -> progress_of Li L k ->
  idx L = 4 * Z.of_nat k /\ n L = n Li.
Proof.
  intros Hi (Hd & _).
  destruct (processAll_static k (data_of Li)) as (H1 & _ & _ & H4).
  split.
  - change (idx L) with (idx (data_of L)). rewrite Hd, H4. simpl. lia.
  - change (n L) with (n (data_of L)). rewrite Hd, H1. reflexivity.
Qed.

Lemma scheduleWork_data L :
  data_of (fst (scheduleWork L)) = data_of L /\
  resolved (fst (scheduleWork L)) = resolved L /\
  cancelled (fst (scheduleWork L)) = cancelled L /\
  timer (fst (scheduleWork L)) = (timer L || negb (cancelled L)).
Proof.
  unfold scheduleWork. destruct (cancelled L) eqn:E; simpl.
  - rewrite E, orb_false_r. repeat split.
  - rewrite orb_true_r. repeat split.
Qed.

Lemma processPixels_outcome Li (Hi : idx Li = 0) budget :
  forall L k,
    progress_of Li L k -> timer L = false -> resolved L = None ->
    exists k',
      progress_of Li (fst (processPixels budget L)) k' /\
      cancelled (fst (processPixels budget L)) = cancelled L /\
      (is_Some (resolved (fst (processPixels budget L))) \/
       (k < k')%nat /\
       timer (fst (processPixels budget L)) = negb (cancelled L)).
Proof.
  induction budget as [|budget IH]; intros L k HP Ht Hr;
    destruct (progress_idx Li L k Hi HP) as [Hidx Hn];
    destruct HP as (Hd & Hk & _ & _);
    simpl; destruct (Z.ltb_spec (idx L) (4 * n L)) as [Hlt|Hge].
  - (* the last pixel of the batch *)
    destruct (processPixel_control L) as (Hc1 & _ & Ht1 & Hr1).
    destruct (scheduleWork_data (processPixel L)) as (Sd & Sr & Sc & St).
    exists (S k). split; [|split].
    + repeat split.
      * rewrite Sd, processPixel_data, Hd, processAll_S. reflexivity.
      * lia.
      * intros _. rewrite Sr, Hr1. exact Hr.
      * rewrite Sr, Hr1, Hr in H. discriminate.
      * rewrite Sr, Hr1, Hr in H. discriminate.
    + rewrite Sc. exact Hc1.
    + right. split; [lia|]. rewrite St, Ht1, Ht, Hc1. reflexivity.
  - (* nothing left: the promise is resolved *)
    unfold actualResolve. rewrite Hr. simpl.
    exists k. split; [|split].
    + repeat split; simpl.
      * exact Hd.
      * exact Hk.
      * intros H. congruence.
      * lia.
      * injection H as <-. reflexivity.
    + reflexivity.
    + left. eexists. reflexivity.
  - (* a pixel within the budget *)
    destruct (processPixel_control L) as (Hc1 & _ & Ht1 & Hr1).
    destruct (IH (processPixel L) (S k)) as (k' & HP' & Hc' & Hout).
    + repeat split.
      * rewrite processPixel_data, Hd, processAll_S. reflexivity.
      * lia.
      * intros _. rewrite Hr1. exact Hr.
      * rewrite Hr1, Hr in H. discriminate.
      * rewrite Hr1, Hr in H. discriminate.
    + rewrite Ht1. exact Ht.
    + rewrite Hr1. exact Hr.
    + exists k'. split; [exact HP'|]. split; [congruence|].
      destruct Hout as [Hs|[Hlt' Ht']]; [left; exact Hs|].
      right. split; [lia|]. rewrite Ht', Hc1. reflexivity.
  - unfold actualResolve. rewrite Hr. simpl.
    exists k. split; [|split].
    + repeat split; simpl.
      * exact Hd.
      * exact Hk.
      * intros H. congruence.
      * lia.
      * injection H as <-. reflexivity.
    + reflexivity.
    + left. eexists. reflexivity.
Qed.

Lemma processPixels_reached Li (Hi : idx Li = 0) budget L k :
  progress_of Li L k -> timer L = false -> resolved L = None ->
  reached Li (fst (processPixels budget L)).
Proof.
  intros HP Ht Hr.
  destruct (processPixels_outcome Li Hi budget L k HP Ht Hr)
    as (k' & HP' & _).
  exists k'. exact HP'.
Qed.

Lemma step_reached Li (Hi : idx Li = 0) e L :
  reached Li L -> reached Li (fst (step e L)).
Proof.
  intros [k HP]. destruct e as [budget|]; simpl.
  - destruct (timer L) eqn:Ht; [|exists k; exact HP].
    destruct HP as (Hd & Hk & Hpend & Hres).
    apply (processPixels_reached Li Hi budget (set_timer false L) k).
    + specialize (Hpend Ht).
      repeat split; simpl; try assumption; try discriminate;
        simpl in *; congruence.
    + reflexivity.
    + simpl. exact (Hpend Ht).
  - exists k. destruct HP as (Hd & Hk & Hpend & Hres).
    repeat split; simpl; try assumption; apply (Hres r H).
Qed.

Lemma run_reached Li (Hi : idx Li = 0) es :
  forall L, reached Li L -> reached Li (fst (run es L)).
Proof.
  induction es as [|e es IH]; intros L H; simpl; [exact H|].
  pose proof (step_reached Li Hi e L H) as H1.
  destruct (step e L) as [L1 out1]. simpl in H1.
  specialize (IH L1 H1).
  destruct (run es L1) as [L2 out2]. exact IH.
Qed.

Lemma scheduleWork_reached Li :
  resolved Li = None -> reached Li (fst (scheduleWork Li)).
Proof.
  intros Hr. destruct (scheduleWork_data Li) as (Sd & Sr & _ & _).
  exists 0%nat. repeat split.
  - rewrite Sd. reflexivity.
  - simpl. lia.
  - intros _. rewrite Sr. exact Hr.
  - rewrite Sr, Hr in H. discriminate.
  - rewrite Sr, Hr in H. discriminate.
Qed.

Lemma idle_run es : forall L,
  timer L = false ->
  timer (fst (run es L)) = false /\
  resolved (fst (run es L)) = resolved L /\
  data_of (fst (run es L)) = data_of L /\
  snd (run es L) = [].
Proof.
  induction es as [|e es IH]; intros L Ht; simpl; [repeat split; exact Ht|].
  destruct e as [budget|]; simpl.
  - rewrite Ht. specialize (IH L Ht).
    destruct (run es L) as [L2 out2]. exact IH.
  - specialize (IH (set_cancelled true L) Ht).
    destruct (run es (set_cancelled true L)) as [L2 out2]. exact IH.
Qed.

(** A loader that is not cancelled gets through the image: each timer
    that fires processes at least one pixel, and the one that finds none
    left resolves the promise. *)
Lemma run_completes Li (Hi : idx Li = 0) (m : nat) :
  forall L k budgets,
    progress_of Li L k -> cancelled L = false -> timer L = true ->
    Z.max 0 (n Li) - Z.of_nat k < Z.of_nat m ->
    length budgets = m ->
    is_Some (resolved (fst (run (TimerFires <$> budgets) L))).
Proof.
  induction m as [|m IH]; intros L k budgets HP Hc Ht Hm Hlen.
  - destruct HP as (_ & Hk & _). lia.
  - destruct budgets as [|budget budgets]; [discriminate|].
    injection Hlen as Hlen. rewrite fmap_cons.
    change (run (TimerFires budget :: (TimerFires <$> budgets)) L)
      with (let '(L1, out1) := step (TimerFires budget) L in
            let '(L2, out2) := run (TimerFires <$> budgets) L1 in
            (L2, out1 ++ out2)).
    unfold LoadParticles.step. rewrite Ht.
    destruct HP as (Hd & Hk & Hpend & Hres).
    destruct (processPixels_outcome Li Hi budget (set_timer false L) k)
      as (k' & HP' & Hc' & Hout).
    { repeat split; simpl; try assumption; try discriminate;
        specialize (Hpend Ht); simpl in *; congruence. }
    { reflexivity. }
    { simpl. exact (Hpend Ht). }
    destruct (processPixels budget (set_timer false L)) as [L1 out1].
    cbn [fst snd cancelled] in *.
    destruct Hout as [Hs|[Hlt Ht1]].
    + assert (Ht1 : timer L1 = false).
      { destruct HP' as (_ & _ & Hp' & _). destruct (timer L1); [|reflexivity].
        rewrite (Hp' eq_refl) in Hs. destruct Hs as [? Hs]. discriminate. }
      destruct (idle_run (TimerFires <$> budgets) L1 Ht1) as (_ & Hr2 & _).
      destruct (run (TimerFires <$> budgets) L1) as [L2 out2].
      cbn [fst snd] in *. rewrite Hr2. exact Hs.
    + specialize (IH L1 k' budgets HP').
      destruct (run (TimerFires <$> budgets) L1) as [L2 out2].
      cbn [fst snd] in *.
      change (cancelled (set_timer false L)) with (cancelled L) in *.
      apply IH; try assumption; try lia.
      * congruence.
      * rewrite Ht1, Hc. reflexivity.
Qed.

Lemma loadParticles_completes image options random0 budgets :
  isCancelled options = false ->
  length budgets = S (Z.to_nat (width image * height image)) ->
  is_Some (resolved (fst (run (TimerFires <$> budgets)
                            (fst (scheduleWork
                                    (initial image options random0)))))).
Proof.
  intros Hc Hlen.
  set (Li := initial image options random0).
  assert (Hi : idx Li = 0) by reflexivity.
  destruct (scheduleWork_data Li) as (Sd & Sr & Sc & St).
  apply (run_completes Li Hi (S (Z.to_nat (width image * height image)))
           _ 0%nat budgets).
  - repeat split.
    + rewrite Sd. reflexivity.
    + simpl. lia.
    + intros _. rewrite Sr. reflexivity.
    + rewrite Sr in H. discriminate.
    + rewrite Sr in H. discriminate.
  - rewrite Sc. exact Hc.
  - rewrite St. simpl. rewrite Hc. reflexivity.
  - simpl. lia.
  - exact Hlen.
Qed.

Lemma processAll_length k : forall L,
  length (particleAttributes (processAll k L))
  = length (particleAttributes L).
Proof.
  induction k as [|k IH]; intros L; [reflexivity|].
  simpl. rewrite IH. unfold LoadParticles.processPixel.
  destruct (incrementBucket _ _). simpl.
  destruct (zlookup _ _); [apply length_insert|reflexivity].
Qed.

(** Whatever the timers and the flag do, a settled promise holds the
    particles of the whole image. *)
Lemma resolved_whole image options random0 es r :
  resolved (fst (run es (fst (scheduleWork (initial image options random0)))))
    = Some r ->
  let L := fst (run es (fst (scheduleWork (initial image options random0)))) in
  let k := Z.to_nat (width image * height image) in
  data_of L = data_of (processAll k (initial image options random0)) /\
  idx L = 4 * Z.of_nat k /\
  r = particlesOf (processAll k (initial image options random0)).
Proof.
  intros Hr L k.
  set (Li := initial image options random0) in *.
  assert (Hi : idx Li = 0) by reflexivity.
  destruct (run_reached Li Hi es _ (scheduleWork_reached Li eq_refl))
    as [k' HP].
  fold L in HP.
  destruct (progress_idx Li L k' Hi HP) as [Hidx _].
  destruct HP as (Hd & _ & _ & Hres).
  destruct (Hres r Hr) as [Hk' ->].
  assert (k' = k) as -> by (subst k; simpl in Hk'; lia).
  rewrite processAll_data. repeat split; [exact Hd | exact Hidx |].
  change (particlesOf L) with (particlesOf (data_of L)).
  rewrite Hd, <- processAll_data. reflexivity.
Qed.


Lemma data_fields L L' :
  data_of L = data_of L' ->
  bucketColors L = bucketColors L' /\ bucketsCount L = bucketsCount L' /\
  particleAttributes L = particleAttributes L' /\ n L = n L'.
Proof.
  intros H. repeat split.
  - change (bucketColors (data_of L) = bucketColors (data_of L')).
    rewrite H. reflexivity.
  - change (bucketsCount (data_of L) = bucketsCount (data_of L')).
    rewrite H. reflexivity.
  - change (particleAttributes (data_of L)
            = particleAttributes (data_of L')).
    rewrite H. reflexivity.
  - change (n (data_of L) = n (data_of L')). rewrite H. reflexivity.
Qed.

(** C4, amended: on an image as the canvas hands it over, with a colour
    library whose values lie in the unit interval: whenever the promise is
    resolved, the counters of the buckets add up to [width * height]; the
    buffer holds that many particles; particle [j] is that of pixel
    [width * height - 1 - j], and the buffer, an array of singles, keeps
    for it the rounding to single precision of a stack height from 0 up
    to, but not including, the final counter of the bucket of that pixel,
    which is the stack height itself on an image of at most [2 ^ 24]
    pixels, and the rounding of a sample that lies between the two spans
    of the result, so a jitter between the roundings of the two spans; and
    [maxYValue] is the largest counter: no counter is above it and, when
    there is a bucket, one counter equals it.  A loader that is not
    cancelled does resolve: after at most [width * height + 1] firings of
    its timer, whatever the clock. *)
Theorem layout_invariants image options random0 L0 out0 :
  values_in_unit -> wf_image image ->
  loadParticles image (Some options) random0 = inr (L0, out0) ->
  (forall es r,
     resolved (fst (run es L0)) = Some r ->
     let L := fst (run es L0) in
     let size := width image * height image in
     sum (bucketColors L) = size /\
     length (res_particleAttributes r) = Z.to_nat size /\
     (forall (j : nat) (p : Particle),
        res_particleAttributes r !! j = Some p ->
        exists s occ : Z,
          occupancy (bucketColors L)
            (bucketOf (data image) size (size - 1 - Z.of_nat j))
            = Some occ /\
          0 <= s < occ /\
          stackHeight p = fround (num_of_Z s) /\
          (size <= 2 ^ 24 -> stackHeight p = num_of_Z s) /\
          jitter p = fround (Fin (gaussian (random0 + j))) /\
          num_le (res_minFrameSpan r) (Fin (gaussian (random0 + j))) /\
          num_le (Fin (gaussian (random0 + j))) (res_maxFrameSpan r) /\
          num_leb (fround (res_minFrameSpan r)) (jitter p) = true /\
          num_leb (jitter p) (fround (res_maxFrameSpan r)) = true) /\
     res_maxYValue r = maximum (bucketColors L) /\
     (forall i x, bucketColors L !! i = Some x -> x <= res_maxYValue r) /\
     (bucketColors L <> [] ->
      exists i, bucketColors L !! i = Some (res_maxYValue r))) /\
  (isCancelled options = false ->
   forall budgets,
     length budgets = S (Z.to_nat (width image * height image)) ->
     is_Some (resolved (fst (run (TimerFires <$> budgets) L0)))).
Proof.
  intros Hv Hwf Hload.
  destruct (loadParticles_started _ _ _ _ _ Hload) as (_ & _ & -> & _).
  split.
  - intros es r Hr L size.
    destruct (resolved_whole image options random0 es r Hr)
      as (Hd & _ & ->).
    fold L in Hd.
    set (k := Z.to_nat (width image * height image)) in *.
    set (Lk := processAll k (initial image options random0)) in *.
    destruct (data_fields L Lk Hd) as (Eb & Ebc & _ & _).
    assert (Hk : Z.of_nat k = size).
    { destruct Hwf as (Hw & Hh & _). subst k size. rewrite Z2Nat.id; nia. }
    pose proof (processAll_ok image options random0 Hv Hwf k
                  ltac:(fold size; lia)) as Hok.
    fold Lk in Hok.
    destruct (processAll_static k (initial image options random0))
      as (En & Ec & Epx & _).
    fold Lk in En, Ec, Epx. simpl in En, Ec, Epx. fold size in En, Ec.
    destruct Hok as [Hlb Hla Hnn Hsum Hmax Hlo Hhi Hrand Hps].
    rewrite Eb. cbn [particlesOf res_particleAttributes
      res_minFrameSpan res_maxFrameSpan res_maxYValue].
    split; [rewrite Hsum; exact Hk|].
    split; [rewrite Hla, En; reflexivity|].
    split; [|split; [exact Hmax|split]].
    + intros j p Hj.
      assert (Hjk : (j < k)%nat).
      { apply lookup_lt_Some in Hj. rewrite Hla, En in Hj. exact Hj. }
      destruct (Hps j p Hjk Hj) as (s0 & occ & -> & Ho & Hs & Hl & Hu).
      rewrite Epx, Ec, En in Ho.
      exists s0, occ. split; [exact Ho|]. split; [exact Hs|].
      split; [reflexivity|]. split.
      * intros H24.
        assert (Hocc : 0 <= occ <= sum (bucketColors Lk)).
        { unfold occupancy in Ho.
          destruct (array_index _ _) as [i|]; [|discriminate].
          exact (sum_bound _ _ _ Hnn Ho). }
        cbn [stored stackHeight fround num_of_Z].
        apply Rounding.binary32_Z. lia.
      * split; [reflexivity|]. split; [exact Hl|]. split; [exact Hu|].
        cbn [stored jitter].
        destruct (minFrameSpan Lk) as [| |mn|]; try contradiction.
        destruct (maxFrameSpan Lk) as [| |mx|]; try contradiction.
        split; apply Rounding.fround_mono, Rounding.num_leb_Fin;
          assumption.
    + intros i x Hx. rewrite Hmax. exact (maximum_ge _ _ _ Hx).
    + intros Hne. rewrite Hmax. apply maximum_attained; assumption.
  - intros Hc budgets Hlen.
    apply loadParticles_completes; assumption.
Qed.

(** C9: for a value of the unit interval and at least one bucket (there
    are [width * height] buckets, so at least one whenever there is a
    pixel, and no more than an array can hold, far below [2 ^ 53]), the
    bucket number is an integer from 0 up to, but not including, the
    number of buckets: the read and the write of the counter fall inside
    the array. *)
Theorem bucketNumber_in_bounds (v : num) (count : Z) (counters : list Z) :
  in_unit v -> 1 <= count -> count <= 2 ^ 53 ->
  length counters = Z.to_nat count ->
  exists z : Z,
    bucketNumber v count = num_of_Z z /\ 0 <= z < count /\
    array_index (length counters) (bucketNumber v count)
      = Some (Z.to_nat z) /\
    is_Some (counters !! Z.to_nat z) /\
    is_Some (snd (incrementBucket counters (bucketNumber v count))).
Proof.
  intros Hv Hc H53 Hlen.
  destruct (bucketNumber_unit v count Hv Hc H53) as (z & Ez & Hz).
  assert (Hzl : 0 <= z < Z.of_nat (length counters)) by (rewrite Hlen; lia).
  pose proof (array_index_of_Z _ z Hzl) as Eidx.
  destruct (lookup_lt_is_Some_2 counters (Z.to_nat z)) as [old Hold];
    [lia|].
  exists z. rewrite Ez. repeat split; try assumption; try lia.
  - eexists. exact Hold.
  - unfold incrementBucket. rewrite Eidx, Hold. simpl. eexists. reflexivity.
Qed.



End Engine.

(** Rounding keeps a number between two integers that are doubles. *)
Lemma binary64_between (q : Q) (a b : Z) :
  Z.abs a <= 2 ^ 53 -> Z.abs b <= 2 ^ 53 ->
  (inject_Z a <= q)%Q -> (q <= inject_Z b)%Q ->
  exists r : Q,
    binary64 q = Fin r /\ (inject_Z a <= r)%Q /\ (r <= inject_Z b)%Q.
Proof.
  intros Ha Hb Hlo Hhi.
  pose proof (Rounding.binary64_mono _ _ Hlo) as Plo.
  pose proof (Rounding.binary64_mono _ _ Hhi) as Phi.
  rewrite (Rounding.binary64_Z a Ha) in Plo.
  rewrite (Rounding.binary64_Z b Hb) in Phi.
  destruct (binary64 q) as [| |r|]; simpl in Plo, Phi; try discriminate.
  exists r. split; [reflexivity|].
  split; apply Qle_bool_iff; assumption.
Qed.

Lemma lightness_in_unit (r g b : Z) :
  byte r -> byte g -> byte b ->
  in_unit (lightness (Some r) (Some g) (Some b)).
Proof.
  unfold byte. intros Hr Hg Hb. unfold lightness, num_of_Z.
  set (m := Z.max r (Z.max g b) + Z.min r (Z.min g b)).
  assert (Hm : 0 <= m <= 510) by lia.
  assert (Hm0 : (inject_Z 0 <= inject_Z m)%Q)
    by (rewrite <- Zle_Qle; lia).
  assert (Hm1 : (inject_Z m <= inject_Z 510)%Q)
    by (rewrite <- Zle_Qle; lia).
  change (inject_Z 0) with 0%Q in Hm0.
  change (inject_Z 510) with 510%Q in Hm1.
  destruct (binary64_between (inject_Z m / 2) 0 255) as (x & Ex & X0 & X1).
  - simpl. lia.
  - simpl. lia.
  - change (inject_Z 0) with 0%Q. unfold Qdiv.
    apply Qmult_le_0_compat; [exact Hm0|]. discriminate.
  - change (inject_Z 255) with 255%Q. apply Qle_shift_div_r; [reflexivity|].
    change (255 * 2)%Q with 510%Q. exact Hm1.
  - change (inject_Z 0) with 0%Q in X0.
    change (inject_Z 255) with 255%Q in X1.
    destruct (binary64_between (x / 255) 0 1) as (y & Ey & Y0 & Y1).
    + simpl. lia.
    + simpl. lia.
    + change (inject_Z 0) with 0%Q. unfold Qdiv.
      apply Qmult_le_0_compat; [exact X0|]. discriminate.
    + change (inject_Z 1) with 1%Q. apply Qle_shift_div_r; [reflexivity|].
      rewrite Qmult_1_l. exact X1.
    + exists y. split; [|split; assumption].
      unfold num_div. change (Qeq_bool 2 0) with false.
      change (Qeq_bool 255 0) with false. cbv iota.
      rewrite Ex. cbv iota. rewrite Ey. reflexivity.
Qed.

(** *** Two images and a run of the generator *)

(** A black pixel followed by a white one. *)
Definition twoPixels : Image :=
  {| width := 2; height := 1;
     data := [0; 0; 0; 255; 255; 255; 255; 255] |}.


Definition someSettings : Options :=
  {| isCancelled := false; framesCount := Fin 120 |}.

Definition someGaussian (k : nat) : Q :=
  match k with
  | O => 1 # 2
  | S O => - (3 # 4)
  | _ => 0
  end.

Definition started (image : Image) : Loader :=
  fst (scheduleWork (initial image someSettings 0)).

Lemma twoPixels_wf : wf_image twoPixels.
Proof.
  unfold wf_image, Uint32_modulus. simpl.
  repeat split; try lia. repeat constructor; unfold byte; lia.
Qed.

Lemma twoPixels_started :
  loadParticles twoPixels (Some someSettings) 0
  = inr (started twoPixels, [SetTimeout0]).
Proof. reflexivity. Qed.

Lemma layout_invariants_witness :
  is_Some (resolved (fst (run lightness someGaussian
                            (TimerFires <$> [0; 0; 0]%nat)
                            (started twoPixels)))) /\
  sum (bucketColors
         (fst (run lightness someGaussian (TimerFires <$> [0; 0; 0]%nat)
                 (started twoPixels)))) = 2.
Proof.
  pose proof (layout_invariants lightness someGaussian twoPixels
                someSettings 0 (started twoPixels) [SetTimeout0]
                lightness_in_unit twoPixels_wf twoPixels_started)
    as [H1 H2].
  pose proof (H2 eq_refl [0; 0; 0]%nat eq_refl) as Hr.
  split; [exact Hr|].
  destruct Hr as [r Hr].
  exact (proj1 (H1 _ r Hr)).
Defined.

(** A single pixel, and a generator whose first sample is the double
    -0.5245443778980392. *)
Definition onePixel : Image :=
  {| width := 1; height := 1; data := [0; 0; 0; 255] |}.

Definition oneGaussian (k : nat) : Q :=
  - (1181168932420449 # 2251799813685248).

(** C4, as the claim states it, fails: the buffer is an array of singles,
    and the jitter it keeps of the only pixel, -0.524544358253479, the
    single nearest to the sample, is above the upper span, which is the
    sample itself. *)
Lemma stored_jitter_exceeds_span :
  exists (r : Particles) (p : Particle),
    resolved (fst (run lightness oneGaussian [TimerFires 0; TimerFires 0]
                     (started onePixel))) = Some r /\
    res_particleAttributes r = [p] /\
    res_maxFrameSpan r = Fin (- (1181168932420449 # 2251799813685248)) /\
    jitter p = Fin (- (4400197 # 8388608)) /\
    num_lt (res_maxFrameSpan r) (jitter p) = true.
Proof.
  do 2 eexists. split; [vm_compute; reflexivity|].
  vm_compute. repeat split.
Qed.

Lemma unit_one : in_unit (Fin 1).
Proof.
  exists 1%Q. split; [reflexivity|]. unfold Qle. simpl. lia.
Defined.

Lemma bucketNumber_in_bounds_witness :
  exists z : Z,
    bucketNumber (Fin 1) 2 = num_of_Z z /\ 0 <= z < 2 /\
    array_index (length [0; 0]) (bucketNumber (Fin 1) 2)
      = Some (Z.to_nat z) /\
    is_Some ([0; 0] !! Z.to_nat z) /\
    is_Some (snd (incrementBucket [0; 0] (bucketNumber (Fin 1) 2))).
Proof.
  apply (bucketNumber_in_bounds (Fin 1) 2 [0; 0] unit_one).
  - lia.
  - lia.
  - reflexivity.
Defined.




End LoadParticlesFacts.

(** ** The configuration: from the scene to the chart and its loader *)

Module ConfigurationFacts.
Import LoadParticles LoadParticlesFacts.

(** A scene that asks for one bucket and for the expanded initial state. *)
Definition someScene : Scene.State :=
  {| Scene.canvas := PixChartFacts.someCanvas;
     Scene.image := None;
     Scene.duration := Scene.DEFAULT_ANIMATION_DURATION;
     Scene.bucketCount := Fin 1;
     Scene.maxPixels := Fin 409600;
     Scene.currentColorGroupBy := "hsl.l";
     Scene.initialImageState := "expanded";
     Scene.paused := false;
     Scene.isFirstRun := false;
     Scene.currentPixChart := None;
     Scene.queue := [Some "a.png"%string];
     Scene.lastIndex := 0;
     Scene.pendingTimeout := None;
     Scene.qs := ∅ |}.

(** The chart [pixChart] makes of the options of [someScene]. *)
Definition someSceneChart : PixChart.Chart :=
  {| PixChart.initialState := PixChart.ANIMATION_COLLAPSE;
     PixChart.state := PixChart.ANIMATION_COLLAPSE;
     PixChart.nextAnimationFrame := false;
     PixChart.pendingTimeout := false;
     PixChart.disposed := false;
     PixChart.framesCount := Fin (2 * 60);
     PixChart.currentFrameNumber := Fin 0;
     PixChart.particleLoaderSettings :=
       {| isCancelled := false; framesCount := Fin (2 * 60) |};
     PixChart.progress :=
       {| PixChart.total := 0; PixChart.current := 0;
          PixChart.step := PixChart.step_image |};
     PixChart.minFrameSpan := NaN; PixChart.maxFrameSpan := NaN;
     PixChart.frameChangeRate := NaN |}.

Lemma someSceneChart_made :
  PixChart.pixChart (Scene.pixChartOptions someScene) = inr someSceneChart.
Proof. reflexivity. Qed.

Lemma processAll_buckets rgbToHsl_l gaussian k : forall L,
  length (bucketColors (processAll rgbToHsl_l gaussian k L))
  = length (bucketColors L).
Proof.
  induction k as [|k IH]; intros L; [reflexivity|].
  simpl. rewrite IH. unfold processPixel, incrementBucket.
  destruct (array_index _ _) as [i|]; [|reflexivity].
  destruct (bucketColors L !! i); [|reflexivity].
  simpl. apply length_insert.
Qed.

(** C2: the scene keeps a bucket count, [setBucketCount] stores it and
    writes it to the query string, and [createPixChart] hands it to the
    chart; the loader never reads it.  Here the scene asks for one bucket
    and the options of the chart say so, yet the loader of a two-pixel
    image works with two buckets, and fills both. *)
Lemma bucketCount_option_is_ignored :
  PixChart.bucketCount (Scene.pixChartOptions someScene) = Some (Fin 1) /\
  PixChart.pixChart (Scene.pixChartOptions someScene)
    = inr someSceneChart /\
  loadParticles twoPixels
    (Some (PixChart.particleLoaderSettings someSceneChart)) 0
    = inr (started twoPixels, [SetTimeout0]) /\
  bucketsCount (started twoPixels) = 2 /\
  bucketColors
    (fst (run lightness someGaussian [TimerFires 5] (started twoPixels)))
    = [1; 1].
Proof.
  split; [reflexivity|]. split; [reflexivity|]. split; [reflexivity|].
  split; [reflexivity|]. vm_compute. reflexivity.
Qed.

(** X19: as the loader is written, the number of buckets is the number of
    pixels, [width * height], whatever its options: a loader that has
    started keeps that number, and an array of that many counters, as long
    as it runs. *)
Theorem bucketsCount_is_pixel_count rgbToHsl_l gaussian
    (options : Options) (image : Image) (random0 : nat)
    (L0 : Loader) (out0 : list Effect) :
  loadParticles image (Some options) random0 = inr (L0, out0) ->
  forall es,
    bucketsCount (fst (run rgbToHsl_l gaussian es L0))
      = width image * height image /\
    length (bucketColors (fst (run rgbToHsl_l gaussian es L0)))
      = Z.to_nat (width image * height image).
Proof.
  intros Hload es.
  destruct (loadParticles_started _ _ _ _ _ Hload) as (_ & _ & -> & _).
  set (Li := initial image options random0).
  assert (Hi : idx Li = 0) by reflexivity.
  destruct (run_reached rgbToHsl_l gaussian Li Hi es _
              (scheduleWork_reached rgbToHsl_l gaussian Li eq_refl))
    as (k & Hd & _).
  rewrite <- processAll_data in Hd.
  destruct (data_fields _ _ Hd) as (Eb & Ebc & _ & _).
  destruct (processAll_static rgbToHsl_l gaussian k Li) as (_ & Ec & _).
  rewrite Eb, Ebc, Ec, processAll_buckets. simpl.
  split; [reflexivity | apply length_replicate].
Qed.

Lemma bucketsCount_is_pixel_count_witness :
  bucketsCount (fst (run lightness someGaussian [TimerFires 5; Cancel]
                       (started twoPixels)))
    = width twoPixels * height twoPixels /\
  length (bucketColors
            (fst (run lightness someGaussian [TimerFires 5; Cancel]
                    (started twoPixels))))
    = Z.to_nat (width twoPixels * height twoPixels).
Proof.
  exact (bucketsCount_is_pixel_count lightness someGaussian
           someSettings twoPixels 0 (started twoPixels) [SetTimeout0]
           twoPixels_started [TimerFires 5; Cancel]).
Defined.

(** C5: the scene keeps an initial state, [setInitialState] stores it, and
    [createPixChart] hands [collapsed] to the chart; [pixChart] never reads
    it, although its frame number is chosen by the initial state.  Here
    the scene asks for the expanded initial state, the options of the
    chart say [collapsed: false], and the chart starts in the collapse
    phase all the same. *)
Lemma collapsed_option_is_ignored :
  Scene.initialImageState someScene = "expanded"%string /\
  PixChart.collapsed (Scene.pixChartOptions someScene) = Some false /\
  PixChart.pixChart (Scene.pixChartOptions someScene)
    = inr someSceneChart /\
  PixChart.initialState someSceneChart = PixChart.ANIMATION_COLLAPSE /\
  PixChart.state someSceneChart = PixChart.ANIMATION_COLLAPSE.
Proof. repeat split. Qed.

End ConfigurationFacts.

(** ** The setters of the scene *)

Module SceneFacts.
Import Scene.

Section Host.

Variable parseInt10 : string -> num.
Variable parseFloat : string -> num.

(** C10: an input that does not parse to a valid value leaves the scene
    as it is: the state, the query string included, is unchanged and no
    call is made on the chart, the host or the queue.  That holds for
    [setAnimationDuration] when [parseFloat] yields NaN, for
    [setBucketCount] when [parseInt] yields NaN or a number below 1, and
    for [setMaxPixels] when [parseInt] yields NaN. *)
Theorem invalid_input_is_ignored (input : string) (s : State) :
  (isNaN (parseFloat input) = true ->
   setAnimationDuration parseFloat input s = (s, [])) /\
  (isNaN (parseInt10 input) = true \/
   num_lt (parseInt10 input) (Fin 1) = true ->
   setBucketCount parseInt10 input s = (s, [])) /\
  (isNaN (parseInt10 input) = true ->
   setMaxPixels parseInt10 input s = (s, [])).
Proof.
  repeat split.
  - intros H. unfold setAnimationDuration. rewrite H. reflexivity.
  - intros [H|H]; unfold setBucketCount; rewrite H;
      [reflexivity | rewrite orb_true_r; reflexivity].
  - intros H. unfold setMaxPixels. rewrite H. reflexivity.
Qed.

End Host.

(** Two calls on [ConfigurationFacts.someScene], read with [decimal] for
    both parsers: a word is ignored, a number is taken. *)
Lemma invalid_input_is_ignored_witness :
  setAnimationDuration decimal "fast" ConfigurationFacts.someScene
    = (ConfigurationFacts.someScene, []) /\
  setBucketCount decimal "0" ConfigurationFacts.someScene
    = (ConfigurationFacts.someScene, []) /\
  setBucketCount decimal "many" ConfigurationFacts.someScene
    = (ConfigurationFacts.someScene, []) /\
  setMaxPixels decimal "" ConfigurationFacts.someScene
    = (ConfigurationFacts.someScene, []).
Proof.
  pose proof (invalid_input_is_ignored decimal decimal "fast"
                ConfigurationFacts.someScene) as (H1 & _ & _).
  pose proof (invalid_input_is_ignored decimal decimal "0"
                ConfigurationFacts.someScene) as (_ & H2 & _).
  pose proof (invalid_input_is_ignored decimal decimal "many"
                ConfigurationFacts.someScene) as (_ & H3 & _).
  pose proof (invalid_input_is_ignored decimal decimal ""
                ConfigurationFacts.someScene) as (_ & _ & H4).
  split; [exact (H1 eq_refl)|].
  split; [exact (H2 (or_intror eq_refl))|].
  split; [exact (H3 (or_introl eq_refl))|].
  exact (H4 eq_refl).
Defined.

Lemma valid_input_is_taken :
  bucketCount (fst (setBucketCount decimal "3" ConfigurationFacts.someScene))
    = Fin (inject_Z 3) /\
  qs (fst (setBucketCount decimal "3" ConfigurationFacts.someScene))
    !! "bc"%string = Some (QsNumber (Fin (inject_Z 3))) /\
  duration (fst (setAnimationDuration decimal "5"
                   ConfigurationFacts.someScene)) = Fin (inject_Z 5).
Proof. repeat split. Qed.

End SceneFacts.

(** * Further properties *)

(** ** The particle loader: what a resolved promise holds *)

Module LoadParticlesMore.
Import LoadParticles LoadParticlesFacts.

Section Engine.

Variable rgbToHsl_l : option Z -> option Z -> option Z -> num.
Variable gaussian : nat -> Q.

Local Abbreviation processPixel := (processPixel rgbToHsl_l gaussian).
Local Abbreviation processAll := (processAll rgbToHsl_l gaussian).
Local Abbreviation run := (run rgbToHsl_l gaussian).

(** *** Which pixel a particle stands for *)

Lemma processPixel_spans L :
  minFrameSpan (processPixel L)
  = (if num_lt (Fin (gaussian (random L))) (minFrameSpan L)
     then Fin (gaussian (random L)) else minFrameSpan L) /\
  maxFrameSpan (processPixel L)
  = (if num_gt (Fin (gaussian (random L))) (maxFrameSpan L)
     then Fin (gaussian (random L)) else maxFrameSpan L) /\
  random (processPixel L) = S (random L).
Proof.
  unfold LoadParticles.processPixel.
  destruct (incrementBucket _ _). repeat split.
Qed.

Lemma processAll_random Li : forall k : nat,
  random (processAll k Li) = (random Li + k)%nat.
Proof.
  induction k as [|k IH]; [simpl; lia|].
  rewrite processAll_S.
  destruct (processPixel_spans (processAll k Li)) as (_ & _ & ->).
  rewrite IH. lia.
Qed.

Lemma processPixel_slot L (k : nat) :
  idx L = 4 * Z.of_nat k ->
  (k < length (particleAttributes L))%nat ->
  Z.of_nat k < n L -> n L <= 2 ^ 53 ->
  exists p,
    particleAttributes (processPixel L)
      = <[k := p]> (particleAttributes L) /\
    sourceIndex p = fround (num_of_Z (n L - 1 - Z.of_nat k)) /\
    jitter p = fround (Fin (gaussian (random L))) /\
    value p = fround (pixelValue rgbToHsl_l (pixels L)
                        (n L - 1 - Z.of_nat k)).
Proof.
  intros Hidx Hk Hkn H53.
  set (i := n L - 1 - Z.of_nat k).
  assert (Einv : 4 * n L - idx L - 4 = 4 * i) by (subst i; lia).
  assert (Ediv : idx L / 4 = Z.of_nat k).
  { rewrite Hidx, Z.mul_comm, Z.div_mul; lia. }
  destruct (lookup_lt_is_Some_2 (particleAttributes L) k Hk) as [p0 Hp0].
  assert (Eslot : zlookup (particleAttributes L) (Z.of_nat k) = Some p0).
  { unfold zlookup. destruct (Z.ltb_spec (Z.of_nat k) 0); [lia|].
    rewrite Nat2Z.id. exact Hp0. }
  unfold LoadParticles.processPixel, getValue.
  rewrite Einv. replace (4 * i + 0) with (4 * i) by lia.
  fold (pixelValue rgbToHsl_l (pixels L) i).
  destruct (incrementBucket _ _) as [bs cy].
  cbn [particleAttributes].
  rewrite Ediv, Eslot, Nat2Z.id.
  rewrite (quarter_exact i) by (subst i; lia).
  eexists. split; [reflexivity|]. cbn [sourceIndex jitter value].
  repeat split.
Qed.

(** Particle [j] of loader [L], against the image [Li] started from. *)
Definition stands_for (Li : Loader) (j : nat) (p : Particle) : Prop :=
  sourceIndex p = fround (num_of_Z (n Li - 1 - Z.of_nat j)) /\
  jitter p = fround (Fin (gaussian (random Li + j))) /\
  value p = fround (pixelValue rgbToHsl_l (pixels Li)
                      (n Li - 1 - Z.of_nat j)).

Lemma processAll_stands_for Li (Hi : idx Li = 0) :
  n Li <= 2 ^ 53 ->
  forall k : nat,
    (k <= length (particleAttributes Li))%nat -> Z.of_nat k <= n Li ->
    forall j p,
      (j < k)%nat -> particleAttributes (processAll k Li) !! j = Some p ->
      stands_for Li j p.
Proof.
  intros H53. induction k as [|k IH]; intros Hk Hkn.
  - intros j p Hj. lia.
  - specialize (IH ltac:(lia) ltac:(lia)).
    rewrite processAll_S.
    destruct (processAll_static rgbToHsl_l gaussian k Li)
      as (En & _ & Epx & Eidx).
    destruct (processPixel_slot (processAll k Li) k)
      as (q & Ea & Hs & Hj & Hv).
    { rewrite Eidx, Hi. lia. }
    { rewrite processAll_length. lia. }
    { rewrite En. lia. }
    { rewrite En. exact H53. }
    intros j p Hjk Hp. rewrite Ea in Hp.
    destruct (decide (j = k)) as [->|Hne].
    + rewrite list_lookup_insert_eq in Hp
        by (rewrite processAll_length; lia).
      injection Hp as <-. unfold stands_for.
      rewrite Hv, Hs, Hj, processAll_random, En, Epx. repeat split.
    + rewrite list_lookup_insert_ne in Hp by congruence.
      apply (IH j p); [lia | exact Hp].
Qed.

(** X2: in the buffer of a resolved promise, particle [j] stands for
    pixel [width * height - 1 - j]: the buffer, an array of singles, keeps
    for it the rounding to single precision of that index, which is the
    index itself on an image of at most [2 ^ 24] pixels, of what the
    colour library makes of the three bytes of that pixel, and of sample
    [j] of those the loader is handed. *)
Theorem particle_stands_for_pixel image options random0 es r j p :
  width image * height image <= 2 ^ 53 ->
  resolved (fst (run es (fst (scheduleWork
                                (initial image options random0)))))
    = Some r ->
  res_particleAttributes r !! j = Some p ->
  let i := width image * height image - 1 - Z.of_nat j in
  0 <= i < width image * height image /\
  sourceIndex p = fround (num_of_Z i) /\
  (width image * height image <= 2 ^ 24 -> sourceIndex p = num_of_Z i) /\
  jitter p = fround (Fin (gaussian (random0 + j))) /\
  value p = fround (pixelValue rgbToHsl_l (data image) i).
Proof.
  intros H53 Hr Hp i.
  destruct (resolved_whole rgbToHsl_l gaussian image options random0
              es r Hr) as (_ & _ & ->).
  cbn [particlesOf res_particleAttributes] in Hp.
  set (Li := initial image options random0) in *.
  set (k := Z.to_nat (width image * height image)) in *.
  assert (Hlen : length (particleAttributes Li) = k)
    by apply length_replicate.
  assert (Hj : (j < k)%nat).
  { apply lookup_lt_Some in Hp. rewrite processAll_length, Hlen in Hp.
    exact Hp. }
  destruct (processAll_stands_for Li eq_refl H53 k ltac:(lia)
              ltac:(subst k; simpl; lia) j p Hj Hp) as (Hs & Hjit & Hv).
  simpl in Hs, Hjit, Hv. fold i in Hs, Hv.
  assert (Hi : 0 <= i < width image * height image) by (subst i k; lia).
  split; [exact Hi|]. split; [exact Hs|]. split; [|split; assumption].
  intros H24. rewrite Hs. cbn [fround num_of_Z].
  apply Rounding.binary32_Z. lia.
Qed.

(** *** The spans are the least and the greatest sample *)

Definition spans_of_samples (L : Loader) (random0 k : nat) : Prop :=
  exists i j : nat,
    (i < k)%nat /\ (j < k)%nat /\
    minFrameSpan L = Fin (gaussian (random0 + i)) /\
    maxFrameSpan L = Fin (gaussian (random0 + j)) /\
    forall t : nat, (t < k)%nat ->
      (gaussian (random0 + i) <= gaussian (random0 + t))%Q /\
      (gaussian (random0 + t) <= gaussian (random0 + j))%Q.

Lemma processAll_spans Li :
  minFrameSpan Li = PosInf -> maxFrameSpan Li = NegInf ->
  forall k : nat,
    random (processAll (S k) Li) = (random Li + S k)%nat /\
    spans_of_samples (processAll (S k) Li) (random Li) (S k).
Proof.
  intros Hlo Hhi. induction k as [|k IH].
  - change (processAll 1 Li) with (processPixel Li).
    destruct (processPixel_spans Li) as (Emin & Emax & Er).
    split; [rewrite Er; lia|].
    exists 0%nat, 0%nat. rewrite Emin, Emax, Hlo, Hhi.
    unfold num_gt. simpl. rewrite Nat.add_0_r.
    repeat split; try lia; try reflexivity;
      assert (t = 0%nat) as -> by lia; rewrite Nat.add_0_r; lra.
  - destruct IH as [Hrand (i & j & Hi & Hj & Emin & Emax & Hall)].
    rewrite (processAll_S rgbToHsl_l gaussian (S k)).
    destruct (processPixel_spans (processAll (S k) Li))
      as (Emin' & Emax' & Er').
    split; [rewrite Er', Hrand; lia|].
    rewrite Hrand, Emin in Emin'. rewrite Hrand, Emax in Emax'.
    unfold num_gt in Emax'. simpl in Emin', Emax'.
    set (g := gaussian (random Li + S k)) in *.
    assert (Hlow :
      exists i', (i' < S (S k))%nat /\
        minFrameSpan (processPixel (processAll (S k) Li))
          = Fin (gaussian (random Li + i')) /\
        forall t, (t < S (S k))%nat ->
          (gaussian (random Li + i') <= gaussian (random Li + t))%Q).
    { destruct (Qltb g (gaussian (random Li + i))) eqn:E.
      - apply Qltb_lt in E. exists (S k). split; [lia|].
        split; [exact Emin'|]. intros t Ht.
        destruct (decide (t = S k)) as [->|Hne]; [lra|].
        destruct (Hall t ltac:(lia)) as [H1 _]. fold g. lra.
      - apply Qltb_ge in E. exists i. split; [lia|].
        split; [exact Emin'|]. intros t Ht.
        destruct (decide (t = S k)) as [->|Hne]; [exact E|].
        apply (Hall t). lia. }
    assert (Hupp :
      exists j', (j' < S (S k))%nat /\
        maxFrameSpan (processPixel (processAll (S k) Li))
          = Fin (gaussian (random Li + j')) /\
        forall t, (t < S (S k))%nat ->
          (gaussian (random Li + t) <= gaussian (random Li + j'))%Q).
    { destruct (Qltb (gaussian (random Li + j)) g) eqn:E.
      - apply Qltb_lt in E. exists (S k). split; [lia|].
        split; [exact Emax'|]. intros t Ht.
        destruct (decide (t = S k)) as [->|Hne]; [lra|].
        destruct (Hall t ltac:(lia)) as [_ H2]. fold g. lra.
      - apply Qltb_ge in E. exists j. split; [lia|].
        split; [exact Emax'|]. intros t Ht.
        destruct (decide (t = S k)) as [->|Hne]; [exact E|].
        apply (Hall t). lia. }
    destruct Hlow as (i' & Hi' & Ei' & Hmin).
    destruct Hupp as (j' & Hj' & Ej' & Hmax).
    exists i', j'. repeat split; try assumption.
    + apply Hmin. assumption.
    + apply Hmax. assumption.
Qed.

(** X3: for an image of at least one pixel, the two spans of a resolved
    promise are samples the loader drew, the least and the greatest of the
    [width * height] it drew; so both are finite and the lower one is not
    above the upper one. *)
Theorem spans_are_extreme_samples image options random0 es r :
  0 < width image * height image ->
  resolved (fst (run es (fst (scheduleWork
                                (initial image options random0)))))
    = Some r ->
  exists i j : nat,
    (i < Z.to_nat (width image * height image))%nat /\
    (j < Z.to_nat (width image * height image))%nat /\
    res_minFrameSpan r = Fin (gaussian (random0 + i)) /\
    res_maxFrameSpan r = Fin (gaussian (random0 + j)) /\
    forall t : nat, (t < Z.to_nat (width image * height image))%nat ->
      (gaussian (random0 + i) <= gaussian (random0 + t))%Q /\
      (gaussian (random0 + t) <= gaussian (random0 + j))%Q.
Proof.
  intros Hn Hr.
  destruct (resolved_whole rgbToHsl_l gaussian image options random0
              es r Hr) as (_ & _ & ->).
  cbn [particlesOf res_minFrameSpan res_maxFrameSpan].
  destruct (Z.to_nat (width image * height image)) as [|k] eqn:Ek; [lia|].
  destruct (processAll_spans (initial image options random0)
              eq_refl eq_refl k) as [_ H].
  exact H.
Qed.

End Engine.

(** *** What a loader tells its caller *)

Definition settles (e : Effect) : bool :=
  match e with Resolve _ => true | _ => false end.

Section Trace.

Variable rgbToHsl_l : option Z -> option Z -> option Z -> num.
Variable gaussian : nat -> Q.

Local Abbreviation processPixel := (processPixel rgbToHsl_l gaussian).
Local Abbreviation processPixels := (processPixels rgbToHsl_l gaussian).
Local Abbreviation processAll := (processAll rgbToHsl_l gaussian).
Local Abbreviation step := (step rgbToHsl_l gaussian).
Local Abbreviation run := (run rgbToHsl_l gaussian).
Local Abbreviation progress_of := (progress_of rgbToHsl_l gaussian).
Local Abbreviation reached := (reached rgbToHsl_l gaussian).

(** [1] once the promise is settled. *)
Definition settled (L : Loader) : nat :=
  match resolved L with Some _ => 1%nat | None => 0%nat end.

(** The output of one batch: reports of a number of pixels that is at
    most that of the image, and a resolution only if the promise is
    settled by it. *)
Definition batch_output (Li L1 : Loader) (out : list Effect) : Prop :=
  (forall p, OnProgress p ∈ out -> 0 <= p <= Z.max 0 (n Li)) /\
  (forall r, Resolve r ∈ out -> resolved L1 = Some r) /\
  (length (filter (fun e => settles e = true) out) <= settled L1)%nat.

Lemma batch_output_nil Li L1 : batch_output Li L1 [].
Proof.
  split; [|split].
  - intros p H. inversion H.
  - intros r H. inversion H.
  - simpl. lia.
Qed.

Lemma batch_output_resolve Li L1 r :
  resolved L1 = Some r -> batch_output Li L1 [Resolve r].
Proof.
  intros Hr. split; [|split].
  - intros p H. apply list_elem_of_singleton in H. discriminate.
  - intros r' H. apply list_elem_of_singleton in H. congruence.
  - unfold settled. rewrite Hr. simpl. lia.
Qed.

Lemma batch_output_report Li L1 (p : Z) (b : bool) :
  0 <= p <= Z.max 0 (n Li) ->
  batch_output Li L1 ((if b then [OnProgress p] else []) ++ [SetTimeout0]).
Proof.
  intros Hp. split; [|split].
  - intros q H. destruct b; simpl in H.
    + apply elem_of_cons in H as [H|H]; [injection H as ->; exact Hp|].
      apply list_elem_of_singleton in H. discriminate.
    + apply list_elem_of_singleton in H. discriminate.
  - intros r H. destruct b; simpl in H.
    + apply elem_of_cons in H as [H|H]; [discriminate|].
      apply list_elem_of_singleton in H. discriminate.
    + apply list_elem_of_singleton in H. discriminate.
  - destruct b; simpl; lia.
Qed.

Lemma scheduleWork_output Li L k :
  idx Li = 0 -> progress_of Li L k ->
  batch_output Li (fst (scheduleWork L)) (snd (scheduleWork L)).
Proof.
  intros Hi HP.
  destruct (progress_idx rgbToHsl_l gaussian Li L k Hi HP) as [Hidx Hn].
  destruct HP as (_ & Hk & _).
  assert (Ediv : idx L / 4 = Z.of_nat k).
  { rewrite Hidx, Z.mul_comm, Z.div_mul; lia. }
  unfold scheduleWork. destruct (cancelled L); cbn [fst snd].
  - apply batch_output_nil.
  - apply batch_output_report. rewrite Ediv. lia.
Qed.

Lemma processPixels_output Li (Hi : idx Li = 0) budget :
  forall L k,
    progress_of Li L k -> timer L = false -> resolved L = None ->
    batch_output Li (fst (processPixels budget L))
      (snd (processPixels budget L)).
Proof.
  induction budget as [|budget IH]; intros L k HP Ht Hr;
    destruct (progress_idx rgbToHsl_l gaussian Li L k Hi HP) as [Hidx Hn];
    pose proof HP as (Hd & Hk & _ & _);
    simpl; destruct (Z.ltb_spec (idx L) (4 * n L)) as [Hlt|Hge].
  - destruct (processPixel_control rgbToHsl_l gaussian L)
      as (_ & _ & Ht1 & Hr1).
    apply (scheduleWork_output Li (processPixel L) (S k) Hi).
    split; [|split; [|split]].
    + rewrite processPixel_data, Hd, processAll_S. reflexivity.
    + lia.
    + intros _. rewrite Hr1. exact Hr.
    + intros r H. rewrite Hr1, Hr in H. discriminate.
  - unfold actualResolve. rewrite Hr. cbn [fst snd].
    apply batch_output_resolve. reflexivity.
  - destruct (processPixel_control rgbToHsl_l gaussian L)
      as (_ & _ & Ht1 & Hr1).
    apply (IH (processPixel L) (S k)).
    + split; [|split; [|split]].
      * rewrite processPixel_data, Hd, processAll_S. reflexivity.
      * lia.
      * intros _. rewrite Hr1. exact Hr.
      * intros r H. rewrite Hr1, Hr in H. discriminate.
    + rewrite Ht1. exact Ht.
    + rewrite Hr1. exact Hr.
  - unfold actualResolve. rewrite Hr. cbn [fst snd].
    apply batch_output_resolve. reflexivity.
Qed.

Lemma run_output Li (Hi : idx Li = 0) es :
  forall L,
    reached Li L ->
    (forall p, OnProgress p ∈ snd (run es L) -> 0 <= p <= Z.max 0 (n Li)) /\
    (forall r, Resolve r ∈ snd (run es L) ->
       resolved (fst (run es L)) = Some r) /\
    (length (filter (fun e => settles e = true) (snd (run es L)))
     + settled L <= 1)%nat.
Proof.
  induction es as [|e es IH]; intros L HR.
  - split; [|split].
    + intros p H. inversion H.
    + intros r H. inversion H.
    + unfold settled. destruct (resolved L); simpl; lia.
  - assert (Hstep :
      batch_output Li (fst (step e L)) (snd (step e L)) /\
      (settled L <= settled (fst (step e L)))%nat /\
      (is_Some (resolved L) -> snd (step e L) = [])).
    { destruct HR as (k & HP). pose proof HP as (Hd & Hk & Hpend & Hres).
      destruct e as [budget|]; cbn [LoadParticles.step].
      - destruct (timer L) eqn:Ht.
        + assert (Hnone : resolved L = None) by exact (Hpend eq_refl).
          split; [|split].
          * apply (processPixels_output Li Hi budget (set_timer false L) k).
            -- split; [|split; [|split]]; try assumption.
               intros _. exact Hnone.
            -- reflexivity.
            -- exact Hnone.
          * unfold settled at 1. rewrite Hnone. lia.
          * intros [r Hr]. congruence.
        + cbn [fst snd].
          split; [apply batch_output_nil|]. split; [lia|reflexivity].
      - cbn [fst snd].
        split; [apply batch_output_nil|]. split; [|reflexivity].
        unfold settled. simpl. lia. }
    pose proof (step_reached rgbToHsl_l gaussian Li Hi e L HR) as HR1.
    change (run (e :: es) L)
      with (let '(L1, out1) := step e L in
            let '(L2, out2) := run es L1 in (L2, out1 ++ out2)).
    destruct (step e L) as [L1 out1]. cbn [fst snd] in *.
    destruct (IH L1 HR1) as (I1 & I2 & I3).
    assert (Hkeep : is_Some (resolved L1) ->
                    resolved (fst (run es L1)) = resolved L1).
    { intros Hs. destruct HR1 as (k1 & _ & _ & Hp1 & _).
      assert (Ht1 : timer L1 = false).
      { destruct (timer L1); [|reflexivity].
        rewrite (Hp1 eq_refl) in Hs. destruct Hs as [? Hs]. discriminate. }
      apply (idle_run rgbToHsl_l gaussian es L1 Ht1). }
    destruct (run es L1) as [L2 out2]. cbn [fst snd] in *.
    destruct Hstep as ((B1 & B2 & B3) & Hmono & Hdone).
    split; [|split].
    + intros p Hp. apply elem_of_app in Hp as [Hp|Hp]; [apply B1|apply I1];
        exact Hp.
    + intros r Hr. apply elem_of_app in Hr as [Hr|Hr].
      * rewrite Hkeep by (rewrite (B2 r Hr); eauto). apply B2. exact Hr.
      * apply I2. exact Hr.
    + rewrite filter_app, length_app.
      destruct (resolved L) as [r0|] eqn:E0.
      * rewrite (Hdone ltac:(eauto)). unfold settled in *. rewrite E0 in *.
        simpl. lia.
      * unfold settled in *. rewrite E0 in *. lia.
Qed.

(** X4: whatever the timers and the flag do, a loader reports as progress
    only numbers of pixels from 0 to [width * height]; it resolves its
    promise at most once; and what it resolved it with is what the promise
    holds from then on. *)
Theorem loader_output image options random0 es :
  let L0 := fst (scheduleWork (initial image options random0)) in
  (forall p, OnProgress p ∈ snd (run es L0) ->
     0 <= p <= Z.max 0 (width image * height image)) /\
  (length (filter (fun e => settles e = true) (snd (run es L0))) <= 1)%nat /\
  (forall r, Resolve r ∈ snd (run es L0) ->
     resolved (fst (run es L0)) = Some r).
Proof.
  intros L0.
  destruct (run_output (initial image options random0) eq_refl es L0)
    as (H1 & H2 & H3).
  { apply scheduleWork_reached. reflexivity. }
  split; [exact H1|]. split; [lia | exact H2].
Qed.

(** X5: without options [loadParticles] throws; with options whose flag
    is already set it schedules nothing, once the canvas has given its
    pixels (a canvas of no width or no height makes it throw): no timer
    is pending, and whatever happens afterwards the loader reports nothing
    and never resolves. *)
Theorem loader_cancelled_from_the_start image options random0 es :
  loadParticles image None random0 = inl "Options required"%string /\
  (isCancelled options = true ->
   loadParticles image (Some options) random0
     = (if (width image =? 0) || (height image =? 0)
        then inl "IndexSizeError"%string
        else inr (initial image options random0, [])) /\
   snd (run es (initial image options random0)) = [] /\
   resolved (fst (run es (initial image options random0))) = None).
Proof.
  split; [reflexivity|]. intros Hc. split.
  - destruct (Z.eqb_spec (width image) 0) as [Ew|Hw].
    { apply loadParticles_zero_sized. left. exact Ew. }
    destruct (Z.eqb_spec (height image) 0) as [Eh|Hh].
    { apply loadParticles_zero_sized. right. exact Eh. }
    rewrite loadParticles_initial by assumption. unfold scheduleWork.
    change (cancelled (initial image options random0))
      with (isCancelled options).
    rewrite Hc. reflexivity.
  - destruct (idle_run rgbToHsl_l gaussian es
                (initial image options random0) eq_refl)
      as (_ & Hr & _ & Ho).
    split; [exact Ho | exact Hr].
Qed.

End Trace.

(** *** Two loaders of one image *)

Section TwoLoaders.

Variable rgbToHsl_l : option Z -> option Z -> option Z -> num.
Variables gaussian1 gaussian2 : nat -> Q.

(** A loader with its control variables and the number of samples it
    drew put aside. *)
Definition samples_aside (L : Loader) : Loader :=
  {| cancelled := false; initIntervals := 0;
     n := n L; bucketsCount := bucketsCount L; maxYValue := maxYValue L;
     pixels := pixels L; idx := idx L; minFrameSpan := minFrameSpan L;
     maxFrameSpan := maxFrameSpan L;
     particleAttributes := particleAttributes L;
     bucketColors := bucketColors L; random := 0%nat;
     timer := false; resolved := None |}.

Lemma processPixel_samples L1 L2 :
  samples_aside L1 = samples_aside L2 ->
  gaussian1 (random L1) = gaussian2 (random L2) ->
  samples_aside (processPixel rgbToHsl_l gaussian1 L1)
  = samples_aside (processPixel rgbToHsl_l gaussian2 L2).
Proof.
  destruct L1 as [c1 ii1 n1 bc1 my1 px1 ix1 mn1 mx1 pa1 bk1 rd1 tm1 rs1].
  destruct L2 as [c2 ii2 n2 bc2 my2 px2 ix2 mn2 mx2 pa2 bk2 rd2 tm2 rs2].
  unfold samples_aside at 1 2.
  cbn [n bucketsCount maxYValue pixels idx minFrameSpan maxFrameSpan
       particleAttributes bucketColors random].
  intros H Hg. injection H as -> -> -> -> -> -> -> -> ->.
  unfold processPixel.
  cbn [cancelled initIntervals n bucketsCount maxYValue pixels idx
       minFrameSpan maxFrameSpan particleAttributes bucketColors random
       timer resolved].
  rewrite Hg. destruct (incrementBucket _ _) as [bs cy]. reflexivity.
Qed.

Lemma processAll_samples : forall (k : nat) L1 L2,
  samples_aside L1 = samples_aside L2 ->
  (forall j : nat, (j < k)%nat ->
     gaussian1 (random L1 + j) = gaussian2 (random L2 + j)) ->
  samples_aside (processAll rgbToHsl_l gaussian1 k L1)
  = samples_aside (processAll rgbToHsl_l gaussian2 k L2).
Proof.
  induction k as [|k IH]; intros L1 L2 H Hg; [exact H|].
  rewrite !processAll_S. apply processPixel_samples.
  - apply IH; [exact H|]. intros j Hj. apply Hg. lia.
  - rewrite !processAll_random. apply Hg. lia.
Qed.

(** X1: the clock does not show in the result.  Two loaders of the same
    image that are handed the same samples, sample by sample (the first
    loaders of two visits of the page are, the generator being seeded
    with 42; two loaders that run at the same time share the generator
    and need not be), and that both get to resolve their promise, resolve
    it with the same particles, however the batches were cut, whenever
    the flag was set and whatever the options were: those of the image
    processed in one go. *)
Theorem result_independent_of_schedule image options1 options2
    random1 random2 es1 es2 r1 r2 :
  (forall j : nat, (j < Z.to_nat (width image * height image))%nat ->
     gaussian1 (random1 + j) = gaussian2 (random2 + j)) ->
  resolved (fst (run rgbToHsl_l gaussian1 es1
                   (fst (scheduleWork (initial image options1 random1)))))
    = Some r1 ->
  resolved (fst (run rgbToHsl_l gaussian2 es2
                   (fst (scheduleWork (initial image options2 random2)))))
    = Some r2 ->
  r1 = r2 /\
  r1 = particlesOf
         (processAll rgbToHsl_l gaussian1
            (Z.to_nat (width image * height image))
            (initial image options1 random1)).
Proof.
  intros Hg H1 H2.
  destruct (resolved_whole rgbToHsl_l gaussian1 image options1 random1
              es1 r1 H1) as (_ & _ & ->).
  destruct (resolved_whole rgbToHsl_l gaussian2 image options2 random2
              es2 r2 H2) as (_ & _ & ->).
  split; [|reflexivity].
  set (k := Z.to_nat (width image * height image)) in *.
  pose proof (processAll_samples k (initial image options1 random1)
                (initial image options2 random2) eq_refl Hg) as E.
  change (particlesOf (samples_aside
            (processAll rgbToHsl_l gaussian1 k
               (initial image options1 random1)))
          = particlesOf (samples_aside
              (processAll rgbToHsl_l gaussian2 k
                 (initial image options2 random2)))).
  rewrite E. reflexivity.
Qed.

End TwoLoaders.

(** *** Stack heights count the particles of a bucket *)

Section Stacks.

Variable rgbToHsl_l : option Z -> option Z -> option Z -> num.
Variable gaussian : nat -> Q.

Local Abbreviation processPixel := (processPixel rgbToHsl_l gaussian).
Local Abbreviation processAll := (processAll rgbToHsl_l gaussian).
Local Abbreviation run := (run rgbToHsl_l gaussian).

(** The counter the particle of pixel [i] goes to, among [count] of
    them. *)
Definition slot_of (pixels : list Z) (count : Z) (i : Z) : option nat :=
  array_index (Z.to_nat count) (bucketOf rgbToHsl_l pixels count i).

(** How many of the first [j] particles, those of the pixels
    [count - 1], ..., [count - j], go to counter [z]. *)
Fixpoint in_bucket (pixels : list Z) (count : Z) (z : nat) (j : nat)
  : nat :=
  match j with
  | O => O
  | S j =>
      (in_bucket pixels count z j
       + if decide (slot_of pixels count (count - 1 - Z.of_nat j) = Some z)
         then 1 else 0)%nat
  end.

Lemma in_bucket_mono pixels count z (i j : nat) :
  (i <= j)%nat ->
  (in_bucket pixels count z i <= in_bucket pixels count z j)%nat.
Proof.
  induction 1 as [|j Hij IH]; [lia|]. cbn [in_bucket]. lia.
Qed.

(** After [k] pixels: each counter holds the number of particles that
    went to it, and the buffer keeps of each particle the number of those
    that went to its counter before it. *)
Definition stacked (L : Loader) (k : nat) : Prop :=
  (forall z : nat, (z < Z.to_nat (n L))%nat ->
     bucketColors L !! z
     = Some (Z.of_nat (in_bucket (pixels L) (n L) z k)))
  /\
  (forall (j : nat) (p : Particle),
     (j < k)%nat -> particleAttributes L !! j = Some p ->
     exists z : nat,
       slot_of (pixels L) (n L) (n L - 1 - Z.of_nat j) = Some z /\
       stackHeight p
       = fround (num_of_Z (Z.of_nat (in_bucket (pixels L) (n L) z j)))).

Lemma processPixel_stacked random0 L k :
  values_in_unit rgbToHsl_l ->
  idx L = 4 * Z.of_nat k -> Z.of_nat k < n L -> n L < Uint32_modulus ->
  bucketsCount L = n L ->
  Z.of_nat (length (pixels L)) = 4 * n L -> Forall byte (pixels L) ->
  layout_ok rgbToHsl_l gaussian random0 L k ->
  stacked L k -> stacked (processPixel L) (S k).
Proof.
  intros Hv Hidx Hk H32 Hbc Hlen Hbytes Hok [Hcount Hheight].
  destruct Hok as [Hlb Hla Hnn Hsum _ _ _ _ _].
  destruct (processPixel_fields rgbToHsl_l gaussian L k Hv Hidx Hk H32 Hbc
              Hlen Hbytes Hlb Hla Hnn Hsum)
    as (z & old & Ez & Hz & Hold & Hob & Eb & _ & Ea & _).
  destruct (processPixel_static rgbToHsl_l gaussian L)
    as (En & _ & Epx & _).
  rewrite Hbc in Ez.
  assert (Hkl : (k < length (particleAttributes L))%nat) by lia.
  assert (Eslot : slot_of (pixels L) (n L) (n L - 1 - Z.of_nat k)
                  = Some (Z.to_nat z)).
  { unfold slot_of. rewrite Ez. apply array_index_of_Z. lia. }
  assert (Eold : old = Z.of_nat (in_bucket (pixels L) (n L) (Z.to_nat z) k)).
  { rewrite (Hcount (Z.to_nat z)) in Hold by lia. congruence. }
  split.
  - intros z' Hz'. rewrite En, Epx in *. rewrite Eb. cbn [in_bucket].
    rewrite Eslot.
    destruct (decide (Z.to_nat z = z')) as [<-|Hne].
    + rewrite list_lookup_insert_eq by (apply lookup_lt_is_Some; eauto).
      destruct (decide (Some (Z.to_nat z) = Some (Z.to_nat z)));
        [|congruence].
      f_equal. lia.
    + rewrite list_lookup_insert_ne by exact Hne.
      destruct (decide (Some (Z.to_nat z) = Some z')); [congruence|].
      rewrite Nat.add_0_r. apply Hcount. exact Hz'.
  - intros j p Hj Hp. rewrite En, Epx, Ea in *.
    destruct (decide (j = k)) as [->|Hne].
    + rewrite list_lookup_insert_eq in Hp by exact Hkl.
      injection Hp as <-. exists (Z.to_nat z). split; [exact Eslot|].
      cbn [stored stackHeight]. rewrite Eold. reflexivity.
    + rewrite list_lookup_insert_ne in Hp by congruence.
      apply (Hheight j p); [lia | exact Hp].
Qed.

Lemma processAll_stacked image options random0 :
  values_in_unit rgbToHsl_l -> wf_image image ->
  forall k : nat,
    Z.of_nat k <= width image * height image ->
    stacked (processAll k (initial image options random0)) k.
Proof.
  intros Hv Hwf k. pose proof Hwf as (Hw & Hh & Hlen & Hbytes & H32).
  induction k as [|k IH]; intros Hk.
  - split; [|intros j p Hj; lia].
    intros z Hz. simpl. apply lookup_replicate_2. exact Hz.
  - rewrite processAll_S.
    destruct (processAll_static rgbToHsl_l gaussian k
                (initial image options random0)) as (En & Ebc & Epx & Eidx).
    apply (processPixel_stacked random0); try assumption.
    + rewrite En. simpl. lia.
    + rewrite En. exact H32.
    + rewrite Ebc, En. reflexivity.
    + rewrite Epx, En. exact Hlen.
    + rewrite Epx. exact Hbytes.
    + apply processAll_ok; [assumption | assumption | lia].
    + apply IH. lia.
Qed.

(** X6: in the buffer of a resolved promise, the stack height kept of
    particle [j] is the rounding to single precision of the number of
    particles before it in the buffer that went to the same bucket, and
    that number itself on an image of at most [2 ^ 24] pixels.  So of two
    particles of one bucket the later one never lies lower, and on such
    an image it lies strictly higher: no two of them share a place in the
    stack. *)
Theorem stack_height_counts_bucket image options random0 es r :
  values_in_unit rgbToHsl_l -> wf_image image ->
  resolved (fst (run es (fst (scheduleWork
                                (initial image options random0)))))
    = Some r ->
  let count := width image * height image in
  let slot (j : nat) := slot_of (data image) count (count - 1 - Z.of_nat j) in
  let before (z j : nat) := Z.of_nat (in_bucket (data image) count z j) in
  (forall j p,
     res_particleAttributes r !! j = Some p ->
     exists z : nat,
       slot j = Some z /\
       stackHeight p = fround (num_of_Z (before z j)) /\
       (count <= 2 ^ 24 -> stackHeight p = num_of_Z (before z j))) /\
  (forall i j p q,
     (i < j)%nat ->
     res_particleAttributes r !! i = Some p ->
     res_particleAttributes r !! j = Some q ->
     slot i = slot j ->
     num_leb (stackHeight p) (stackHeight q) = true /\
     (count <= 2 ^ 24 -> num_lt (stackHeight p) (stackHeight q) = true)).
Proof.
  intros Hv Hwf Hr count slot before.
  destruct (resolved_whole rgbToHsl_l gaussian image options random0
              es r Hr) as (_ & _ & ->).
  cbn [particlesOf res_particleAttributes].
  set (k := Z.to_nat (width image * height image)).
  set (Lk := processAll k (initial image options random0)).
  assert (Hk : Z.of_nat k = count).
  { destruct Hwf as (Hw & Hh & _). subst k count. rewrite Z2Nat.id; nia. }
  destruct (processAll_stacked image options random0 Hv Hwf k
              ltac:(fold count; lia)) as [_ Hheight].
  fold Lk in Hheight.
  destruct (processAll_static rgbToHsl_l gaussian k
              (initial image options random0)) as (En & _ & Epx & _).
  fold Lk in En, Epx. simpl in En, Epx. rewrite En, Epx in Hheight.
  fold count in Hheight.
  assert (Hlen : length (particleAttributes Lk) = k).
  { subst Lk. rewrite processAll_length. apply length_replicate. }
  assert (Hbound : forall z j, (j <= k)%nat -> 0 <= before z j <= count).
  { intros z j Hj. subst before. cbv beta.
    assert (Hle : forall t, (in_bucket (data image) count z t <= t)%nat).
    { induction t as [|t IH]; [simpl; lia|]. cbn [in_bucket].
      destruct (decide _); lia. }
    specialize (Hle j). lia. }
  assert (Hat : forall j p, particleAttributes Lk !! j = Some p ->
            (j < k)%nat /\
            exists z : nat,
              slot j = Some z /\
              stackHeight p = fround (num_of_Z (before z j))).
  { intros j p Hp.
    assert (Hj : (j < k)%nat) by (apply lookup_lt_Some in Hp; lia).
    split; [exact Hj|]. exact (Hheight j p Hj Hp). }
  assert (Hexact : forall z j, (j <= k)%nat -> count <= 2 ^ 24 ->
            fround (num_of_Z (before z j)) = num_of_Z (before z j)).
  { intros z j Hj H24. cbn [fround num_of_Z].
    apply Rounding.binary32_Z. specialize (Hbound z j Hj). lia. }
  split.
  - intros j p Hp. destruct (Hat j p Hp) as (Hj & z & Hz & Hs).
    exists z. split; [exact Hz|]. split; [exact Hs|].
    intros H24. rewrite Hs. apply Hexact; [lia | exact H24].
  - intros i j p q Hij Hp Hq Hsame.
    destruct (Hat i p Hp) as (Hi & z & Hz & Hs).
    destruct (Hat j q Hq) as (Hj & z' & Hz' & Ht).
    assert (z' = z) as -> by congruence.
    assert (Hgrow : before z i < before z j).
    { subst before. cbv beta.
      pose proof (in_bucket_mono (data image) count z (S i) j ltac:(lia))
        as Hmono.
      cbn [in_bucket] in Hmono. fold (slot i) in Hmono.
      destruct (decide (slot i = Some z)); [lia|congruence]. }
    rewrite Hs, Ht. split.
    + apply Rounding.fround_mono, Rounding.num_leb_Fin.
      rewrite <- Zle_Qle. lia.
    + intros H24. rewrite !Hexact by (lia || exact H24).
      unfold num_of_Z, num_lt. apply Qltb_lt. rewrite <- Zlt_Qlt.
      exact Hgrow.
Qed.

End Stacks.

(** The particles of [twoPixels]. *)
Definition twoPixelsResult : Particles :=
  Eval vm_compute in
    particlesOf (LoadParticles.processAll lightness someGaussian 2
                   (initial twoPixels someSettings 0)).

Lemma twoPixels_resolved_in_three :
  resolved (fst (LoadParticles.run lightness someGaussian
                   [TimerFires 0; TimerFires 0; TimerFires 0]
                   (fst (scheduleWork (initial twoPixels someSettings 0)))))
  = Some twoPixelsResult.
Proof. vm_compute. reflexivity. Qed.

Lemma twoPixels_resolved_cancelled :
  resolved (fst (LoadParticles.run lightness someGaussian
                   [Cancel; TimerFires 9]
                   (fst (scheduleWork (initial twoPixels someSettings 0)))))
  = Some twoPixelsResult.
Proof. vm_compute. reflexivity. Qed.

Lemma result_independent_of_schedule_witness :
  twoPixelsResult = twoPixelsResult /\
  twoPixelsResult
  = particlesOf (LoadParticles.processAll lightness someGaussian
                   (Z.to_nat (width twoPixels * height twoPixels))
                   (initial twoPixels someSettings 0)).
Proof.
  exact (result_independent_of_schedule lightness someGaussian someGaussian
           twoPixels someSettings someSettings 0 0
           [TimerFires 0; TimerFires 0; TimerFires 0]
           [Cancel; TimerFires 9] twoPixelsResult twoPixelsResult
           (fun j _ => eq_refl)
           twoPixels_resolved_in_three twoPixels_resolved_cancelled).
Defined.

(** The first particle of [twoPixelsResult]: that of the white pixel. *)
Definition whiteParticle : Particle :=
  {| value := Fin 1; stackHeight := Fin 0; jitter := Fin (1 # 2);
     sourceIndex := Fin 1 |}.

Lemma whiteParticle_first :
  res_particleAttributes twoPixelsResult !! 0%nat = Some whiteParticle.
Proof. vm_compute. reflexivity. Qed.

Lemma two_pixels_fit : width twoPixels * height twoPixels <= 2 ^ 53.
Proof. vm_compute. discriminate. Qed.

Lemma particle_stands_for_pixel_witness :
  sourceIndex whiteParticle
  = fround (num_of_Z (width twoPixels * height twoPixels - 1 - Z.of_nat 0)).
Proof.
  exact (proj1 (proj2
    (particle_stands_for_pixel lightness someGaussian twoPixels
       someSettings 0 [Cancel; TimerFires 9] twoPixelsResult
       0%nat whiteParticle two_pixels_fit twoPixels_resolved_cancelled
       whiteParticle_first))).
Defined.

Lemma spans_are_extreme_samples_witness :
  exists i j : nat,
    (i < Z.to_nat (width twoPixels * height twoPixels))%nat /\
    (j < Z.to_nat (width twoPixels * height twoPixels))%nat /\
    res_minFrameSpan twoPixelsResult = Fin (someGaussian (0 + i)) /\
    res_maxFrameSpan twoPixelsResult = Fin (someGaussian (0 + j)) /\
    forall t : nat,
      (t < Z.to_nat (width twoPixels * height twoPixels))%nat ->
      (someGaussian (0 + i) <= someGaussian (0 + t))%Q /\
      (someGaussian (0 + t) <= someGaussian (0 + j))%Q.
Proof.
  apply (spans_are_extreme_samples lightness someGaussian twoPixels
           someSettings 0 [Cancel; TimerFires 9] twoPixelsResult).
  - reflexivity.
  - exact twoPixels_resolved_cancelled.
Defined.

Lemma loader_cancelled_from_the_start_witness :
  snd (LoadParticles.run lightness someGaussian [TimerFires 3; Cancel]
         (initial twoPixels
            {| isCancelled := true; framesCount := Fin 120 |} 0)) = [].
Proof.
  exact (proj1 (proj2 (proj2
    (loader_cancelled_from_the_start lightness someGaussian twoPixels
       {| isCancelled := true; framesCount := Fin 120 |} 0
       [TimerFires 3; Cancel]) eq_refl))).
Defined.

Lemma loader_output_witness :
  resolved (fst (LoadParticles.run lightness someGaussian
                   [Cancel; TimerFires 9]
                   (fst (scheduleWork (initial twoPixels someSettings 0)))))
  = Some twoPixelsResult.
Proof.
  apply (proj2 (proj2 (loader_output lightness someGaussian twoPixels
                         someSettings 0 [Cancel; TimerFires 9]))).
  vm_compute. apply list_elem_of_singleton. reflexivity.
Defined.

Lemma stack_height_counts_bucket_witness :
  exists z : nat,
    slot_of lightness (data twoPixels)
      (width twoPixels * height twoPixels)
      (width twoPixels * height twoPixels - 1 - Z.of_nat 0) = Some z /\
    stackHeight whiteParticle
    = fround (num_of_Z
                (Z.of_nat (in_bucket lightness (data twoPixels)
                             (width twoPixels * height twoPixels) z 0))) /\
    (width twoPixels * height twoPixels <= 2 ^ 24 ->
     stackHeight whiteParticle
     = num_of_Z (Z.of_nat (in_bucket lightness (data twoPixels)
                             (width twoPixels * height twoPixels) z 0))).
Proof.
  exact (proj1 (stack_height_counts_bucket lightness someGaussian twoPixels
                  someSettings 0 [Cancel; TimerFires 9] twoPixelsResult
                  lightness_in_unit twoPixels_wf
                  twoPixels_resolved_cancelled) 0%nat whiteParticle
           whiteParticle_first).
Defined.

End LoadParticlesMore.

(** ** The animation: disposal, callbacks, the rate, a whole cycle *)

Module PixChartMore.
Import PixChart PixChartFacts.


(** *** One callback at a time *)

Definition one_pending (c : Chart) : Prop :=
  nextAnimationFrame c && pendingTimeout c = false.

Definition schedules (e : Effect) : bool :=
  match e with
  | RequestAnimationFrame | SetTimeout _ => true
  | _ => false
  end.

Lemma handle_one_pending options e c :
  one_pending c ->
  one_pending (fst (handle options e c)) /\
  (length (filter (fun x => schedules x = true) (snd (handle options e c)))
   <= 1)%nat /\
  (forall ms, SetTimeout ms ∈ snd (handle options e c) -> ms = 1000).
Proof.
  unfold one_pending. intros H.
  destruct c as [i0 st naf pt dis fc cur pls pr mi ma rate].
  simpl in H.
  destruct e; cbn [handle nextAnimationFrame pendingTimeout].
  - destruct naf; [|split; [exact H|split; [simpl; lia|]];
                     intros ms Hm; inversion Hm].
    simpl in H. subst pt.
    unfold animate, scheduleNextFrame, completeState, setInitialFrameNumber,
      drawCurrentFrame.
    cbn [state set_nextAnimationFrame currentFrameNumber maxFrameSpan].
    destruct st; destruct (num_lt cur ma); simpl;
      try destruct (num_lt (num_add cur rate) ma); simpl;
      try destruct i0; simpl; try destruct (cycleComplete options); simpl;
      (split; [reflexivity|split; [lia|]]); intros ms Hm;
      repeat match goal with
             | Hm : _ ∈ _ :: _ |- _ => apply elem_of_cons in Hm as [Hm|Hm]
             | Hm : _ ∈ [] |- _ => inversion Hm
             end; try discriminate; congruence.
  - destruct pt; [|split; [exact H|split; [simpl; lia|]];
                    intros ms Hm; inversion Hm].
    simpl. split; [reflexivity|split; [lia|]]. intros ms Hm.
    apply list_elem_of_singleton in Hm. discriminate.
  - unfold startExpandCollapseCycle. cbn [disposed nextAnimationFrame
      pendingTimeout].
    destruct dis; [split; [exact H|split; [simpl; lia|]];
                   intros ms Hm; inversion Hm|].
    destruct naf, pt; simpl in *; try discriminate;
      (split; [reflexivity|split; [lia|]]); intros ms Hm;
      repeat match goal with
             | Hm : _ ∈ _ :: _ |- _ => apply elem_of_cons in Hm as [Hm|Hm]
             | Hm : _ ∈ [] |- _ => inversion Hm
             end; try discriminate; congruence.
Qed.

(** X8: a chart never has a pause timer and an animation frame
    outstanding together, and every event requests at most one of them:
    this holds from [pixChart] on, through the loading of particles and
    through every frame, timer and restart.  Every pause it sets is one of
    1000 ms. *)
Theorem one_callback_at_a_time options c0 particles keepCurrentFrame es :
  pixChart options = inr c0 ->
  let c1 := fst (initWebGLPrimitives particles keepCurrentFrame c0) in
  one_pending (fst (run options es c1)) /\
  (forall ms, SetTimeout ms ∈ snd (run options es c1) -> ms = 1000) /\
  (forall e c,
     one_pending c ->
     (length (filter (fun x => schedules x = true)
                (snd (handle options e c))) <= 1)%nat).
Proof.
  intros Hmade c1.
  assert (H1 : one_pending c1).
  { subst c1. unfold pixChart in Hmade.
    destruct (canvas options) as [cnv|]; [|discriminate].
    destruct (negb (webgl cnv)); [discriminate|].
    injection Hmade as <-. unfold initWebGLPrimitives.
    destruct keepCurrentFrame; reflexivity. }
  clearbody c1. clear Hmade.
  split; [|split].
  - revert c1 H1. induction es as [|e es IH]; intros c H; [exact H|].
    cbn [run]. destruct (handle_one_pending options e c H) as (Hh & _).
    destruct (handle options e c) as [ca oa]. specialize (IH ca Hh).
    destruct (run options es ca). exact IH.
  - revert c1 H1. induction es as [|e es IH]; intros c H ms Hm;
      [inversion Hm|].
    cbn [run] in Hm.
    destruct (handle_one_pending options e c H) as (Hh & _ & Ht).
    destruct (handle options e c) as [ca oa]. specialize (IH ca Hh ms).
    destruct (run options es ca) as [cb ob]. cbn [fst snd] in *.
    apply elem_of_app in Hm as [Hm|Hm]; [apply Ht|apply IH]; exact Hm.
  - intros e c H. apply (handle_one_pending options e c H).
Qed.

Lemma one_callback_at_a_time_witness :
  one_pending
    (fst (run (Scene.pixChartOptions ConfigurationFacts.someScene)
            [RestartCycle; Timeout; Frame; RestartCycle]
            (fst (initWebGLPrimitives someParticles false
                    ConfigurationFacts.someSceneChart)))).
Proof.
  exact (proj1 (one_callback_at_a_time
                  (Scene.pixChartOptions ConfigurationFacts.someScene)
                  ConfigurationFacts.someSceneChart someParticles false
                  [RestartCycle; Timeout; Frame; RestartCycle]
                  ConfigurationFacts.someSceneChart_made)).
Defined.

(** *** The number of frames and the rate *)

Lemma truthy_div (a f : num) :
  num_finite a -> num_truthy f = true -> num_div a f <> NaN.
Proof.
  destruct a as [| |s|]; try contradiction. intros _.
  destruct f as [| |x|]; cbn [num_truthy num_div]; try discriminate.
  destruct (Qeq_bool x 0); [discriminate|]. intros _.
  apply Rounding.binary64_not_NaN.
Qed.

(** X9: [pixChart] throws without a canvas and without WebGL, in that
    order.  Otherwise the number of frames of the chart is the option, or
    120 when the option is missing, 0 or NaN: it is never 0 and never NaN,
    so that for particles whose spans are a finite distance apart the
    rate computed on loading is a number: finite, or infinite when the
    number of frames is too small for the quotient. *)
Theorem frames_count_is_usable options :
  (canvas options = None ->
   pixChart options = inl "Canvas is required"%string) /\
  (forall cnv, canvas options = Some cnv -> webgl cnv = false ->
     pixChart options = inl "WebGL is not available"%string) /\
  (forall c, pixChart options = inr c ->
     num_truthy (framesCount c) = true /\
     (match framesCount_option options with
      | Some f => if num_truthy f then framesCount c = f
                  else framesCount c = Fin 120
      | None => framesCount c = Fin 120
      end) /\
     forall particles keepCurrentFrame,
       num_finite (num_sub (LoadParticles.res_maxFrameSpan particles)
                     (LoadParticles.res_minFrameSpan particles)) ->
       frameChangeRate
         (fst (initWebGLPrimitives particles keepCurrentFrame c)) <> NaN).
Proof.
  unfold pixChart. split; [|split].
  - intros ->. reflexivity.
  - intros cnv -> ->. reflexivity.
  - intros c. destruct (canvas options) as [cnv|]; [|discriminate].
    destruct (negb (webgl cnv)); [discriminate|].
    intros [= <-]. cbn [framesCount].
    assert (Ht : num_truthy
                   match framesCount_option options with
                   | Some f => if num_truthy f then f else Fin 120
                   | None => Fin 120
                   end = true).
    { destruct (framesCount_option options) as [f|]; [|reflexivity].
      destruct (num_truthy f) eqn:E; [exact E|reflexivity]. }
    split; [exact Ht|]. split.
    + destruct (framesCount_option options) as [f|]; [|reflexivity].
      destruct (num_truthy f); reflexivity.
    + intros particles keep Hd. unfold initWebGLPrimitives.
      cbn [disposed].
      destruct keep; cbn [fst frameChangeRate setInitialFrameNumber
        set_currentFrameNumber framesCount];
        apply truthy_div; assumption.
Qed.

Lemma frames_count_is_usable_witness :
  num_truthy (framesCount ConfigurationFacts.someSceneChart) = true.
Proof.
  exact (proj1 (proj2 (proj2
    (frames_count_is_usable
       (Scene.pixChartOptions ConfigurationFacts.someScene)))
    ConfigurationFacts.someSceneChart eq_refl)).
Defined.

(** X10: [setFramesCount] with a number (anything but NaN) leaves a
    number of frames that is not below 1 and, for spans in order that are
    a finite distance apart, a rate from 0 to that distance, the distance
    being the difference as the chart computes it; it touches neither the
    phase nor the frame number nor what is pending. *)
Theorem setFramesCount_keeps_rate_in_span (newCount : num) c
    (mn mx d : Q) :
  newCount <> NaN ->
  minFrameSpan c = Fin mn -> maxFrameSpan c = Fin mx -> (mn <= mx)%Q ->
  num_sub (maxFrameSpan c) (minFrameSpan c) = Fin d ->
  let c' := setFramesCount newCount c in
  num_lt (framesCount c') (Fin 1) = false /\
  num_truthy (framesCount c') = true /\
  (exists r : Q, frameChangeRate c' = Fin r /\
                 (0 <= r)%Q /\ (r <= d)%Q) /\
  state c' = state c /\ currentFrameNumber c' = currentFrameNumber c /\
  nextAnimationFrame c' = nextAnimationFrame c /\
  pendingTimeout c' = pendingTimeout c.
Proof.
  intros Hnan Hmn Hmx Hle Hd c'. subst c'. unfold setFramesCount.
  cbn [framesCount frameChangeRate state currentFrameNumber
       nextAnimationFrame pendingTimeout].
  rewrite Hd.
  assert (Hd0 : (0 <= d)%Q).
  { rewrite Hmx, Hmn in Hd. unfold num_sub in Hd. cbn [num_neg num_add] in Hd.
    assert (H0 : (0 <= mx + - mn)%Q) by lra.
    pose proof (Rounding.binary64_nonneg _ H0) as P. rewrite Hd in P.
    apply Rounding.num_leb_Fin. exact P. }
  assert (Hdd : double d).
  { rewrite Hmx, Hmn in Hd. unfold num_sub in Hd. cbn [num_neg num_add] in Hd.
    exact (Rounding.binary64_double _ _ Hd). }
  assert (Hcases :
    num_max newCount (Fin 1) = PosInf \/
    exists x : Q, num_max newCount (Fin 1) = Fin x /\ (1 <= x)%Q).
  { destruct newCount as [| |x|]; simpl; [congruence| | |left; reflexivity].
    - right. exists 1%Q. split; [reflexivity|lra].
    - destruct (Qltb x 1) eqn:E; right.
      + exists 1%Q. split; [reflexivity|lra].
      + apply Qltb_ge in E. exists x. split; [reflexivity|exact E]. }
  destruct Hcases as [->|(x & -> & Hx)].
  - cbn [num_lt num_truthy num_div]. repeat split; try reflexivity.
    exists 0%Q. repeat split; lra.
  - assert (Hx0 : Qeq_bool x 0 = false) by (apply Qeq_bool_pos; lra).
    assert (Hlt : Qltb x 1 = false) by (apply Qltb_ge; exact Hx).
    cbn [num_lt num_truthy num_div]. rewrite Hx0, Hlt.
    assert (Hq0 : (0 <= d / x)%Q) by (apply Qdiv_nonneg; lra).
    assert (Hq1 : (d / x <= d)%Q) by (apply Qle_shift_div_r; [lra|nra]).
    pose proof (Rounding.binary64_nonneg _ Hq0) as P0.
    pose proof (Rounding.binary64_mono _ _ Hq1) as P1.
    rewrite Hdd in P1.
    repeat split; try reflexivity.
    destruct (binary64 (d / x)) as [| |q|]; simpl in P0, P1;
      try discriminate.
    exists q. split; [reflexivity|].
    split; apply Qle_bool_iff; assumption.
Qed.

Lemma setFramesCount_keeps_rate_in_span_witness :
  num_lt (framesCount (setFramesCount (Fin (1 # 4)) someChart)) (Fin 1)
  = false.
Proof.
  refine (proj1 (setFramesCount_keeps_rate_in_span (Fin (1 # 4)) someChart
                   0 3 3 _ eq_refl eq_refl _ _)).
  - discriminate.
  - unfold Qle. simpl. lia.
  - vm_compute. reflexivity.
Defined.

(** *** A whole cycle, frame by frame *)





Definition signals (e : Effect) : bool :=
  match e with CycleComplete => true | _ => false end.

Definition pauses (e : Effect) : bool :=
  match e with SetTimeout _ => true | _ => false end.

(** Output that signals nothing and sets no pause. *)
Definition quiet (out : list Effect) : Prop :=
  filter (fun e => signals e = true) out = [] /\
  filter (fun e => pauses e = true) out = [].



(** A sum that doubles carry out exactly. *)
Definition exact (q : Q) : Prop :=
  exists q' : Q, binary64 q = Fin q' /\ (q' == q)%Q.

Section Cycle.

Variable options : Options.
Variable fc : num.
Variable pls : LoadParticles.Options.
Variable pr : Progress.
Variables mn mx r : Q.

(** A loaded chart that is not disposed, by what changes in a cycle. *)
Definition chart (st : AnimationState) (frame timeout : bool) (f : Q)
  : Chart :=
  {| initialState := ANIMATION_COLLAPSE; state := st;
     nextAnimationFrame := frame; pendingTimeout := timeout;
     disposed := false; framesCount := fc;
     currentFrameNumber := Fin f;
     particleLoaderSettings := pls; progress := pr;
     minFrameSpan := Fin mn; maxFrameSpan := Fin mx;
     frameChangeRate := Fin r |}.


















End Cycle.





End PixChartMore.

(** ** The scene: the queue of images and the other setters *)

Module SceneMore.
Import Scene.

Definition getSafeColorGroupBy (plainInput : option string) : string :=
  match plainInput with
  | Some "" | None => "hsl.l"
  | Some x => x
  end.

Definition setColorGroupBy (groupBy : option string) (s : State)
  : State * list Call :=
  let safeGroupBy := getSafeColorGroupBy groupBy in
  let s :=
    {| canvas := canvas s; image := image s; duration := duration s;
       bucketCount := bucketCount s; maxPixels := maxPixels s;
       currentColorGroupBy := safeGroupBy;
       initialImageState := initialImageState s; paused := paused s;
       isFirstRun := isFirstRun s; currentPixChart := currentPixChart s;
       queue := queue s; lastIndex := lastIndex s;
       pendingTimeout := pendingTimeout s;
       qs := <["groupBy"%string := QsString safeGroupBy]> (qs s) |} in
  restartCurrentAnimation s.

Definition setInitialState (newInitialState : string) (s : State)
  : State * list Call :=
  let s :=
    {| canvas := canvas s; image := image s; duration := duration s;
       bucketCount := bucketCount s; maxPixels := maxPixels s;
       currentColorGroupBy := currentColorGroupBy s;
       initialImageState := newInitialState; paused := paused s;
       isFirstRun := isFirstRun s; currentPixChart := currentPixChart s;
       queue := queue s; lastIndex := lastIndex s;
       pendingTimeout := pendingTimeout s;
       qs := <["initial"%string := QsString newInitialState]> (qs s) |} in
  restartCurrentAnimation s.

Definition processPrevInQueue (forceDispose : bool) (s : State)
  : State * list Call :=
  match queue s with
  | [] => (s, [])
  | _ =>
      let lastIndex' := lastIndex s - 2 in
      let s :=
        set_lastIndex
          (if lastIndex' <? 0 then Z.of_nat (length (queue s)) - 1
           else lastIndex')
          s in
      processNextInQueue forceDispose s
  end.

Definition setImages (files : list (option string)) (s : State)
  : State * list Call :=
  let s :=
    {| canvas := canvas s; image := image s; duration := duration s;
       bucketCount := bucketCount s; maxPixels := maxPixels s;
       currentColorGroupBy := currentColorGroupBy s;
       initialImageState := initialImageState s; paused := paused s;
       isFirstRun := false; currentPixChart := currentPixChart s;
       queue := queue s; lastIndex := lastIndex s;
       pendingTimeout := pendingTimeout s; qs := qs s |} in
  match files with
  | [] => (s, [])
  | _ =>
      processNextInQueue false
        {| canvas := canvas s; image := image s; duration := duration s;
           bucketCount := bucketCount s; maxPixels := maxPixels s;
           currentColorGroupBy := currentColorGroupBy s;
           initialImageState := initialImageState s; paused := paused s;
           isFirstRun := isFirstRun s;
           currentPixChart := currentPixChart s;
           queue := files; lastIndex := 0;
           pendingTimeout := pendingTimeout s; qs := qs s |}
  end.

(** The pending timer of the scene fires: the next image of the queue
    is taken up, or the chart is made after the fade.  [createPixChart]
    ends in a TypeError, so that the [pendingTimeout = 0] that follows it
    in the callback is not reached: the id of the timer that has run
    stays behind. *)
Definition timerFires (s : State) : State * list Call :=
  match pendingTimeout s with
  | None | Some task_done => (s, [])
  | Some (task_createPixChart imageLink) =>
      let '(s, calls) := createPixChart imageLink s in
      (set_pendingTimeout (Some task_done) s, calls)
  | Some task_processNextInQueue => processNextInQueue false s
  end.

(** The position in the queue is one of its indices. *)
Definition in_range (s : State) : Prop :=
  0 <= lastIndex s < Z.of_nat (length (queue s)).

(** What the setters and the queue never touch. *)
Definition same_settings (s s' : State) : Prop :=
  canvas s' = canvas s /\ duration s' = duration s /\
  bucketCount s' = bucketCount s /\ maxPixels s' = maxPixels s /\
  currentColorGroupBy s' = currentColorGroupBy s /\
  initialImageState s' = initialImageState s /\
  queue s' = queue s /\ qs s' = qs s.

Definition cleared (s : State) : list Call :=
  match pendingTimeout s with
  | Some _ => [clearTimeout]
  | None => []
  end.

Lemma processNextInQueue_settings forceDispose s :
  same_settings s (fst (processNextInQueue forceDispose s)) /\
  lastIndex (fst (processNextInQueue forceDispose s))
  = (if lastIndex s + 1 >=? Z.of_nat (length (queue s)) then 0
     else lastIndex s + 1).
Proof.
  destruct s as [cv im du bc mp cg ii pa fr ch qu li pt q].
  unfold processNextInQueue, setImage, createPixChart. simpl.
  destruct ch as [h|]; simpl.
  - destruct (bool_decide _ && negb forceDispose); simpl;
      repeat split.
  - repeat split.
Qed.

Lemma processNextInQueue_in_range forceDispose s :
  in_range s -> in_range (fst (processNextInQueue forceDispose s)).
Proof.
  unfold in_range. intros H.
  destruct (processNextInQueue_settings forceDispose s)
    as ((_ & _ & _ & _ & _ & _ & Hq & _) & Hi).
  rewrite Hq, Hi.
  destruct (Z.geb_spec (lastIndex s + 1) (Z.of_nat (length (queue s))));
    lia.
Qed.

Lemma processNextInQueue_forced s h :
  currentPixChart s = Some h ->
  processNextInQueue true s
  = (set_pendingTimeout
       (Some (task_createPixChart (mjoin (zlookup (queue s) (lastIndex s)))))
       (set_lastIndex
          (if lastIndex s + 1 >=? Z.of_nat (length (queue s)) then 0
           else lastIndex s + 1) s),
     cleared s
       ++ [chart_dispose;
           setTimeout
             (task_createPixChart
                (mjoin (zlookup (queue s) (lastIndex s)))) 250]).
Proof.
  destruct s as [cv im du bc mp cg ii pa fr ch qu li pt q].
  simpl. intros ->.
  unfold processNextInQueue, setImage, cleared. simpl.
  rewrite andb_false_r. reflexivity.
Qed.

(** The image on show: the one before the position, around the end. *)
Definition shown (s : State) : option string :=
  mjoin (queue s !! Z.to_nat ((lastIndex s - 1) mod
                                Z.of_nat (length (queue s)))).

Lemma restart_replays s h :
  in_range s -> currentPixChart s = Some h ->
  restartCurrentAnimation s
  = (set_pendingTimeout (Some (task_createPixChart (shown s))) s,
     cleared s ++ [chart_dispose;
                   setTimeout (task_createPixChart (shown s)) 250]).
Proof.
  unfold in_range, shown. intros Hr Hc.
  destruct s as [cv im du bc mp cg ii pa fr ch qu li pt q].
  simpl in *. subst ch.
  unfold restartCurrentAnimation. simpl.
  destruct qu as [|x qu]; [simpl in Hr; lia|].
  set (l := x :: qu) in *. set (len := Z.of_nat (length l)) in *.
  rewrite (processNextInQueue_forced _ h) by reflexivity.
  unfold cleared, set_pendingTimeout, set_lastIndex. simpl.
  fold l. fold len.
  assert (Eprev : (if li - 1 <? 0 then len - 1 else li - 1)
                  = (li - 1) mod len).
  { destruct (Z.ltb_spec (li - 1) 0).
    - apply Z.mod_unique with (q := -1); lia.
    - symmetry. apply Z.mod_small. lia. }
  rewrite Eprev.
  assert (Hm : 0 <= (li - 1) mod len < len) by (apply Z.mod_pos_bound; lia).
  assert (Enext : (if (li - 1) mod len + 1 >=? len then 0
                   else (li - 1) mod len + 1) = li).
  { rewrite <- Eprev. destruct (Z.ltb_spec (li - 1) 0).
    - destruct (Z.geb_spec (len - 1 + 1) len); lia.
    - destruct (Z.geb_spec (li - 1 + 1) len); lia. }
  change (Z.of_nat (S (length qu))) with len.
  rewrite Enext.
  assert (Elook : zlookup l ((li - 1) mod len)
                  = l !! Z.to_nat ((li - 1) mod len)).
  { unfold zlookup. destruct (Z.ltb_spec ((li - 1) mod len) 0); [lia|].
    reflexivity. }
  rewrite Elook. reflexivity.
Qed.

(** X12: the position walks the queue round-robin.  From a position
    within the queue, [k] calls of [processNextInQueue] leave the queue as
    it is and the position at [(lastIndex + k) mod length]; so after as
    many calls as the queue has images the position is back where it
    was. *)
Theorem queue_round_robin forceDispose s (k : nat) :
  in_range s ->
  let s' := Nat.iter k (fun s => fst (processNextInQueue forceDispose s)) s in
  queue s' = queue s /\
  lastIndex s'
  = (lastIndex s + Z.of_nat k) mod Z.of_nat (length (queue s)) /\
  (k = length (queue s) -> lastIndex s' = lastIndex s).
Proof.
  intros Hr. simpl.
  assert (H : queue (Nat.iter k
                (fun s => fst (processNextInQueue forceDispose s)) s)
              = queue s /\
              lastIndex (Nat.iter k
                (fun s => fst (processNextInQueue forceDispose s)) s)
              = (lastIndex s + Z.of_nat k)
                  mod Z.of_nat (length (queue s))).
  { induction k as [|k [IHq IHi]].
    - simpl. split; [reflexivity|]. rewrite Z.add_0_r.
      symmetry. apply Z.mod_small. exact Hr.
    - rewrite !Nat.iter_succ.
      destruct (processNextInQueue_settings forceDispose
                  (Nat.iter k
                     (fun s => fst (processNextInQueue forceDispose s)) s))
        as ((_ & _ & _ & _ & _ & _ & Hq & _) & Hi).
      rewrite Hq, Hi, IHq, IHi. split; [reflexivity|].
      unfold in_range in Hr.
      set (len := Z.of_nat (length (queue s))) in *.
      assert (Hm : 0 <= (lastIndex s + Z.of_nat k) mod len < len)
        by (apply Z.mod_pos_bound; lia).
      replace (lastIndex s + Z.of_nat (S k))
        with (lastIndex s + Z.of_nat k + 1) by lia.
      rewrite <- (Zplus_mod_idemp_l (lastIndex s + Z.of_nat k)).
      destruct (Z.geb_spec ((lastIndex s + Z.of_nat k) mod len + 1) len).
      + replace ((lastIndex s + Z.of_nat k) mod len + 1) with len by lia.
        rewrite Z.mod_same by lia. reflexivity.
      + symmetry. apply Z.mod_small. lia. }
  destruct H as [Hq Hi]. split; [exact Hq|]. split; [exact Hi|].
  intros ->. rewrite Hi. unfold in_range in Hr.
  rewrite <- (Z.mul_1_l (Z.of_nat (length (queue s)))) at 1.
  rewrite Z.mod_add by lia. apply Z.mod_small. exact Hr.
Qed.

(** X13: restarting the animation replays the image on show.  With a
    chart and a position within the queue, [restartCurrentAnimation]
    leaves the position and everything else as it is, clears a pending
    timer, disposes the chart and sets the timer of 250 ms that makes the
    new one; when that timer fires, the chart of the scene is one for the
    image on show, with the options of the state at that moment.  That
    chart has no method [on]: the callback of the timer ends with a
    TypeError after the chart is made, so that the id of the timer stays
    in [pendingTimeout], where it does nothing when the timer is said to
    fire again. *)
Theorem restart_replays_shown_image s h :
  in_range s -> currentPixChart s = Some h ->
  let s1 := fst (restartCurrentAnimation s) in
  s1 = set_pendingTimeout (Some (task_createPixChart (shown s))) s /\
  snd (restartCurrentAnimation s)
  = cleared s ++ [chart_dispose;
                  setTimeout (task_createPixChart (shown s)) 250] /\
  currentPixChart (fst (timerFires s1))
  = Some {| imageLink := shown s; chartOptions := pixChartOptions s |} /\
  pendingTimeout (fst (timerFires s1)) = Some task_done /\
  lastIndex (fst (timerFires s1)) = lastIndex s /\
  snd (timerFires s1)
  = [progressText "Loading image..."; progressOpacity "1";
     pixChart_new (shown s) (pixChartOptions s);
     throwTypeError "currentPixChart.on is not a function"] /\
  timerFires (fst (timerFires s1)) = (fst (timerFires s1), []).
Proof.
  intros Hr Hc s1. subst s1.
  rewrite (restart_replays s h Hr Hc). cbn [fst snd].
  split; [reflexivity|]. split; [reflexivity|].
  destruct s as [cv im du bc mp cg ii pa fr ch qu li pt q].
  repeat split.
Qed.

(** A scene of two images before its first chart, and the same scene with
    the first image on show and the timer of the next one pending. *)
Definition waiting : State :=
  {| canvas := PixChartFacts.someCanvas;
     image := Some "a.png"%string;
     duration := DEFAULT_ANIMATION_DURATION;
     bucketCount := DEFAULT_BUCKET_COUNT;
     maxPixels := Fin 409600;
     currentColorGroupBy := "hsl.l";
     initialImageState := "collapsed";
     paused := false;
     isFirstRun := false;
     currentPixChart := None;
     queue := [Some "a.png"%string; Some "b.png"%string];
     lastIndex := 0;
     pendingTimeout := None;
     qs := ∅ |}.

Definition playing : State :=
  set_pendingTimeout (Some task_processNextInQueue)
    (fst (processNextInQueue false waiting)).

Lemma queue_round_robin_witness :
  lastIndex
    (Nat.iter 2 (fun s => fst (processNextInQueue false s)) playing)
  = lastIndex playing.
Proof.
  refine (proj2 (proj2 (queue_round_robin false playing 2 _)) eq_refl).
  unfold in_range. simpl. lia.
Defined.

Lemma playing_in_range : in_range playing.
Proof. unfold in_range. simpl. lia. Qed.

Lemma restart_replays_shown_image_witness :
  snd (restartCurrentAnimation playing)
  = [clearTimeout; chart_dispose;
     setTimeout (task_createPixChart (Some "a.png"%string)) 250].
Proof.
  exact (proj1 (proj2 (restart_replays_shown_image playing _
                         playing_in_range eq_refl))).
Defined.

(** *** Stepping through the queue *)

(** The index of the image on show. *)
Definition showing (s : State) : Z :=
  (lastIndex s - 1) mod Z.of_nat (length (queue s)).

Lemma processPrevInQueue_settings forceDispose s :
  in_range s ->
  queue (fst (processPrevInQueue forceDispose s)) = queue s /\
  lastIndex (fst (processPrevInQueue forceDispose s))
  = (if lastIndex s =? 0 then 0 else lastIndex s - 1).
Proof.
  unfold in_range, processPrevInQueue. intros Hr.
  destruct (queue s) as [|x qu] eqn:Eq; [simpl in Hr; lia|].
  rewrite <- Eq in *.
  match goal with
  | |- context [processNextInQueue _ ?t] =>
      destruct (processNextInQueue_settings forceDispose t)
        as ((_ & _ & _ & _ & _ & _ & Hq & _) & Hi)
  end.
  rewrite Hq, Hi. clear Hq Hi.
  destruct s as [cv im du bc mp cg ii pa fr ch q li pt qq].
  simpl in *. split; [reflexivity|].
  destruct (Z.ltb_spec (li - 2) 0), (Z.eqb_spec li 0);
    match goal with
    | |- context [?a >=? ?b] => destruct (Z.geb_spec a b)
    end; lia.
Qed.

(** X14: what the keys do.  From a position within the queue,
    [processNextInQueue] moves the image on show one forward, around the
    end of the queue; [processPrevInQueue] moves it one back, around the
    start, except on the last image of the queue, which it shows again. *)
Theorem stepping_through_the_queue forceDispose s :
  in_range s ->
  let len := Z.of_nat (length (queue s)) in
  showing (fst (processNextInQueue forceDispose s))
  = (showing s + 1) mod len /\
  showing (fst (processPrevInQueue forceDispose s))
  = (if showing s =? len - 1 then showing s else (showing s - 1) mod len).
Proof.
  intros Hr len. unfold showing.
  destruct (processNextInQueue_settings forceDispose s)
    as ((_ & _ & _ & _ & _ & _ & Hq & _) & Hi).
  destruct (processPrevInQueue_settings forceDispose s Hr) as [Hq' Hi'].
  rewrite Hq, Hi, Hq', Hi'. clear Hq Hi Hq' Hi'.
  unfold in_range in Hr. fold len. fold len in Hr.
  set (i := lastIndex s) in *. clearbody i len.
  assert (Hshow : (i - 1) mod len = if i =? 0 then len - 1 else i - 1).
  { destruct (Z.eqb_spec i 0).
    - subst i. symmetry. apply Z.mod_unique with (q := -1); lia.
    - apply Z.mod_small. lia. }
  rewrite Hshow. split.
  - destruct (Z.geb_spec (i + 1) len), (Z.eqb_spec i 0).
    + assert (len = 1) as -> by lia. reflexivity.
    + replace (i - 1 + 1) with i by lia. replace i with (len - 1) by lia.
      change (0 - 1) with (-1).
      rewrite (Z.mod_small (len - 1)) by lia.
      symmetry. apply Z.mod_unique with (q := -1); lia.
    + subst i. replace (len - 1 + 1) with len by lia.
      rewrite Z.mod_same by lia. reflexivity.
    + replace (i + 1 - 1) with i by lia. replace (i - 1 + 1) with i by lia.
      rewrite !Z.mod_small by lia. reflexivity.
  - destruct (Z.eqb_spec i 0).
    + subst i. rewrite Z.eqb_refl.
      symmetry. apply Z.mod_unique with (q := -1); lia.
    + destruct (Z.eqb_spec (i - 1) (len - 1)); [lia|].
      destruct (Z.eqb_spec (i - 1) 0) as [E|E].
      * rewrite E. reflexivity.
      * rewrite !Z.mod_small by lia. reflexivity.
Qed.

Lemma stepping_through_the_queue_witness :
  showing (fst (processPrevInQueue true playing)) = 1
  /\ showing (fst (processPrevInQueue true
                     (fst (processPrevInQueue true playing)))) = 1.
Proof.
  split.
  - refine (proj2 (stepping_through_the_queue true playing _)).
    unfold in_range. simpl. lia.
  - refine (proj2 (stepping_through_the_queue true
                     (fst (processPrevInQueue true playing)) _)).
    unfold in_range. simpl. lia.
Defined.

(** *** Whatever is done to the scene *)

Section Entry.

Variable parseInt10 : string -> num.
Variable parseFloat : string -> num.

(** What can be done to the scene: the methods of [state], the two keys
    and the timer in [pendingTimeout]. *)
Inductive Action : Type :=
| do_setImages (files : list (option string))
| do_setAnimationDuration (newCount : string)
| do_setBucketCount (newCount : string)
| do_setMaxPixels (newCount : string)
| do_setColorGroupBy (groupBy : option string)
| do_setInitialState (newInitialState : string)
| do_processNextInQueue (forceDispose : bool)
| do_processPrevInQueue (forceDispose : bool)
| do_timerFires.

Definition perform (a : Action) (s : State) : State * list Call :=
  match a with
  | do_setImages files => setImages files s
  | do_setAnimationDuration newCount =>
      setAnimationDuration parseFloat newCount s
  | do_setBucketCount newCount => setBucketCount parseInt10 newCount s
  | do_setMaxPixels newCount => setMaxPixels parseInt10 newCount s
  | do_setColorGroupBy groupBy => setColorGroupBy groupBy s
  | do_setInitialState newInitialState => setInitialState newInitialState s
  | do_processNextInQueue forceDispose => processNextInQueue forceDispose s
  | do_processPrevInQueue forceDispose => processPrevInQueue forceDispose s
  | do_timerFires => timerFires s
  end.

Fixpoint perform_all (l : list Action) (s : State) : State * list Call :=
  match l with
  | [] => (s, [])
  | a :: l =>
      let '(s1, calls1) := perform a s in
      let '(s2, calls2) := perform_all l s1 in
      (s2, calls1 ++ calls2)
  end.

(** The files handed over are files. *)
Definition real_files (a : Action) : Prop :=
  match a with
  | do_setImages files => Forall is_Some files
  | _ => True
  end.

Definition usable_count (x : num) : Prop :=
  isNaN x = false /\ num_lt x (Fin 1) = false.

Definition scene_ok (s : State) : Prop :=
  in_range s /\ Forall is_Some (queue s) /\
  (forall link, pendingTimeout s = Some (task_createPixChart link) ->
                is_Some link) /\
  isNaN (duration s) = false /\ isNaN (maxPixels s) = false /\
  usable_count (bucketCount s).

Definition sound_options (o : PixChart.Options) : Prop :=
  is_Some (PixChart.canvas o) /\
  (exists x, PixChart.framesCount_option o = Some x /\ isNaN x = false) /\
  (exists x, PixChart.maxPixels o = Some x /\ isNaN x = false) /\
  (exists x, PixChart.bucketCount o = Some x /\ usable_count x).

Definition sound_call (c : Call) : Prop :=
  match c with
  | pixChart_new link o => is_Some link /\ sound_options o
  | chart_setFramesCount x | chart_setMaxPixels x => isNaN x = false
  | setTimeout (task_createPixChart link) _ => is_Some link
  | _ => True
  end.

Lemma toFrames_number x : isNaN x = false -> isNaN (toFrames x) = false.
Proof.
  destruct x as [| |q|]; intros H; try discriminate H; try reflexivity.
  unfold toFrames, num_mul.
  destruct (binary64 (q * 60)) eqn:E; try reflexivity.
  exfalso. exact (Rounding.binary64_not_NaN _ E).
Qed.

Lemma zlookup_in_range {A} (l : list A) i :
  0 <= i < Z.of_nat (length l) -> exists x, zlookup l i = Some x /\ x ∈ l.
Proof.
  intros H. unfold zlookup. destruct (Z.ltb_spec i 0); [lia|].
  destruct (lookup_lt_is_Some_2 l (Z.to_nat i)) as [x Hx]; [lia|].
  exists x. split; [exact Hx|]. eapply list_elem_of_lookup_2, Hx.
Qed.

Lemma queued_image s :
  in_range s -> Forall is_Some (queue s) ->
  is_Some (mjoin (zlookup (queue s) (lastIndex s))).
Proof.
  intros Hr Hq. destruct (zlookup_in_range _ _ Hr) as (x & -> & Hx).
  rewrite Forall_forall in Hq. exact (Hq x Hx).
Qed.

Lemma cleared_sound (pt : option Task) :
  Forall sound_call match pt with Some _ => [clearTimeout] | None => [] end.
Proof. destruct pt; repeat constructor. Qed.

Lemma pixChartOptions_sound s :
  isNaN (duration s) = false -> isNaN (maxPixels s) = false ->
  usable_count (bucketCount s) -> sound_options (pixChartOptions s).
Proof.
  intros Hd Hm Hb. unfold sound_options, pixChartOptions. simpl.
  split; [eexists; reflexivity|].
  split; [eexists; split; [reflexivity|apply toFrames_number, Hd]|].
  split; eexists; (split; [reflexivity|assumption]).
Qed.

Lemma created_sound link o :
  is_Some link -> sound_options o ->
  Forall sound_call
    [progressText "Loading image..."; progressOpacity "1";
     pixChart_new link o;
     throwTypeError "currentPixChart.on is not a function"].
Proof.
  intros Hl Ho. apply Forall_cons. split; [exact I|].
  apply Forall_cons. split; [exact I|].
  apply Forall_cons. split; [split; assumption|].
  apply Forall_cons. split; [exact I|constructor].
Qed.

Ltac scene_parts :=
  repeat match goal with |- _ /\ _ => split end;
  try assumption; try lia; try (intros; discriminate).

Lemma processNextInQueue_ok forceDispose s :
  scene_ok s ->
  scene_ok (fst (processNextInQueue forceDispose s)) /\
  Forall sound_call (snd (processNextInQueue forceDispose s)).
Proof.
  intros (Hr & Hq & Hp & Hd & Hm & Hb).
  pose proof (processNextInQueue_in_range forceDispose s Hr) as Hr'.
  pose proof (queued_image s Hr Hq) as Himg.
  pose proof (pixChartOptions_sound s Hd Hm Hb) as Ho.
  destruct s as [cv im du bc mp cg ii pa fr ch qu li pt q].
  unfold scene_ok. unfold in_range in *. simpl in *.
  revert Hr'. unfold processNextInQueue, setImage, createPixChart. simpl.
  destruct ch as [h|]; simpl.
  - destruct (bool_decide _ && negb forceDispose); simpl; intros Hr'.
    + split; [scene_parts|].
      apply Forall_app. split; [apply cleared_sound|repeat constructor].
    + split.
      * scene_parts. intros link [= <-]. exact Himg.
      * apply Forall_app. split; [apply cleared_sound|].
        repeat constructor. exact Himg.
  - intros Hr'. split; [scene_parts|].
    apply Forall_app. split; [apply cleared_sound|].
    apply created_sound; [exact Himg|exact Ho].
Qed.

Lemma set_lastIndex_ok j s :
  scene_ok s -> 0 <= j < Z.of_nat (length (queue s)) ->
  scene_ok (set_lastIndex j s).
Proof.
  intros (Hr & Hq & Hp & Hd & Hm & Hb) Hj.
  destruct s. unfold scene_ok, in_range in *. simpl in *.
  scene_parts.
Qed.

Lemma restartCurrentAnimation_ok s :
  scene_ok s ->
  scene_ok (fst (restartCurrentAnimation s)) /\
  Forall sound_call (snd (restartCurrentAnimation s)).
Proof.
  intros Hs. unfold restartCurrentAnimation.
  pose proof Hs as (Hr & _). unfold in_range in Hr.
  destruct (queue s) as [|x qu] eqn:Eq; [simpl in Hr; lia|].
  rewrite <- Eq in *. apply processNextInQueue_ok, set_lastIndex_ok.
  - exact Hs.
  - destruct (Z.ltb_spec (lastIndex s - 1) 0); lia.
Qed.

Lemma processPrevInQueue_ok forceDispose s :
  scene_ok s ->
  scene_ok (fst (processPrevInQueue forceDispose s)) /\
  Forall sound_call (snd (processPrevInQueue forceDispose s)).
Proof.
  intros Hs. unfold processPrevInQueue.
  pose proof Hs as (Hr & _). unfold in_range in Hr.
  destruct (queue s) as [|x qu] eqn:Eq; [simpl in Hr; lia|].
  rewrite <- Eq in *. apply processNextInQueue_ok, set_lastIndex_ok.
  - exact Hs.
  - destruct (Z.ltb_spec (lastIndex s - 2) 0); lia.
Qed.

Lemma perform_ok a s :
  scene_ok s -> real_files a ->
  scene_ok (fst (perform a s)) /\ Forall sound_call (snd (perform a s)).
Proof.
  intros Hs Ha. destruct a as [files|x|x|x|g|x|f|f|]; cbn [perform].
  - (* setImages *)
    unfold setImages. destruct files as [|file files].
    + split; [|constructor].
      destruct Hs as (Hr & Hq & Hp & Hd & Hm & Hb). destruct s as [cv im du bc mp cg ii pa fr ch qu li pt q].
      unfold scene_ok, in_range in *. simpl in *. scene_parts.
    + apply processNextInQueue_ok.
      destruct Hs as (Hr & Hq & Hp & Hd & Hm & Hb). destruct s as [cv im du bc mp cg ii pa fr ch qu li pt q].
      unfold scene_ok, in_range in *. cbn [real_files] in Ha.
      cbn [queue lastIndex pendingTimeout duration maxPixels bucketCount
           length] in *.
      scene_parts.
  - (* setAnimationDuration *)
    unfold setAnimationDuration.
    destruct (isNaN (parseFloat x)) eqn:En; [split; [exact Hs|constructor]|].
    destruct Hs as (Hr & Hq & Hp & Hd & Hm & Hb). destruct s as [cv im du bc mp cg ii pa fr ch qu li pt q].
    unfold scene_ok, in_range in *. simpl in *.
    split; [scene_parts|].
    destruct ch; repeat constructor.
    apply toFrames_number, En.
  - (* setBucketCount *)
    unfold setBucketCount.
    destruct (isNaN (parseInt10 x) || num_lt (parseInt10 x) (Fin 1)) eqn:En;
      [split; [exact Hs|constructor]|].
    apply orb_false_iff in En.
    match goal with
    | |- context [restartCurrentAnimation ?t] =>
        assert (Hs' : scene_ok t)
    end.
    { destruct Hs as (Hr & Hq & Hp & Hd & Hm & Hb). destruct s as [cv im du bc mp cg ii pa fr ch qu li pt q].
      unfold scene_ok, in_range, usable_count in *. simpl in *.
      scene_parts; tauto. }
    cbn [Scene.currentPixChart].
    destruct (currentPixChart s); [apply restartCurrentAnimation_ok, Hs'|].
    split; [exact Hs'|constructor].
  - (* setMaxPixels *)
    unfold setMaxPixels.
    destruct (isNaN (parseInt10 x)) eqn:En; [split; [exact Hs|constructor]|].
    destruct Hs as (Hr & Hq & Hp & Hd & Hm & Hb). destruct s as [cv im du bc mp cg ii pa fr ch qu li pt q].
    unfold scene_ok, in_range in *. simpl in *.
    split; [scene_parts|].
    destruct ch; repeat constructor. exact En.
  - (* setColorGroupBy *)
    unfold setColorGroupBy. apply restartCurrentAnimation_ok.
    destruct Hs as (Hr & Hq & Hp & Hd & Hm & Hb). destruct s as [cv im du bc mp cg ii pa fr ch qu li pt q].
    unfold scene_ok, in_range in *. simpl in *. scene_parts.
  - (* setInitialState *)
    unfold setInitialState. apply restartCurrentAnimation_ok.
    destruct Hs as (Hr & Hq & Hp & Hd & Hm & Hb). destruct s as [cv im du bc mp cg ii pa fr ch qu li pt q].
    unfold scene_ok, in_range in *. simpl in *. scene_parts.
  - apply processNextInQueue_ok, Hs.
  - apply processPrevInQueue_ok, Hs.
  - (* the timer *)
    unfold timerFires.
    destruct (pendingTimeout s) as [[|link|]|] eqn:Ep.
    + apply processNextInQueue_ok, Hs.
    + pose proof Hs as (Hr & Hq & Hp & Hd & Hm & Hb).
      pose proof (pixChartOptions_sound s Hd Hm Hb) as Ho.
      pose proof (Hp link Ep) as Hl.
      destruct s as [cv im du bc mp cg ii pa fr ch qu li pt q].
      unfold scene_ok, in_range in *.
      cbn [createPixChart set_currentPixChart set_pendingTimeout fst snd
           queue lastIndex pendingTimeout duration maxPixels bucketCount]
        in *.
      split; [scene_parts|].
      apply created_sound; [exact Hl|exact Ho].
    + split; [exact Hs|constructor].
    + split; [exact Hs|constructor].
Qed.

(** X15: whatever is done to the scene, the chart gets sound values.
    From a scene whose position lies within its queue of images, whose
    duration and pixel limit are numbers and whose bucket count is at
    least 1, any sequence of calls of the methods of the state, presses of
    the two keys and firings of the pending timer, with lists of actual
    files, leaves the scene so; every chart it makes on the way is for an
    image (not [undefined]) with a canvas, a frame count and a pixel limit
    that are numbers and a bucket count of at least 1, and no NaN is
    handed to [setFramesCount] or [setMaxPixels]. *)
Theorem scene_hands_over_sound_values l : forall s,
  scene_ok s -> Forall real_files l ->
  scene_ok (fst (perform_all l s)) /\
  Forall sound_call (snd (perform_all l s)).
Proof.
  induction l as [|a l IH]; intros s Hs Hl.
  - split; [exact Hs|constructor].
  - apply Forall_cons in Hl. destruct Hl as [Ha Hl].
    destruct (perform_ok a s Hs Ha) as [Hs1 Hc1].
    cbn [perform_all]. destruct (perform a s) as [s1 calls1].
    destruct (IH s1 Hs1 Hl) as [Hs2 Hc2].
    destruct (perform_all l s1) as [s2 calls2]. cbn [fst snd] in *.
    split; [exact Hs2|]. apply Forall_app. split; assumption.
Qed.

(** X16: a changed setting reaches the next chart.  With a chart on show
    and a position within the queue, an accepted [setBucketCount], and any
    [setColorGroupBy] or [setInitialState], restarts the animation; when
    the timer then fires, the chart made is for the image that was on
    show, and its options carry the new value. *)
Theorem changed_setting_reaches_next_chart s h (a : Action) :
  in_range s -> currentPixChart s = Some h ->
  match a with
  | do_setBucketCount newCount =>
      usable_count (parseInt10 newCount)
  | do_setColorGroupBy _ | do_setInitialState _ => True
  | _ => False
  end ->
  let s1 := fst (perform a s) in
  let s2 := fst (timerFires s1) in
  snd (perform a s)
  = cleared s ++ [chart_dispose;
                  setTimeout (task_createPixChart (shown s)) 250] /\
  pendingTimeout s1 = Some (task_createPixChart (shown s)) /\
  currentPixChart s2
  = Some {| imageLink := shown s; chartOptions := pixChartOptions s1 |} /\
  match a with
  | do_setBucketCount newCount =>
      PixChart.bucketCount (pixChartOptions s1) = Some (parseInt10 newCount)
  | do_setColorGroupBy groupBy =>
      PixChart.colorGroupBy (pixChartOptions s1)
      = Some (getSafeColorGroupBy groupBy)
  | do_setInitialState newInitialState =>
      PixChart.collapsed (pixChartOptions s1)
      = Some (bool_decide (newInitialState = "collapsed"%string))
  | _ => True
  end.
Proof.
  intros Hr Hc Ha s1 s2. subst s1 s2.
  destruct a as [files|x|x|x|g|x|f|f|]; try contradiction; cbn [perform].
  - unfold setBucketCount. destruct Ha as [Hn Hlt]. rewrite Hn, Hlt.
    cbn [orb Scene.currentPixChart]. rewrite Hc.
    match goal with
    | |- context [restartCurrentAnimation ?t] =>
        rewrite (restart_replays t h)
    end.
    + destruct s. repeat split.
    + destruct s. exact Hr.
    + destruct s. first [exact Hc|reflexivity].
  - unfold setColorGroupBy.
    match goal with
    | |- context [restartCurrentAnimation ?t] =>
        rewrite (restart_replays t h)
    end.
    + destruct s. repeat split.
    + destruct s. exact Hr.
    + destruct s. first [exact Hc|reflexivity].
  - unfold setInitialState.
    match goal with
    | |- context [restartCurrentAnimation ?t] =>
        rewrite (restart_replays t h)
    end.
    + destruct s. repeat split.
    + destruct s. exact Hr.
    + destruct s. first [exact Hc|reflexivity].
Qed.

End Entry.

Lemma playing_ok : scene_ok playing.
Proof.
  unfold scene_ok, in_range, usable_count. simpl.
  repeat split; try lia; try discriminate.
  repeat constructor; eexists; reflexivity.
Qed.

Lemma scene_hands_over_sound_values_witness :
  Forall sound_call
    (snd (perform_all decimal (fun _ => NaN)
            [do_setBucketCount "0"; do_setBucketCount "12";
             do_timerFires; do_processPrevInQueue true;
             do_setImages [Some "c.png"%string]; do_setMaxPixels "100"]
            playing)).
Proof.
  refine (proj2 (scene_hands_over_sound_values decimal (fun _ => NaN) _
                   playing playing_ok _)).
  repeat constructor. eexists. reflexivity.
Defined.

Lemma changed_setting_reaches_next_chart_witness :
  PixChart.bucketCount
    (pixChartOptions
       (fst (perform decimal (fun _ => NaN) (do_setBucketCount "12")
               playing)))
  = Some (Fin 12).
Proof.
  refine (proj2 (proj2 (proj2
            (changed_setting_reaches_next_chart decimal (fun _ => NaN)
               playing _ (do_setBucketCount "12") _ eq_refl _)))).
  - unfold in_range. simpl. lia.
  - split; reflexivity.
Defined.

End SceneMore.

(** ** The pipeline: a chart and its loader together *)

Module PipelineMore.
Import PixChart.

(** What the client's [progress] callback is called with. *)
Definition reports (out : list Effect) : list Progress :=
  omap (fun e => match e with NotifyProgress p => Some p | _ => None end)
       out.

Definition quiet (e : LoadParticles.Effect) : Prop :=
  LoadParticlesMore.settles e = false.

(** The effects that make a texture. *)
Definition creates (e : Effect) : bool :=
  match e with CreateTexture => true | _ => false end.

Section Pipeline.

Variable rgbToHsl_l : option Z -> option Z -> option Z -> num.
Variable gaussian : nat -> Q.
Variable options : Options.

Local Abbreviation loaderEffect := (Pipeline.loaderEffect options).
Local Abbreviation loaderEffects := (Pipeline.loaderEffects options).
Local Abbreviation startAnimationPipeline :=
  (Pipeline.startAnimationPipeline rgbToHsl_l gaussian options).

Lemma loaderEffects_app again out1 : forall out2 c,
  loaderEffects again (out1 ++ out2) c
  = (fst (loaderEffects again out2 (fst (loaderEffects again out1 c))),
     snd (loaderEffects again out1 c)
       ++ snd (loaderEffects again out2
                 (fst (loaderEffects again out1 c)))).
Proof.
  induction out1 as [|e out1 IH]; intros out2 c.
  - cbn [Pipeline.loaderEffects app fst snd].
    destruct (loaderEffects again out2 c). reflexivity.
  - cbn [Pipeline.loaderEffects app].
    destruct (loaderEffect again e c) as [c1 e1].
    rewrite IH. destruct (loaderEffects again out1 c1) as [c2 e2].
    cbn [fst snd]. rewrite app_assoc. reflexivity.
Qed.

(** The resolution is the last thing a loader does. *)
Lemma processPixels_shape budget : forall L,
  LoadParticles.resolved L = None ->
  let r := LoadParticles.processPixels rgbToHsl_l gaussian budget L in
  (Forall quiet (snd r) /\ LoadParticles.resolved (fst r) = None) \/
  (exists p, snd r = [LoadParticles.Resolve p] /\
             LoadParticles.resolved (fst r) = Some p).
Proof.
  induction budget as [|budget IH]; intros L Hr; cbn zeta;
    cbn [LoadParticles.processPixels];
    destruct (LoadParticles.idx L <? 4 * LoadParticles.n L).
  - left.
    destruct (LoadParticlesFacts.processPixel_control rgbToHsl_l gaussian L)
      as (_ & _ & _ & Hr1).
    destruct (LoadParticlesFacts.scheduleWork_data
                (LoadParticles.processPixel rgbToHsl_l gaussian L))
      as (_ & Sr & _ & _).
    split; [|rewrite Sr, Hr1; exact Hr].
    unfold LoadParticles.scheduleWork.
    destruct (LoadParticles.cancelled _); [constructor|]. cbn [snd].
    destruct (_ =? 0); repeat constructor.
  - right. unfold LoadParticles.actualResolve. rewrite Hr.
    eexists. split; reflexivity.
  - apply IH.
    destruct (LoadParticlesFacts.processPixel_control rgbToHsl_l gaussian L)
      as (_ & _ & _ & Hr1).
    rewrite Hr1. exact Hr.
  - right. unfold LoadParticles.actualResolve. rewrite Hr.
    eexists. split; reflexivity.
Qed.

Lemma run_shape Li (Hi : LoadParticles.idx Li = 0) es : forall L,
  LoadParticlesFacts.reached rgbToHsl_l gaussian Li L ->
  LoadParticles.resolved L = None ->
  let r := LoadParticles.run rgbToHsl_l gaussian es L in
  exists pre,
    Forall quiet pre /\
    snd r = pre ++ match LoadParticles.resolved (fst r) with
                   | Some p => [LoadParticles.Resolve p]
                   | None => []
                   end.
Proof.
  induction es as [|e es IH]; intros L HR Hr; cbn zeta.
  - exists []. simpl. rewrite Hr. split; [constructor|reflexivity].
  - pose proof (LoadParticlesFacts.step_reached rgbToHsl_l gaussian
                  Li Hi e L HR) as HR1.
    assert (Hstep :
      (Forall quiet (snd (LoadParticles.step rgbToHsl_l gaussian e L)) /\
       LoadParticles.resolved
         (fst (LoadParticles.step rgbToHsl_l gaussian e L)) = None) \/
      (exists p,
         snd (LoadParticles.step rgbToHsl_l gaussian e L)
         = [LoadParticles.Resolve p] /\
         LoadParticles.resolved
           (fst (LoadParticles.step rgbToHsl_l gaussian e L)) = Some p)).
    { destruct e as [budget|]; cbn [LoadParticles.step].
      - destruct (LoadParticles.timer L).
        + apply processPixels_shape. exact Hr.
        + left. split; [constructor|exact Hr].
      - left. split; [constructor|exact Hr]. }
    change (LoadParticles.run rgbToHsl_l gaussian (e :: es) L)
      with (let '(L1, out1) := LoadParticles.step rgbToHsl_l gaussian e L in
            let '(L2, out2) := LoadParticles.run rgbToHsl_l gaussian es L1 in
            (L2, out1 ++ out2)).
    destruct (LoadParticles.step rgbToHsl_l gaussian e L) as [L1 out1].
    cbn [fst snd] in *.
    destruct Hstep as [[Hq Hn]|(p & -> & Hp)].
    + destruct (IH L1 HR1 Hn) as (pre & Hpre & E). cbn zeta in E.
      destruct (LoadParticles.run rgbToHsl_l gaussian es L1) as [L2 out2].
      cbn [fst snd] in *. exists (out1 ++ pre).
      split; [apply Forall_app; split; assumption|].
      rewrite E, app_assoc. reflexivity.
    + assert (Ht : LoadParticles.timer L1 = false).
      { destruct HR1 as (k1 & _ & _ & Hp1 & _).
        destruct (LoadParticles.timer L1); [|reflexivity].
        rewrite (Hp1 eq_refl) in Hp. discriminate. }
      destruct (LoadParticlesFacts.idle_run rgbToHsl_l gaussian es L1 Ht)
        as (_ & Hres & _ & Hout).
      destruct (LoadParticles.run rgbToHsl_l gaussian es L1) as [L2 out2].
      cbn [fst snd] in *. subst out2. rewrite Hres, Hp.
      exists []. split; [constructor|reflexivity].
Qed.

(** While the loader works, only [progress.current] of its chart moves,
    and the client is told numbers of pixels within the total. *)
Lemma loaderEffects_quiet again (N : Z) out : forall c,
  Forall quiet out ->
  (forall p, LoadParticles.OnProgress p ∈ out -> 0 <= p <= N) ->
  total (progress c) = N -> 0 <= current (progress c) <= N ->
  step (progress c) = step_pixels ->
  let r := loaderEffects again out c in
  fst r = set_progress (progress (fst r)) c /\
  total (progress (fst r)) = N /\ 0 <= current (progress (fst r)) <= N /\
  step (progress (fst r)) = step_pixels /\
  Forall (fun pr => total pr = N /\ 0 <= current pr <= N
                    /\ step pr = step_pixels) (reports (snd r)) /\
  Forall (fun e => exists pr, e = NotifyProgress pr) (snd r).
Proof.
  induction out as [|e out IH]; intros c Hq Hb Ht Hc Hs; cbn zeta.
  - simpl. destruct c as [? ? ? ? ? ? ? ? []]. simpl in *.
    repeat split; try assumption; try lia; constructor.
  - apply Forall_cons in Hq. destruct Hq as [He Hq].
    cbn [Pipeline.loaderEffects].
    assert (Hb' : forall p, LoadParticles.OnProgress p ∈ out -> 0 <= p <= N).
    { intros p Hp. apply Hb. right. exact Hp. }
    destruct e as [p| |particles]; cbn [Pipeline.loaderEffect].
    + assert (Hp : 0 <= p <= N) by (apply Hb; left).
      unfold reportImageStatsProgress, notifyProgress.
      match goal with
      | |- context [loaderEffects again out ?c1] =>
          specialize (IH c1 Hq Hb'); set (c' := c1) in *
      end.
      cbn [progress set_progress total current step] in IH.
      destruct (IH Ht Hp Hs) as (I1 & I2 & I3 & I4 & I5 & I6).
      destruct (loaderEffects again out c') as [c2 e2]. cbn [fst snd] in *.
      split; [rewrite I1; reflexivity|].
      split; [exact I2|]. split; [exact I3|]. split; [exact I4|].
      destruct (progress_callback options); cbn [app].
      * split.
        -- unfold reports. cbn [omap]. fold (reports e2).
           apply Forall_cons. split; [|exact I5].
           cbn [total current step]. auto.
        -- apply Forall_cons. split; [eexists; reflexivity|exact I6].
      * split; assumption.
    + destruct (IH c Hq Hb' Ht Hc Hs) as (I1 & I2 & I3 & I4 & I5 & I6).
      destruct (loaderEffects again out c) as [c2 e2]. cbn [fst snd app] in *.
      repeat split; try assumption; lia.
    + discriminate He.
Qed.

Lemma reports_app out1 out2 :
  reports (out1 ++ out2) = reports out1 ++ reports out2.
Proof. apply omap_app. Qed.

Lemma pixChart_fresh c :
  pixChart options = inr c ->
  progress c = {| total := 0; current := 0; step := step_image |} /\
  disposed c = false /\ nextAnimationFrame c = false /\
  pendingTimeout c = false /\
  LoadParticles.isCancelled (particleLoaderSettings c) = false.
Proof.
  unfold pixChart. destruct (canvas options) as [cnv|]; [|discriminate].
  destruct (negb (webgl cnv)); [discriminate|].
  intros [= <-]. repeat split.
Qed.

(** The chart a resolved promise leaves behind. *)
Definition loaded (P : LoadParticles.Particles) (c : Chart) : Chart :=
  {| initialState := initialState c; state := state c;
     nextAnimationFrame := false; pendingTimeout := true;
     disposed := false; framesCount := framesCount c;
     currentFrameNumber := LoadParticles.res_minFrameSpan P;
     particleLoaderSettings := particleLoaderSettings c;
     progress := {| total := total (progress c);
                    current := current (progress c);
                    step := step_done |};
     minFrameSpan := LoadParticles.res_minFrameSpan P;
     maxFrameSpan := LoadParticles.res_maxFrameSpan P;
     frameChangeRate :=
       num_div (num_sub (LoadParticles.res_maxFrameSpan P)
                        (LoadParticles.res_minFrameSpan P))
               (framesCount c) |}.

Lemma resolve_effect P c :
  disposed c = false -> nextAnimationFrame c = false ->
  pendingTimeout c = false ->
  loaderEffect false (LoadParticles.Resolve P) c
  = (loaded P c,
     (if progress_callback options then [NotifyProgress (progress (loaded P c))]
      else [])
       ++ [CreateTexture; ReleaseResources;
           Draw (LoadParticles.res_minFrameSpan P)
                (LoadParticles.res_minFrameSpan P)
                (LoadParticles.res_maxFrameSpan P) (state c);
           SetTimeout 1000]).
Proof.
  destruct c as [ini st nx pd ds fc cf pls pr mn mx rt].
  cbn [disposed nextAnimationFrame pendingTimeout]. intros -> -> ->.
  unfold Pipeline.loaderEffect, particlesLoaded, notifyProgress.
  destruct (progress_callback options); reflexivity.
Qed.

(** X17: what the client sees of a load.  For a chart just made and an
    image with pixels given by [loadImage] (one without makes the loader
    throw, and the pipeline end in the step 'error'), however the batches
    of the loader fall:
    every progress the client is told has [total = width * height] and
    [0 <= current <= total]; the steps told are [pixels], followed by one
    [done] exactly when the chart has reached it; the chart ends either
    still loading with no pause pending, or done, with the first pause of
    the cycle (1000 ms) set last and the frame number at the lower span.
    With one timer more than the image has pixels the load is done, and
    the chart holds the spans of the particles of the whole image. *)
Theorem client_sees_a_load c image random0 budgets :
  pixChart options = inr c ->
  0 < LoadParticles.width image -> 0 < LoadParticles.height image ->
  let N := LoadParticles.width image * LoadParticles.height image in
  let r := startAnimationPipeline image random0 budgets c in
  Forall (fun pr => total pr = N /\ 0 <= current pr <= N)
         (reports (snd r)) /\
  (exists pre,
     Forall (fun pr => step pr = step_pixels) pre /\
     reports (snd r)
     = pre ++ (if progress_callback options then
                 match step (progress (fst r)) with
                 | step_done => [progress (fst r)]
                 | _ => []
                 end
               else [])) /\
  (step (progress (fst r)) = step_pixels /\ pendingTimeout (fst r) = false
   \/
   step (progress (fst r)) = step_done /\ pendingTimeout (fst r) = true /\
   last (snd r) = Some (SetTimeout 1000) /\
   currentFrameNumber (fst r) = minFrameSpan (fst r)) /\
  (length budgets = S (Z.to_nat N) ->
   let P :=
     LoadParticles.particlesOf
       (LoadParticles.processAll rgbToHsl_l gaussian (Z.to_nat N)
          (LoadParticlesFacts.initial image (particleLoaderSettings c)
             random0)) in
   step (progress (fst r)) = step_done /\
   minFrameSpan (fst r) = LoadParticles.res_minFrameSpan P /\
   maxFrameSpan (fst r) = LoadParticles.res_maxFrameSpan P).
Proof.
  intros Hfresh Hw Hh N r.
  destruct (pixChart_fresh c Hfresh) as (Hpr & Hdis & Hnext & Hpend & Hcan).
  assert (HN : 0 <= N) by (subst N; nia).
  set (Li := LoadParticlesFacts.initial image (particleLoaderSettings c)
               random0).
  set (c1 := set_progress {| total := N; current := current (progress c);
                             step := step_pixels |} c).
  set (Lr := LoadParticles.run rgbToHsl_l gaussian
               (LoadParticles.TimerFires <$> budgets)
               (fst (LoadParticles.scheduleWork Li))).
  assert (Hi : LoadParticles.idx Li = 0) by reflexivity.
  assert (Hsched : LoadParticles.scheduleWork Li
                   = (fst (LoadParticles.scheduleWork Li),
                      [LoadParticles.SetTimeout0])).
  { unfold LoadParticles.scheduleWork.
    change (LoadParticles.cancelled Li)
      with (LoadParticles.isCancelled (particleLoaderSettings c)).
    rewrite Hcan. reflexivity. }
  assert (Er : r = (fst (loaderEffects false
                           (LoadParticles.SetTimeout0 :: snd Lr) c1),
                    (notifyProgress options c1
                       ++ [LoadParticles image (particleLoaderSettings c)])
                      ++ snd (loaderEffects false
                                (LoadParticles.SetTimeout0 :: snd Lr) c1))).
  { subst r.
    unfold Pipeline.startAnimationPipeline, Pipeline.pipeline,
      updateProgressAndLoadParticles.
    cbn zeta. cbn [particleLoaderSettings set_progress].
    rewrite LoadParticlesFacts.loadParticles_initial by lia. fold Li.
    rewrite Hsched. fold Lr. fold N. fold c1.
    change ([LoadParticles.SetTimeout0] ++ snd Lr)
      with (LoadParticles.SetTimeout0 :: snd Lr).
    destruct (loaderEffects false (LoadParticles.SetTimeout0 :: snd Lr) c1).
    reflexivity. }
  clearbody r. subst r. cbn [fst snd].
  (* the loader *)
  pose proof (LoadParticlesFacts.scheduleWork_reached rgbToHsl_l gaussian
                Li eq_refl) as HR.
  assert (Hnone : LoadParticles.resolved
                    (fst (LoadParticles.scheduleWork Li)) = None).
  { destruct (LoadParticlesFacts.scheduleWork_data Li) as (_ & Sr & _).
    rewrite Sr. reflexivity. }
  destruct (run_shape Li Hi (LoadParticles.TimerFires <$> budgets) _
              HR Hnone) as (pre & Hpre & Eout).
  cbn zeta in Eout. fold Lr in Eout.
  destruct (LoadParticlesMore.run_output rgbToHsl_l gaussian Li Hi
              (LoadParticles.TimerFires <$> budgets) _ HR) as (Hbound & _).
  fold Lr in Hbound.
  change (Z.max 0 (LoadParticles.n Li)) with (Z.max 0 N) in Hbound.
  rewrite Z.max_r in Hbound by exact HN.
  (* the chart while the loader works *)
  change (LoadParticles.SetTimeout0 :: snd Lr)
    with ([LoadParticles.SetTimeout0] ++ snd Lr).
  rewrite Eout, app_assoc, loaderEffects_app.
  assert (Hq : Forall quiet ([LoadParticles.SetTimeout0] ++ pre)).
  { apply Forall_cons. split; [reflexivity|exact Hpre]. }
  assert (Hb : forall p,
             LoadParticles.OnProgress p ∈ [LoadParticles.SetTimeout0] ++ pre
             -> 0 <= p <= N).
  { intros p Hp. apply elem_of_cons in Hp as [Hp|Hp]; [discriminate|].
    apply Hbound. rewrite Eout. apply elem_of_app. left. exact Hp. }
  assert (Hcur : 0 <= current (progress c1) <= N).
  { subst c1. cbn [progress set_progress current]. rewrite Hpr. simpl. lia. }
  destruct (loaderEffects_quiet false N _ c1 Hq Hb eq_refl Hcur eq_refl)
    as (Q1 & Q2 & Q3 & Q4 & Q5 & Q6).
  cbn zeta in *.
  destruct (loaderEffects false ([LoadParticles.SetTimeout0] ++ pre) c1)
    as [c2 e2].
  cbn [fst snd] in *.
  (* what the client was told before the loader started *)
  set (head := notifyProgress options c1
                 ++ [LoadParticles image (particleLoaderSettings c)]).
  assert (Hhead : Forall (fun pr => total pr = N /\ 0 <= current pr <= N
                                    /\ step pr = step_pixels)
                         (reports head)).
  { subst head. unfold notifyProgress.
    destruct (progress_callback options); [|constructor].
    apply Forall_cons. split; [|constructor].
    split; [reflexivity|]. split; [exact Hcur|reflexivity]. }
  assert (Hfields : disposed c2 = false /\ nextAnimationFrame c2 = false /\
                    pendingTimeout c2 = false).
  { rewrite Q1. subst c1. cbn. auto. }
  destruct Hfields as (Hdis2 & Hnext2 & Hpend2).
  assert (Hweak : forall l,
            Forall (fun pr => total pr = N /\ 0 <= current pr <= N
                              /\ step pr = step_pixels) l ->
            Forall (fun pr => total pr = N /\ 0 <= current pr <= N) l /\
            Forall (fun pr => step pr = step_pixels) l).
  { intros l Hl. split; eapply Forall_impl; try exact Hl; cbn; tauto. }
  destruct (Hweak _ Hhead) as [Hh1 Hh2]. destruct (Hweak _ Q5) as [Hq1 Hq2].
  destruct (LoadParticles.resolved (fst Lr)) as [P|] eqn:Eres.
  - (* the promise is resolved *)
    cbn [Pipeline.loaderEffects].
    rewrite (resolve_effect P c2 Hdis2 Hnext2 Hpend2).
    cbn [fst snd]. rewrite app_nil_r, !reports_app.
    assert (Enote : reports (if progress_callback options
                             then [NotifyProgress (progress (loaded P c2))]
                             else [])
                    = if progress_callback options
                      then [progress (loaded P c2)] else []).
    { destruct (progress_callback options); reflexivity. }
    rewrite Enote.
    change (reports [CreateTexture; ReleaseResources;
                     Draw (LoadParticles.res_minFrameSpan P)
                          (LoadParticles.res_minFrameSpan P)
                          (LoadParticles.res_maxFrameSpan P) (state c2);
                     SetTimeout 1000]) with (@nil Progress).
    rewrite app_nil_r.
    split; [|split; [|split]].
    + rewrite !Forall_app. split; [exact Hh1|]. split; [exact Hq1|].
      destruct (progress_callback options); [|constructor].
      apply Forall_cons. split; [|constructor].
      cbn [loaded progress total current]. auto.
    + exists (reports head ++ reports e2).
      split; [apply Forall_app; split; assumption|].
      rewrite <- app_assoc. reflexivity.
    + right. split; [reflexivity|]. split; [reflexivity|].
      split; [|reflexivity].
      rewrite !last_app. reflexivity.
    + intros _. cbn zeta. split; [reflexivity|].
      destruct (LoadParticlesFacts.resolved_whole rgbToHsl_l gaussian
                  image (particleLoaderSettings c) random0
                  (LoadParticles.TimerFires <$> budgets) P Eres)
        as (_ & _ & ->).
      split; reflexivity.
  - (* the loader is still at work *)
    cbn [Pipeline.loaderEffects fst snd]. rewrite app_nil_r, Q4, reports_app.
    split; [|split; [|split]].
    + apply Forall_app. split; assumption.
    + exists (reports head ++ reports e2).
      split; [apply Forall_app; split; assumption|].
      destruct (progress_callback options); rewrite app_nil_r; reflexivity.
    + left. split; [reflexivity|exact Hpend2].
    + intros Hlen.
      destruct (LoadParticlesFacts.loadParticles_completes rgbToHsl_l
                  gaussian image (particleLoaderSettings c) random0 budgets
                  Hcan Hlen) as [P HP].
      fold Li in HP. fold Lr in HP. congruence.
Qed.

Lemma loaderEffect_disposed again e c :
  disposed c = true ->
  disposed (fst (loaderEffect again e c)) = true /\
  fst (loaderEffect again e c)
  = set_progress (progress (fst (loaderEffect again e c))) c /\
  Forall (fun e => (exists pr, e = NotifyProgress pr) \/ e = CreateTexture)
         (snd (loaderEffect again e c)) /\
  length (filter (fun e => creates e = true) (snd (loaderEffect again e c)))
  = (if LoadParticlesMore.settles e then 1 else 0)%nat.
Proof.
  destruct c as [ini st nx pd ds fc cf pls pr mn mx rt].
  cbn [disposed]. intros ->.
  destruct e as [p| |P]; cbn [Pipeline.loaderEffect LoadParticlesMore.settles].
  - unfold reportImageStatsProgress, notifyProgress.
    destruct (progress_callback options);
      (split; [reflexivity|]); (split; [reflexivity|]);
      (split; [|reflexivity]);
      repeat (apply Forall_cons; split;
              [first [right; reflexivity | left; eexists; reflexivity]|]);
      constructor.
  - split; [reflexivity|]. split; [reflexivity|].
    split; [constructor|reflexivity].
  - unfold particlesLoaded, notifyProgress, initWebGLPrimitives,
      startExpandCollapseCycle.
    destruct again, (progress_callback options);
      (split; [reflexivity|]); (split; [reflexivity|]);
      (split; [|reflexivity]); cbn;
      repeat (apply Forall_cons; split;
              [first [right; reflexivity | left; eexists; reflexivity]|]);
      constructor.
Qed.

Lemma loaderEffects_disposed again out : forall c,
  disposed c = true ->
  fst (loaderEffects again out c)
  = set_progress (progress (fst (loaderEffects again out c))) c /\
  Forall (fun e => (exists pr, e = NotifyProgress pr) \/ e = CreateTexture)
         (snd (loaderEffects again out c)) /\
  length (filter (fun e => creates e = true)
            (snd (loaderEffects again out c)))
  = length (filter (fun e => LoadParticlesMore.settles e = true) out).
Proof.
  induction out as [|e out IH]; intros c Hd.
  - split; [destruct c; reflexivity|]. split; [constructor|reflexivity].
  - cbn [Pipeline.loaderEffects].
    destruct (loaderEffect_disposed again e c Hd) as (Hd1 & E1 & F1 & N1).
    destruct (loaderEffect again e c) as [c1 e1]. cbn [fst snd] in *.
    destruct (IH c1 Hd1) as (E2 & F2 & N2).
    destruct (loaderEffects again out c1) as [c2 e2]. cbn [fst snd] in *.
    split; [rewrite E2, E1; reflexivity|].
    split; [apply Forall_app; split; assumption|].
    rewrite filter_app, length_app, N1, N2, filter_cons.
    destruct (LoadParticlesMore.settles e); reflexivity.
Qed.

(** X18: a chart disposed while its loader runs.  Whatever the loader
    still reports, and even if it resolves its promise after all, in the
    first pipeline and in that of [setMaxPixels] alike, the disposed
    chart changes nothing but its [progress] and asks for no draw, no
    release, no timer and no frame.  What remains are calls of the
    client's [progress] callback and, for each resolution, the texture
    that is made of the canvas before [initWebGLPrimitives] looks at the
    flag, and that nothing releases. *)
Theorem disposed_chart_ignores_its_loader again c out :
  let c' := fst (dispose c) in
  fst (loaderEffects again out c')
  = set_progress (progress (fst (loaderEffects again out c'))) c' /\
  Forall (fun e => (exists pr, e = NotifyProgress pr) \/ e = CreateTexture)
         (snd (loaderEffects again out c')) /\
  length (filter (fun e => creates e = true)
            (snd (loaderEffects again out c')))
  = length (filter (fun e => LoadParticlesMore.settles e = true) out).
Proof.
  cbn zeta. apply loaderEffects_disposed. reflexivity.
Qed.

End Pipeline.

(** The chart [pixChart] makes of [someOptions]. *)
Definition freshChart : Chart :=
  {| initialState := ANIMATION_COLLAPSE; state := ANIMATION_COLLAPSE;
     nextAnimationFrame := false; pendingTimeout := false;
     disposed := false; framesCount := Fin (3 # 2);
     currentFrameNumber := Fin 0;
     particleLoaderSettings :=
       {| LoadParticles.isCancelled := false;
          LoadParticles.framesCount := Fin (3 # 2) |};
     progress := {| total := 0; current := 0; step := step_image |};
     minFrameSpan := NaN; maxFrameSpan := NaN; frameChangeRate := NaN |}.

Lemma client_sees_a_load_witness :
  step (progress
          (fst (Pipeline.startAnimationPipeline LoadParticles.lightness
                  LoadParticlesFacts.someGaussian PixChartFacts.someOptions
                  LoadParticlesFacts.twoPixels 0 [0; 0; 0]%nat freshChart)))
  = step_done.
Proof.
  refine (proj1 (proj2 (proj2 (proj2
            (client_sees_a_load LoadParticles.lightness
               LoadParticlesFacts.someGaussian PixChartFacts.someOptions
               freshChart LoadParticlesFacts.twoPixels 0 [0; 0; 0]%nat
               eq_refl _ _))) eq_refl)); simpl; lia.
Defined.

End PipelineMore.
